(** * DNP3 dissector core (src/dissect.c): transport function, context table

    A shallow embedding of the stateful part of [dissect.c]: the tokenizer
    of transport segments, the transport-function recognizer and its
    semantic actions, the per-connection context table with its LRU
    discipline, the pipeline that drives them for each link frame, and
    the plugin with its frame synchronizer and feed loop.

    Conventions.
    - [size_t] values are [Z] with the wrap-around at [2^64] written out
      ([size_t]); [uint8_t]/[uint16_t] fields that are only compared are
      plain [Z].
    - A C pair (pointer, length) of bytes is a [list byte]; the length is
      the length of the list.  A NULL pointer of a nullable object is
      [None].
    - [assert] aborts the program; hooks and [error(...)] calls append to
      the trace of events.  Both are carried by the monad [M]. *)

From Stdlib Require Import List ZArith Bool Lia Ascii String.
From Stdlib.Strings Require Import Byte.
Import ListNotations.

Local Open Scope Z_scope.

(** ** Machine integers *)

Definition SIZE_WIDTH : Z := 64.

Definition size_t (x : Z) : Z := x mod 2 ^ SIZE_WIDTH.

(** ** Data model

    The structures are declared in [dnp3.h] and [dissect.h], which are
    not part of the sources; their fields are those [dissect.c] reads and
    writes. *)

(** Modelled from the spec: [DNP3_Segment] (section 3).  The C fields
    [payload] and [len] are the byte list and its length. *)
Record DNP3_Segment := mkSegment {
  fir : bool;
  fin : bool;
  seq : Z;
  payload : list byte
}.

Definition len (s : DNP3_Segment) : Z := Z.of_nat (List.length (payload s)).

(** Modelled from the spec: the function codes of a frame that
    [process_link_frame] tells apart (section 3). *)
Inductive DNP3_Func :=
| DNP3_UNCONFIRMED_USER_DATA
| DNP3_CONFIRMED_USER_DATA
| DNP3_OTHER_FUNC (code : Z).

(** Modelled from the spec: [DNP3_Frame], the fields the dissector reads
    (section 3).  [frame_payload] is [None] when the link parser found a
    CRC error (NULL pointer); [frame->len] is the length of the list. *)
Record DNP3_Frame := mkFrame {
  func : DNP3_Func;
  source : Z;
  destination : Z;
  frame_payload : option (list byte)
}.

(** ** The recognizer's stack values and suspended state

    [SegTok] is the value made by [H_MAKE(DNP3_Segment, ptr)]: a pointer
    to an arena copy of a segment, possibly NULL. *)
Definition SegTok := option DNP3_Segment.

(** Modelled from the spec: the LALR engine of the parser library that
    [h_parse_start]/[h_parse_chunk]/[h_parse_finish] drive is not part of
    the sources.  The engine below is the recognizer of the grammar built
    in [init] (tfun -> series | [^A]; series -> A1 pe end;
    A1 -> A A1 | A; pe -> ([+] | [=])*; end -> Z | [^AZ+=]), run token by
    token as section 4.2 describes: a state per grammar position, the
    semantic values gathered so far, success once a top-level alternative
    is complete, failure on a token (or end of input) no alternative
    allows. *)
Inductive LREngine :=
| lr_start                                     (* nothing consumed *)
| lr_A1 (x : SegTok)                           (* A+ seen; value of h_right *)
| lr_pe (x : SegTok) (xs : list SegTok)        (* A+ [+=]+ seen *)
| lr_success (ast : option (list byte))        (* start symbol reduced *)
| lr_failure.                                  (* no action for lookahead *)

(** Modelled from the spec: the suspended parser of the library, its
    engine and the number of tokens it has consumed. *)
Record HSuspendedParser := mkSuspended {
  engine : LREngine;
  pos : Z                                      (* tokens consumed so far *)
}.

(** Modelled from the spec: the result of the library, for the transport
    function: [ast] is NULL ([None]) or the bytes [act_series] made. *)
Record HParseResult := mkResult {
  ast : option (list byte);
  bit_length : Z
}.

(** Modelled from the spec: [struct Context] (section 3), without its
    [next] link: the table is the list.  [last_segment] is stored by
    value and its payload in [last_segment_payload]; here the segment
    holds its bytes.  [buf] is the array and [n] its fill. *)
Record Context := mkContext {
  src : Z;
  dst : Z;
  last_segment : DNP3_Segment;
  tfun : option HSuspendedParser;
  tfun_pos : Z;
  buf : list byte;
  n : Z
}.

Definition set_n (c : Context) (v : Z) : Context :=
  mkContext (src c) (dst c) (last_segment c) (tfun c) (tfun_pos c) (buf c) v.

Definition set_buf (c : Context) (b : list byte) : Context :=
  mkContext (src c) (dst c) (last_segment c) (tfun c) (tfun_pos c) b (n c).

Definition set_tfun (c : Context) (t : option HSuspendedParser) : Context :=
  mkContext (src c) (dst c) (last_segment c) t (tfun_pos c) (buf c) (n c).

Definition set_tfun_pos (c : Context) (p : Z) : Context :=
  mkContext (src c) (dst c) (last_segment c) (tfun c) p (buf c) (n c).

Definition set_last_segment (c : Context) (s : DNP3_Segment) : Context :=
  mkContext (src c) (dst c) s (tfun c) (tfun_pos c) (buf c) (n c).

Definition set_addr (c : Context) (s d : Z) : Context :=
  mkContext s d (last_segment c) (tfun c) (tfun_pos c) (buf c) (n c).

(** ** Faults: the ways the C program stops *)

(** One fault for each assertion on the dissector's own state and for
    each read or loop that could go wrong.  The assertions on what the
    parser library hands back have no fault here, its results being
    taken as given: [copy != NULL] and [copy->payload != NULL] of
    [copy_segment], [ttok_values != NULL] of [act_ttok],
    [ctx->tfun != NULL] of [init_tfun], and [r->ast != NULL] in
    [process_transport_payload], [process_link_frame] and
    [dnp3_dissect_feed]. *)
Inductive Fault :=
| assert_ttok_index          (* act_ttok: p->ast->index >= ttok_pos *)
| ttok_values_out_of_range   (* act_ttok reads past the token array *)
| null_segment_deref         (* act_series reads x->len of a NULL value *)
| assert_tfun_accepts        (* feed_tfun: r != NULL *)
| assert_tfun_null           (* init_tfun: ctx->tfun == NULL *)
| null_suspended_parser      (* h_parse_chunk on a NULL parser *)
| assert_finish_result       (* reset_tfun: r != NULL *)
| assert_no_stuck_results    (* reset_tfun: r->ast == NULL *)
| assert_bit_length          (* process_transport_segment: bit_length%8 == 0 *)
| assert_consumed            (* process_transport_segment: consumed > 0 *)
| assert_segment_len         (* save_last_segment: len <= sizeof(...) *)
| loop_fuel.                 (* iteration bound of the model exhausted *)

Inductive LogMsg :=
| log_context_overflow (s d n : Z)
| log_alloc_failed
| log_buf_overflow (n l : Z)
| log_confirmed_unsupported.

(** ** Tokens *)

Definition tok_A : ascii := "A".
Definition tok_Z : ascii := "Z".
Definition tok_pls : ascii := "+".
Definition tok_equ : ascii := "=".
Definition tok_gap : ascii := "!".
Definition tok_orphan : ascii := "_".

(** [memcmp(a, b, k) == 0] *)
Fixpoint memcmp_eq (a b : list byte) (k : nat) : bool :=
  match k with
  | O => true
  | S k' =>
      match a, b with
      | x :: a', y :: b' => Byte.eqb x y && memcmp_eq a' b' k'
      | _, _ => false
      end
  end.

(** [segment_equal].  The test [a->payload == b->payload] adds nothing
    to the comparison of the bytes: equal pointers hold equal bytes, and
    two NULL payloads come with [len = 0]. *)
Definition segment_equal (a b : DNP3_Segment) : bool :=
  Bool.eqb (fir a) (fir b) &&
  Bool.eqb (fin a) (fin b) &&
  (seq a =? seq b) &&
  (len a =? len b) &&
  memcmp_eq (payload a) (payload b) (Z.to_nat (len a)).

(** [transport_tokens]: the [n] tokens written to [p], and the array [t]:
    the segment at [t[0]] and the NULL written at [t[1]].  [last] is
    [None] for a NULL pointer. *)
Definition transport_tokens (seg : DNP3_Segment) (last : option DNP3_Segment)
  : list ascii * list SegTok :=
  let first :=
    if fir seg then tok_A
    else match last with
         | Some l =>
             if segment_equal seg l then tok_equ
             else if seq seg =? (seq l + 1) mod 64 then tok_pls
             else tok_gap
         | None => tok_orphan
         end in
  if fin seg then ([first; tok_Z], [Some seg; None])
  else ([first], [Some seg; None]).

(** ** Events and the execution monad *)

Section Dissect.

(** The application-layer parser, the segment parser and the build-time
    constants come from outside [dissect.c]. *)
Variable DNP3_Fragment : Type.

(** Result of [h_parse(dnp3_p_app_message, ...)]: an error token or a
    fragment ([H_ISERR(r->ast->token_type)]). *)
Inductive AppAst :=
| app_ast_error (token_type : Z)
| app_ast_fragment (f : DNP3_Fragment).

Variable dnp3_p_app_message : list byte -> option AppAst.
Variable dnp3_p_transport_segment : list byte -> option DNP3_Segment.
Variable CTXMAX : nat.
Variable BUFLEN : Z.
(** [sizeof(ctx->last_segment_payload)] *)
Variable SEGMAX : Z.

(** Modelled from the spec: the hooks ([hook_link_frame],
    [hook_transport_segment], ...) are declared outside [dissect.c];
    section 6 lists the events they hand to the sink.  [log_error] stands
    for the calls of [error(...)]. *)
Inductive Event :=
| link_frame (f : DNP3_Frame) (raw : list byte)
| transport_reject
| transport_segment (s : DNP3_Segment)
| transport_payload (t : list byte)
| app_fragment (f : DNP3_Fragment) (raw : list byte)
| app_error (token_type : Z)
| app_reject
| log_error (msg : LogMsg).

(** A run ends with a value or at a fault; either way it leaves the
    events emitted so far. *)
Inductive M (A : Type) :=
| Ok (a : A) (tr : list Event)
| Crash (f : Fault) (tr : list Event).

Arguments Ok {A} a tr.
Arguments Crash {A} f tr.

Definition ret {A} (a : A) : M A := Ok a [].

Definition bind {A B} (m : M A) (k : A -> M B) : M B :=
  match m with
  | Ok a tr =>
      match k a with
      | Ok b tr' => Ok b (tr ++ tr')
      | Crash f tr' => Crash f (tr ++ tr')
      end
  | Crash f tr => Crash f tr
  end.

Definition emit (e : Event) : M unit := Ok tt [e].
Definition abort {A} (f : Fault) : M A := Crash f [].
Definition assert (b : bool) (f : Fault) : M unit :=
  if b then ret tt else abort f.

Definition trace {A} (m : M A) : list Event :=
  match m with Ok _ tr => tr | Crash _ tr => tr end.

Notation "x <- m ;; k" := (bind m (fun x => k))
  (at level 61, m at next level, right associativity).
Notation "m ;;; k" := (bind m (fun _ => k))
  (at level 61, right associativity).

(** ** Semantic actions *)

(** [copy_segment]: a copy in the arena, NULL for NULL.  The arena is
    taken to supply the memory: the two assertions on the results of
    [h_arena_malloc] have no counterpart here. *)
Definition copy_segment (segment : SegTok) : SegTok := segment.

(** [act_ttok]: the value of an [A] or [+] token is looked up in the
    token array the current [feed_tfun] call installed in the globals
    [ttok_values] and [ttok_pos], passed here as arguments.  Reading past
    the two entries of the array is a fault. *)
Definition act_ttok (ttok_values : list SegTok) (ttok_pos : Z) (index : Z)
  : M SegTok :=
  assert (ttok_pos <=? index) assert_ttok_index ;;;
  match nth_error ttok_values (Z.to_nat (index - ttok_pos)) with
  | Some v => ret (copy_segment v)
  | None => abort ttok_values_out_of_range
  end.

(** The two loops of [act_series]: every value is dereferenced. *)
Fixpoint series_payload (xs : list SegTok) : M (list byte) :=
  match xs with
  | [] => ret []
  | None :: _ => abort null_segment_deref
  | Some x :: xs' => t <- series_payload xs' ;; ret (payload x ++ t)
  end.

(** [act_series]: [used] is [p->ast->seq->used], 3 when the closing [Z]
    is present and 2 when the closing token was ignored. *)
Definition act_series (x : SegTok) (xs : list SegTok) (used : nat)
  : M (option (list byte)) :=
  if (used <? 3)%nat then ret None
  else t <- series_payload (x :: xs) ;; ret (Some t).

(** ** The recognizer

    The grammar of [init] and the engine that runs it.  The character
    sets are those of [init]; the engine functions stand for the parser
    library. *)

Definition in_charset (c : ascii) (set : string) : bool :=
  existsb (Ascii.eqb c) (list_ascii_of_string set).

Definition notAZpe (c : ascii) : bool := negb (in_charset c "AZ+=").
Definition notA (c : ascii) : bool := negb (in_charset c "A").

(** Modelled from the spec: the parser library's engine, at the end of a
    series.  On lookahead [c], [end -> Z] keeps the token (three fields)
    and [end -> ignore(notAZpe)] drops it (two fields); [act_series] runs
    when the series is reduced. *)
Definition lr_close (x : SegTok) (xs : list SegTok) (c : ascii)
  : M LREngine :=
  if Ascii.eqb c tok_Z then
    v <- act_series x xs 3 ;; ret (lr_success v)
  else if notAZpe c then
    v <- act_series x xs 2 ;; ret (lr_success v)
  else ret lr_failure.

(** Modelled from the spec: the parser library's engine on one token [c]
    at absolute position [index].  [ttok] actions run as soon as their
    token is read. *)
Definition lr_step (ttok_values : list SegTok) (ttok_pos : Z)
  (e : LREngine) (index : Z) (c : ascii) : M LREngine :=
  match e with
  | lr_start =>
      if Ascii.eqb c tok_A then
        v <- act_ttok ttok_values ttok_pos index ;; ret (lr_A1 v)
      else if notA c then ret (lr_success None)
      else ret lr_failure
  | lr_A1 x =>
      if Ascii.eqb c tok_A then
        v <- act_ttok ttok_values ttok_pos index ;; ret (lr_A1 v)
      else if Ascii.eqb c tok_pls then
        v <- act_ttok ttok_values ttok_pos index ;; ret (lr_pe x [v])
      else if Ascii.eqb c tok_equ then ret (lr_pe x [])
      else lr_close x [] c
  | lr_pe x xs =>
      if Ascii.eqb c tok_pls then
        v <- act_ttok ttok_values ttok_pos index ;; ret (lr_pe x (xs ++ [v]))
      else if Ascii.eqb c tok_equ then ret (lr_pe x xs)
      else lr_close x xs c
  | lr_success v => ret (lr_success v)
  | lr_failure => ret lr_failure
  end.

(** Modelled from the spec: the engine has stopped. *)
Definition lr_done (e : LREngine) : bool :=
  match e with
  | lr_success _ | lr_failure => true
  | _ => false
  end.

(** Modelled from the spec: the parser library's engine at the end of
    input.  No position of the grammar is accepting before a top-level
    alternative is complete. *)
Definition lr_eof (e : LREngine) : LREngine :=
  match e with
  | lr_success v => lr_success v
  | _ => lr_failure
  end.

(** Modelled from the spec: [h_parse_start] of the parser library. *)
Definition h_parse_start : HSuspendedParser := mkSuspended lr_start 0.

(** Modelled from the spec: [h_parse_chunk] of the parser library.  It
    runs the engine over the chunk until it stops or the chunk is used
    up; a token that has no action is not consumed. *)
Fixpoint h_parse_chunk (ttok_values : list SegTok) (ttok_pos : Z)
  (s : HSuspendedParser) (input : list ascii) : M HSuspendedParser :=
  match input with
  | [] => ret s
  | c :: rest =>
      if lr_done (engine s) then ret s
      else
        e' <- lr_step ttok_values ttok_pos (engine s) (pos s) c ;;
        match e' with
        | lr_failure => ret (mkSuspended e' (pos s))
        | _ => h_parse_chunk ttok_values ttok_pos
                 (mkSuspended e' (size_t (pos s + 1))) rest
        end
  end.

(** Modelled from the spec: [h_parse_finish] of the parser library.  It
    signals the end of input and returns the result, NULL unless the
    start symbol was reduced; [bit_length] counts the consumed input. *)
Definition h_parse_finish (s : HSuspendedParser) : option HParseResult :=
  match lr_eof (engine s) with
  | lr_success v => Some (mkResult v (pos s * 8))
  | _ => None
  end.

(** ** Driving the recognizer (feed_tfun and friends) *)

Definition reset_tfun (ctx : Context) : M Context :=
  match tfun ctx with
  | Some s =>
      match h_parse_finish s with
      | None => abort assert_finish_result
      | Some r =>
          assert (match ast r with None => true | Some _ => false end)
                 assert_no_stuck_results ;;;
          ret (set_tfun ctx None)
      end
  | None => ret ctx
  end.

(** [init_tfun]: [h_parse_start] is taken to return a parser, so that
    [assert(ctx->tfun != NULL)] has no counterpart here. *)
Definition init_tfun (ctx : Context) : M Context :=
  assert (match tfun ctx with None => true | Some _ => false end)
         assert_tfun_null ;;;
  ret (set_tfun_pos (set_tfun ctx (Some h_parse_start)) 0).

(** [feed_tfun(ctx, buf, tok, offs, n)]: tokens [buf[offs..n)]. *)
Definition feed_tfun (ctx : Context) (buf : list ascii) (tok : list SegTok)
  (offs n : Z) : M (Context * option HParseResult) :=
  ctx <- (match tfun ctx with
          | None => init_tfun ctx
          | Some _ => ret ctx
          end) ;;
  match tfun ctx with
  | None => abort null_suspended_parser
  | Some s =>
      let ttok_values := skipn (Z.to_nat offs) tok in
      let ttok_pos := size_t (tfun_pos ctx + offs) in
      s' <- h_parse_chunk ttok_values ttok_pos s
              (firstn (Z.to_nat (size_t (n - offs)))
                      (skipn (Z.to_nat offs) buf)) ;;
      if lr_done (engine s') then
        match h_parse_finish s' with
        | None => abort assert_tfun_accepts
        | Some r => ret (set_tfun ctx None, Some r)
        end
      else ret (set_tfun ctx (Some s'), None)
  end.

(** Outcome of the application parser on a reassembled payload. *)
Definition process_transport_payload (ctx : Context) (t : list byte)
  : M Context :=
  emit (transport_payload t) ;;;
  match dnp3_p_app_message t with
  | Some (app_ast_error ty) => emit (app_error ty)
  | Some (app_ast_fragment f) =>
      emit (app_fragment f (firstn (Z.to_nat (n ctx)) (buf ctx)))
  | None => emit app_reject
  end ;;;
  ret (set_n ctx 0).

Definition save_last_segment (ctx : Context) (segment : DNP3_Segment)
  : M Context :=
  assert (len segment <=? SEGMAX) assert_segment_len ;;;
  ret (set_last_segment ctx segment).

(** The [while] loop of [process_transport_segment]; [fuel] bounds the
    number of iterations.  A result reached within the bound does not
    depend on it ([tfun_loop_fuel]), and between segments two iterations
    are enough ([pts_in_bound]). *)
Fixpoint tfun_loop (fuel : nat) (ctx : Context) (buf : list ascii)
  (tok : list SegTok) (m n : Z) : M Context :=
  if m <? n then
    match fuel with
    | O => abort loop_fuel
    | S fuel' =>
        cr <- feed_tfun ctx buf tok m n ;;
        match cr with
        | (ctx, None) => ret ctx
        | (ctx, Some r) =>
            assert (bit_length r mod 8 =? 0) assert_bit_length ;;;
            let consumed := size_t (bit_length r / 8 - tfun_pos ctx) in
            assert (0 <? consumed) assert_consumed ;;;
            ctx <- (match ast r with
                    | Some b => process_transport_payload ctx b
                    | None => ret ctx
                    end) ;;
            tfun_loop fuel' (set_n ctx 0) buf tok (size_t (m + consumed)) n
        end
    end
  else ret ctx.

Definition process_transport_segment (ctx : Context) (segment : DNP3_Segment)
  : M Context :=
  emit (transport_segment segment) ;;;
  let '(buf, tok) := transport_tokens segment (Some (last_segment ctx)) in
  let n := Z.of_nat (List.length buf) in
  ctx <- save_last_segment ctx segment ;;
  ctx <- tfun_loop 2 ctx buf tok 0 n ;;
  ret (set_tfun_pos ctx (size_t (tfun_pos ctx + n))).

(** ** The context table (lookup_context) *)

(** What the [for] loop of [lookup_context] leaves behind: the node it
    returned from ([scan_hit]), the node it stopped at because [n] reached
    [CTXMAX] ([scan_reuse]), or the end of the list ([scan_end]).  [pre]
    and [post] are the nodes before and after it. *)
Inductive Scan :=
| scan_hit (pre : list Context) (ctx : Context) (post : list Context)
| scan_reuse (pre : list Context) (ctx : Context) (post : list Context)
| scan_end.

Fixpoint scan_contexts (l : list Context) (s d : Z) (n : nat) : Scan :=
  match l with
  | [] => scan_end
  | ctx :: rest =>
      if (src ctx =? s) && (dst ctx =? d) then scan_hit [] ctx rest
      else if (CTXMAX <=? S n)%nat then scan_reuse [] ctx rest
      else match scan_contexts rest s d (S n) with
           | scan_hit pre c post => scan_hit (ctx :: pre) c post
           | scan_reuse pre c post => scan_reuse (ctx :: pre) c post
           | scan_end => scan_end
           end
  end.

(** [calloc(1, sizeof(struct Context))]: every field zero. *)
Definition calloc_Context : Context :=
  mkContext 0 0 (mkSegment false false 0 []) None 0
            (repeat x00 (Z.to_nat BUFLEN)) 0.

(** The "fill context" block: runs for a fresh and for a reused node. *)
Definition fill_context (ctx : Context) (s d : Z) : M Context :=
  (if 0 <? n ctx
   then emit (log_error (log_context_overflow (src ctx) (dst ctx) (n ctx)))
   else ret tt) ;;;
  ctx <- reset_tfun (set_n ctx 0) ;;
  ret (set_addr ctx s d).

(** [lookup_context]: the returned node (NULL when [calloc] fails) and the
    other nodes of the table in order; the table itself is the returned
    node, when there is one, followed by the others. *)
Definition lookup_context (calloc_ok : bool) (contexts : list Context)
  (s d : Z) : M (option Context * list Context) :=
  match scan_contexts contexts s d 0 with
  | scan_hit pre ctx post => ret (Some ctx, pre ++ post)
  | scan_reuse pre ctx post =>
      ctx <- fill_context ctx s d ;; ret (Some ctx, pre ++ post)
  | scan_end =>
      if calloc_ok then
        ctx <- fill_context calloc_Context s d ;; ret (Some ctx, contexts)
      else ret (None, contexts)
  end.

Definition table (r : option Context * list Context) : list Context :=
  match r with
  | (Some ctx, others) => ctx :: others
  | (None, others) => others
  end.

(** ** The pipeline (process_link_frame) *)

(** [memcpy(ctx->buf + ctx->n, buf, len)] on the array [ctx->buf]. *)
Definition memcpy_at (dest : list byte) (at_ : Z) (data : list byte)
  : list byte :=
  firstn (Z.to_nat at_) dest ++ data ++
  skipn (Z.to_nat at_ + List.length data) dest.

Definition append_raw (ctx : Context) (raw : list byte) : M Context :=
  let len := Z.of_nat (List.length raw) in
  if size_t (n ctx + len) <=? BUFLEN then
    ret (set_n (set_buf ctx (memcpy_at (buf ctx) (n ctx) raw))
               (size_t (n ctx + len)))
  else
    emit (log_error (log_buf_overflow (n ctx) len)) ;;; ret ctx.

Definition process_link_frame (calloc_ok : bool) (contexts : list Context)
  (frame : DNP3_Frame) (raw : list byte) : M (list Context) :=
  emit (link_frame frame raw) ;;;
  match func frame with
  | DNP3_UNCONFIRMED_USER_DATA =>
      match frame_payload frame with
      | None => ret contexts
      | Some pl =>
          r <- lookup_context calloc_ok contexts
                 (source frame) (destination frame) ;;
          match r with
          | (None, others) =>
              emit (log_error log_alloc_failed) ;;; ret others
          | (Some ctx, others) =>
              match dnp3_p_transport_segment pl with
              | None => emit transport_reject ;;; ret (ctx :: others)
              | Some segment =>
                  ctx <- append_raw ctx raw ;;
                  ctx <- process_transport_segment ctx segment ;;
                  ret (ctx :: others)
              end
          end
      end
  | DNP3_CONFIRMED_USER_DATA =>
      match frame_payload frame with
      | None => ret contexts
      | Some _ =>
          emit (log_error log_confirmed_unsupported) ;;; ret contexts
      end
  | DNP3_OTHER_FUNC _ => ret contexts
  end.

(** One call of [process_link_frame] by [dnp3_dissect_feed]: the frame
    the synchronizer found, its raw bytes, and the outcome of the
    allocation the call may need. *)
Record Arrival := mkArrival {
  arr_frame : DNP3_Frame;
  arr_raw : list byte;
  arr_calloc_ok : bool
}.

(** The calls of [process_link_frame] that [dnp3_dissect_feed] makes, in
    order, from a given table.  [dnp3_dissect] starts with the empty
    table. *)
Fixpoint dissect (contexts : list Context) (arrivals : list Arrival)
  : M (list Context) :=
  match arrivals with
  | [] => ret contexts
  | a :: rest =>
      contexts <- process_link_frame (arr_calloc_ok a) contexts
                    (arr_frame a) (arr_raw a) ;;
      dissect contexts rest
  end.

(** Segments fed to one context in a row. *)
Fixpoint feed_segments (ctx : Context) (segments : list DNP3_Segment)
  : M Context :=
  match segments with
  | [] => ret ctx
  | s :: rest =>
      ctx <- process_transport_segment ctx s ;; feed_segments ctx rest
  end.

(** The reassembled payloads announced in a trace, in order. *)
Fixpoint payloads (tr : list Event) : list (list byte) :=
  match tr with
  | [] => []
  | transport_payload t :: tr' => t :: payloads tr'
  | _ :: tr' => payloads tr'
  end.

(** ** The plugin (dnp3_dissect_feed, dnp3_dissect) *)

(** The link-layer parser comes from outside [dissect.c]: for an input,
    the frame at its start and the [bit_length] of the result, or NULL. *)
Variable dnp3_p_link_frame : list byte -> option (DNP3_Frame * Z).

(** [dnp3_p_synced_frame], the rule [sync] of [init]:
    [h_choice(dnp3_p_link_frame, h_right(h_uint8(), sync))].  The
    combinators are the parser library's: [h_choice] takes the first
    alternative that parses, [h_uint8] takes one byte, and [h_right]
    keeps the result of its second parser; [bit_length] counts all the
    input taken, the skipped bytes included. *)
Fixpoint dnp3_p_synced_frame (input : list byte) : option (DNP3_Frame * Z) :=
  match dnp3_p_link_frame input with
  | Some r => Some r
  | None =>
      match input with
      | [] => None
      | _ :: rest =>
          match dnp3_p_synced_frame rest with
          | Some (frame, bit_length) => Some (frame, 8 + bit_length)
          | None => None
          end
      end
  end.

(** Modelled from the spec: [DissectPlugin] with its [Plugin] base; the
    plugin interface and [dissect.h] are not part of the sources, and
    the fields are those [dissect.c] reads and writes.  [base.buf] points
    into the array [buf] of [BUFLEN] bytes and is kept as an offset;
    [out] and [env] are only stored. *)
Record DissectPlugin := mkPlugin {
  base_buf : Z;                 (* base.buf - buf *)
  base_bufsize : Z;             (* base.bufsize *)
  plugin_buf : list byte;       (* buf *)
  contexts : list Context
}.

(** The [l] bytes at offset [p] of an array. *)
Definition bytes_at (mem : list byte) (p l : Z) : list byte :=
  firstn (Z.to_nat l) (skipn (Z.to_nat p) mem).

(** The [while] loop of [dnp3_dissect_feed] on the array [mem], with [p]
    for [base->buf]; it returns the table and [m].  The parser's result
    carries its frame, so that [assert(r->ast)] holds by type.  [k]
    numbers the frames of the call for [calloc_ok], which tells whether
    an allocation during the [k]-th frame succeeds; [fuel] bounds the
    number of iterations.  A (pointer, length) pair of bytes is the list
    of the bytes, which is exact as long as the parser reports no more
    input than it was given. *)
Fixpoint feed_loop (fuel : nat) (calloc_ok : nat -> bool) (k : nat)
  (ctxs : list Context) (mem : list byte) (p m n : Z)
  : M (list Context * Z) :=
  match dnp3_p_synced_frame (bytes_at mem (p + m) (size_t (n - m))) with
  | None => ret (ctxs, m)
  | Some (frame, bit_length) =>
      match fuel with
      | O => abort loop_fuel
      | S fuel' =>
          let consumed := size_t (bit_length / 8) in
          assert (bit_length mod 8 =? 0) assert_bit_length ;;;
          assert (0 <? consumed) assert_consumed ;;;
          ctxs <- process_link_frame (calloc_ok k) ctxs frame
                    (bytes_at mem (p + m) consumed) ;;
          feed_loop fuel' calloc_ok (S k) ctxs mem p
                    (size_t (m + consumed)) n
      end
  end.

(** [dnp3_dissect_feed]: the new state of the plugin; the C function
    returns 0 on every path. *)
Definition dnp3_dissect_feed (fuel : nat) (calloc_ok : nat -> bool)
  (self : DissectPlugin) (n : Z) : M DissectPlugin :=
  r <- feed_loop fuel calloc_ok 0 (contexts self) (plugin_buf self)
         (base_buf self) 0 n ;;
  let '(ctxs, m) := r in
  let n := size_t (n - m) in
  ret (mkPlugin n (size_t (BUFLEN - n))
         (memcpy_at (plugin_buf self) 0
            (bytes_at (plugin_buf self) (base_buf self + m) n))
         ctxs).

(** [dnp3_dissect]: the new plugin, NULL when [malloc] fails.  [mem]
    stands for the bytes of the allocated array, which are not
    initialized; [sizeof(plugin->buf)] is [BUFLEN], the size that
    [dnp3_dissect_feed] works with. *)
Definition dnp3_dissect (malloc_ok : bool) (mem : list byte)
  : option DissectPlugin :=
  if malloc_ok then Some (mkPlugin 0 BUFLEN mem []) else None.

(** * Vocabulary of the properties *)

(** ** Positions *)

Definition in_range (p : Z) : Prop := 0 <= p < 2 ^ SIZE_WIDTH.

(** ** The tokenizer as [process_transport_segment] calls it

    The class of the first token of a segment against the last segment
    of its context. *)

Inductive TokClass := cls_A | cls_equ | cls_pls | cls_gap.

Definition classify (seg last : DNP3_Segment) : TokClass :=
  if fir seg then cls_A
  else if segment_equal seg last then cls_equ
  else if seq seg =? (seq last + 1) mod 64 then cls_pls
  else cls_gap.

Definition token_of (c : TokClass) : ascii :=
  match c with
  | cls_A => tok_A
  | cls_equ => tok_equ
  | cls_pls => tok_pls
  | cls_gap => tok_gap
  end.

(** ** The recognizer between two segments

    No recognizer ([idle]), or one that has read first segments and kept
    the last of them, [x] ([in_A1]), or one that after them has read
    continuations [xs] and retransmissions ([in_pe]). *)

Inductive TfunView :=
| idle
| in_A1 (x : DNP3_Segment)
| in_pe (x : DNP3_Segment) (xs : list DNP3_Segment).

(** [tfun_state ctx st]: the context shows the view [st], and the
    position of its recognizer is [tfun_pos]. *)
Inductive tfun_state (ctx : Context) : TfunView -> Prop :=
| ts_idle : tfun ctx = None -> tfun_state ctx idle
| ts_A1 x :
    tfun ctx = Some (mkSuspended (lr_A1 (Some x)) (tfun_pos ctx)) ->
    in_range (tfun_pos ctx) -> tfun_state ctx (in_A1 x)
| ts_pe x xs :
    tfun ctx =
      Some (mkSuspended (lr_pe (Some x) (map Some xs)) (tfun_pos ctx)) ->
    in_range (tfun_pos ctx) -> tfun_state ctx (in_pe x xs).

(** The invariant of a context between segments. *)
Definition ctx_inv (ctx : Context) : Prop := exists st, tfun_state ctx st.

Definition series_bytes (x : DNP3_Segment) (xs : list DNP3_Segment)
  : list byte :=
  payload x ++ List.concat (map payload xs).

(** What one segment does to the recognizer: the view afterwards and the
    results of the alternatives completed on the way, or [None] when the
    recognizer has no action for the first token. *)
Definition tfun_next (st : TfunView) (c : TokClass) (seg : DNP3_Segment)
  : option (TfunView * list (option (list byte))) :=
  let z := fin seg in
  let ignored := Some (idle, if z then [None; None] else [None]) in
  match st, c with
  | idle, cls_A | in_A1 _, cls_A =>
      if z then Some (idle, [Some (series_bytes seg [])])
      else Some (in_A1 seg, [])
  | idle, _ => ignored
  | in_A1 x, cls_pls =>
      if z then Some (idle, [Some (series_bytes x [seg])])
      else Some (in_pe x [seg], [])
  | in_A1 x, cls_equ =>
      if z then Some (idle, [Some (series_bytes x [])])
      else Some (in_pe x [], [])
  | in_A1 _, cls_gap => ignored
  | in_pe _ _, cls_A => None
  | in_pe x xs, cls_pls =>
      if z then Some (idle, [Some (series_bytes x (xs ++ [seg]))])
      else Some (in_pe x (xs ++ [seg]), [])
  | in_pe x xs, cls_equ =>
      if z then Some (idle, [Some (series_bytes x xs)])
      else Some (in_pe x xs, [])
  | in_pe _ _, cls_gap => ignored
  end.

Fixpoint somes {A} (l : list (option A)) : list A :=
  match l with
  | [] => []
  | Some a :: l' => a :: somes l'
  | None :: l' => somes l'
  end.

(** ** The position of a context *)

(** [process_transport_segment] starts a recognizer during the call: none
    was in progress on entry, or the first token of the segment closes
    the open series and the token [Z] follows, for which [feed_tfun]
    calls [init_tfun] again. *)
Definition restarts (ctx : Context) (seg : DNP3_Segment) : bool :=
  match tfun ctx with
  | None => true
  | Some _ =>
      fin seg &&
      notAZpe (hd tok_Z (fst (transport_tokens seg (Some (last_segment ctx)))))
  end.

(** ** One call of [feed_tfun] *)

(** The engine and position a call of [feed_tfun] starts from: those of
    the suspended parser, or a fresh one. *)
Definition engine_at (ctx : Context) (e : LREngine) (p0 : Z) : Prop :=
  match tfun ctx with
  | None => e = lr_start /\ p0 = 0
  | Some s => s = mkSuspended e p0 /\ tfun_pos ctx = p0 /\ in_range p0
  end.

Definition with_tfun (ctx : Context) (t : option HSuspendedParser) (p0 : Z)
  : Context :=
  mkContext (src ctx) (dst ctx) (last_segment ctx) t p0 (buf ctx) (n ctx).

(** The engine on one token whose value is [v], positions left out. *)
Definition eng1 (v : SegTok) (e : LREngine) (c : ascii) : M LREngine :=
  lr_step [v] 0 e 0 c.

(** The body of the loop after a completed alternative. *)
Definition complete (ctx : Context) (a : option (list byte)) : M Context :=
  ctx <- match a with
         | Some b => process_transport_payload ctx b
         | None => ret ctx
         end ;;
  ret (set_n ctx 0).

Definition out_of_fuel {A} (m : M A) : bool :=
  match m with
  | Crash loop_fuel _ => true
  | _ => false
  end.

(** ** The grammar of [init]

    The grammar, rule by rule, over tokens paired with the value
    [act_ttok] gives them.  [h_right(A, A1)] keeps the value of the inner
    [A1]; [h_ignore] drops its field from the enclosing sequence, so the
    series has three fields when it ends in [Z] and two otherwise. *)

(** [A1 -> A A1 | A] *)
Inductive g_A1 : list (ascii * SegTok) -> SegTok -> Prop :=
| g_A1_last v : g_A1 [(tok_A, v)] v
| g_A1_right v w x : g_A1 w x -> g_A1 ((tok_A, v) :: w) x.

(** [pe -> many(pls | ignore(equ))] *)
Inductive g_pe : list (ascii * SegTok) -> list SegTok -> Prop :=
| g_pe_nil : g_pe [] []
| g_pe_pls v w xs : g_pe w xs -> g_pe ((tok_pls, v) :: w) (v :: xs)
| g_pe_equ v w xs : g_pe w xs -> g_pe ((tok_equ, v) :: w) xs.

(** [end -> Z | ignore(notAZpe)], with the number of fields it adds. *)
Inductive g_end : list (ascii * SegTok) -> nat -> Prop :=
| g_end_Z v : g_end [(tok_Z, v)] 1
| g_end_other c v : notAZpe c = true -> g_end [(c, v)] 0.

(** [tfun -> series | ignore(notA)], with the value of the alternative;
    [series -> A1 pe end] under [act_series]. *)
Inductive g_tfun : list (ascii * SegTok) -> M (option (list byte)) -> Prop :=
| g_tfun_series w1 w2 w3 x xs k :
    g_A1 w1 x -> g_pe w2 xs -> g_end w3 k ->
    g_tfun (w1 ++ w2 ++ w3) (act_series x xs (2 + k))
| g_tfun_notA c v : notA c = true -> g_tfun [(c, v)] (ret None).

(** The engine over a token string. *)
Fixpoint eng_run (e : LREngine) (w : list (ascii * SegTok)) : M LREngine :=
  match w with
  | [] => ret e
  | (c, v) :: w' => e' <- eng1 v e c ;; eng_run e' w'
  end.

(** The token strings that lead the engine to [e]. *)
Definition leads_to (e : LREngine) (w : list (ascii * SegTok)) : Prop :=
  match e with
  | lr_start => w = []
  | lr_A1 x => g_A1 w x
  | lr_pe x xs =>
      exists w1 w2, w = w1 ++ w2 /\ w2 <> [] /\ g_A1 w1 x /\ g_pe w2 xs
  | _ => False
  end.

(** ** Segment series and retransmissions *)

(** The segments after [prev] continue its series and close it: each has
    [fir] unset and the next sequence number, and only the last has
    [fin] set. *)
Fixpoint series_tail (prev : DNP3_Segment) (l : list DNP3_Segment) : bool :=
  match l with
  | [] => fin prev
  | s :: l' =>
      negb (fin prev) && negb (fir s) &&
      (seq s =? (seq prev + 1) mod 64) && series_tail s l'
  end.

(** A complete series: a first segment and its tail. *)
Definition complete_series (l : list DNP3_Segment) : bool :=
  match l with
  | [] => false
  | s :: l' => fir s && series_tail s l'
  end.

(** An open series with first segment [x] and continuations [xs]. *)
Definition open_series (st : TfunView) (x : DNP3_Segment)
  (xs : list DNP3_Segment) : Prop :=
  (st = in_A1 x /\ xs = []) \/ st = in_pe x xs.

(** [retransmits l l']: [l'] is [l] with duplicates inserted, each right
    after a segment with [fir] unset and byte-equal to it. *)
Inductive retransmits : list DNP3_Segment -> list DNP3_Segment -> Prop :=
| rt_nil : retransmits [] []
| rt_keep s l l' : retransmits l l' -> retransmits (s :: l) (s :: l')
| rt_dup s d l l' :
    fir s = false -> segment_equal d s = true ->
    retransmits (s :: l) (s :: l') -> retransmits (s :: l) (s :: d :: l').

(** Two contexts the recognizer cannot tell apart. *)
Definition sim (c1 c2 : Context) : Prop :=
  last_segment c1 = last_segment c2 /\
  exists st, tfun_state c1 st /\ tfun_state c2 st.

(** What the transport function may change in a context besides the
    recognizer, its position and the last segment: [n], to zero. *)
Definition framed (c c' : Context) : Prop :=
  src c' = src c /\ dst c' = dst c /\ buf c' = buf c /\
  last_segment c' = last_segment c /\
  (n c' = n c \/ n c' = 0).

(** ** The table *)

Definition key (c : Context) : Z * Z := (src c, dst c).

Definition keys (t : list Context) : list (Z * Z) := map key t.

Definition key_eq_dec (a b : Z * Z) : {a = b} + {a <> b}.
Proof. decide equality; apply Z.eq_dec. Defined.

(** Most-recently-used order: a use moves the pair to the front. *)
Definition touch (l : list (Z * Z)) (k : Z * Z) : list (Z * Z) :=
  k :: remove key_eq_dec k l.

Definition mru (history : list (Z * Z)) : list (Z * Z) :=
  fold_left touch history [].

(** The pair a frame makes [process_link_frame] look up, if any. *)
Definition contact (a : Arrival) : list (Z * Z) :=
  match func (arr_frame a), frame_payload (arr_frame a) with
  | DNP3_UNCONFIRMED_USER_DATA, Some _ =>
      [(source (arr_frame a), destination (arr_frame a))]
  | _, _ => []
  end.

Definition contacts (arrivals : list Arrival) : list (Z * Z) :=
  flat_map contact arrivals.

(** How [process_link_frame] turns the context it looked up, [c], into
    the head of the table, [c']. *)
Definition updated (raw : list byte) (c c' : Context) : Prop :=
  c' = c \/
  exists c1 t1 seg t2,
    append_raw c raw = Ok c1 t1 /\
    process_transport_segment c1 seg = Ok c' t2.

(** ** What a completed alternative hands to the sink *)

(** The event that follows [transport_payload] for the payload [t] of a
    context that has buffered the frames [raw]. *)
Definition sink_event (raw : list byte) (t : list byte) : Event :=
  match dnp3_p_app_message t with
  | Some (app_ast_error ty) => app_error ty
  | Some (app_ast_fragment f) => app_fragment f raw
  | None => app_reject
  end.

(** The same for a context whose buffer [b] is filled up to [k]. *)
Definition app_event (k : Z) (b : list byte) (t : list byte) : Event :=
  sink_event (firstn (Z.to_nat k) b) t.

(** The events of one completed alternative with result [a]. *)
Definition delivery (k : Z) (b : list byte) (a : option (list byte))
  : list Event :=
  match a with
  | Some t => [transport_payload t; app_event k b t]
  | None => []
  end.

(** The recognizer of a context has read a continuation or a
    retransmission of an open series. *)
Definition after_continuation (ctx : Context) : Prop :=
  exists s x xs, tfun ctx = Some s /\ engine s = lr_pe x xs.

(** The error [lookup_context] logs when it drops the buffered bytes
    of a context it reuses. *)
Definition drop_log (c : Context) : list Event :=
  if 0 <? n c
  then [log_error (log_context_overflow (src c) (dst c) (n c))]
  else [].

(** The assertions that can fail between segments. *)
Definition data_fault (f : Fault) : Prop :=
  f = assert_tfun_accepts \/ f = assert_finish_result \/
  f = assert_segment_len.

(** The events of a frame that is not looked up: it is announced, and
    confirmed user data is refused with a logged error. *)
Definition announce (a : Arrival) : list Event :=
  link_frame (arr_frame a) (arr_raw a) ::
  match func (arr_frame a), frame_payload (arr_frame a) with
  | DNP3_CONFIRMED_USER_DATA, Some _ =>
      [log_error log_confirmed_unsupported]
  | _, _ => []
  end.

(** ** The events of one frame *)

Definition is_log (e : Event) : Prop := exists msg, e = log_error msg.

(** What follows the announcement and the logged errors of a frame:
    nothing, or the rejection of its payload, or its segment with what
    the segment delivers. *)
Inductive frame_body : list Event -> Prop :=
| fb_none : frame_body []
| fb_reject : frame_body [transport_reject]
| fb_segment seg k b a :
    frame_body (transport_segment seg :: delivery k b a).

Definition frame_events (f : DNP3_Frame) (raw : list byte)
  (tr : list Event) : Prop :=
  exists logs body,
    tr = link_frame f raw :: logs ++ body /\
    Forall is_log logs /\ frame_body body.

(** ** A fragment and the frames that carried it *)

(** The context has buffered exactly the bytes [acc]. *)
Definition holds (ctx : Context) (acc : list byte) : Prop :=
  n ctx = Z.of_nat (List.length acc) /\
  firstn (List.length acc) (buf ctx) = acc.

(** The frame of [a] is unconfirmed user data from [s] to [d] and its
    payload parses to the segment [seg]. *)
Definition carries (s d : Z) (a : Arrival) (seg : DNP3_Segment) : Prop :=
  func (arr_frame a) = DNP3_UNCONFIRMED_USER_DATA /\
  source (arr_frame a) = s /\ destination (arr_frame a) = d /\
  exists pl, frame_payload (arr_frame a) = Some pl /\
             dnp3_p_transport_segment pl = Some seg.

(** ** The plugin and its host *)

(** The link-layer parser takes whole bytes, at least one and no more
    than it was given. *)
Definition link_well_formed : Prop :=
  forall input f bl,
    dnp3_p_link_frame input = Some (f, bl) ->
    0 < bl <= 8 * Z.of_nat (List.length input) /\ bl mod 8 = 0.

(** The synchronizer reports no more input than it was given. *)
Definition sync_bounded : Prop :=
  forall input f bl,
    dnp3_p_synced_frame input = Some (f, bl) ->
    0 <= bl <= 8 * Z.of_nat (List.length input).

(** [base.buf] and [base.bufsize] describe the free end of the array. *)
Definition plugin_inv (p : DissectPlugin) : Prop :=
  0 <= base_buf p /\ 0 <= base_bufsize p /\
  base_buf p + base_bufsize p = BUFLEN /\
  List.length (plugin_buf p) = Z.to_nat BUFLEN.

(** The host's side of the interface: it puts its input at [base.buf],
    at most [base.bufsize] bytes, and calls [feed] with their number. *)
Definition host_write (p : DissectPlugin) (data : list byte)
  : DissectPlugin :=
  mkPlugin (base_buf p) (base_bufsize p)
           (memcpy_at (plugin_buf p) (base_buf p) data) (contexts p).

Inductive reachable : DissectPlugin -> Prop :=
| reach_new mem p :
    List.length mem = Z.to_nat BUFLEN ->
    dnp3_dissect true mem = Some p ->
    reachable p
| reach_feed p data fuel ok p' tr :
    reachable p ->
    Z.of_nat (List.length data) <= base_bufsize p ->
    dnp3_dissect_feed fuel ok (host_write p data)
      (Z.of_nat (List.length data)) = Ok p' tr ->
    reachable p'.

(** Two outcomes of [dnp3_dissect_feed] that differ at most in the
    bytes of the array behind the ones kept. *)
Definition same_outcome (r1 r2 : M DissectPlugin) : Prop :=
  match r1, r2 with
  | Ok q1 t1, Ok q2 t2 =>
      t1 = t2 /\ contexts q1 = contexts q2 /\
      base_buf q1 = base_buf q2 /\ base_bufsize q1 = base_bufsize q2 /\
      bytes_at (plugin_buf q1) 0 (base_buf q1) =
      bytes_at (plugin_buf q2) 0 (base_buf q2)
  | Crash f1 t1, Crash f2 t2 => f1 = f2 /\ t1 = t2
  | _, _ => False
  end.

(** * Properties *)

(** ** Arithmetic of [size_t] *)

Lemma size_t_range x : in_range (size_t x).
Proof. unfold in_range, size_t. apply Z.mod_pos_bound. reflexivity. Qed.

Lemma size_t_small x : in_range x -> size_t x = x.
Proof. unfold in_range, size_t. intros H. now apply Z.mod_small. Qed.

Lemma size_t_idem x : size_t (size_t x) = size_t x.
Proof. apply size_t_small, size_t_range. Qed.

Lemma size_t_1 : size_t 1 = 1.
Proof. reflexivity. Qed.

Lemma size_t_2 : size_t 2 = 2.
Proof. reflexivity. Qed.

Lemma size_t_add_l x y : size_t (size_t x + y) = size_t (x + y).
Proof. unfold size_t. now rewrite Zplus_mod_idemp_l. Qed.

Lemma bit_length_whole p : ((p * 8) mod 8 =? 0) = true.
Proof. rewrite Z_mod_mult. reflexivity. Qed.

Lemma consumed_one p : size_t (size_t (p + 1) * 8 / 8 - p) = 1.
Proof.
  rewrite Z.div_mul by discriminate. unfold size_t.
  rewrite Zminus_mod_idemp_l. replace (p + 1 - p) with 1 by lia. reflexivity.
Qed.

Lemma consumed_two p : size_t (size_t (size_t (p + 1) + 1) * 8 / 8 - p) = 2.
Proof.
  rewrite Z.div_mul by discriminate. rewrite size_t_add_l. unfold size_t.
  rewrite Zminus_mod_idemp_l. replace (p + 1 + 1 - p) with 2 by lia.
  reflexivity.
Qed.

(** ** The monad *)

Lemma bind_Ok_inv {A B} (m : M A) (k : A -> M B) b tr :
  bind m k = Ok b tr ->
  exists a t1 t2, m = Ok a t1 /\ k a = Ok b t2 /\ tr = t1 ++ t2.
Proof.
  unfold bind. destruct m as [a t1|f t1]; [|discriminate].
  destruct (k a) as [b' t2|f t2] eqn:E; [|discriminate].
  intros [= <- <-]. now exists a, t1, t2.
Qed.

Lemma bind_Ok_l {A B} (m : M A) (k : A -> M B) a t :
  m = Ok a t ->
  bind m k = match k a with
             | Ok b t' => Ok b (t ++ t')
             | Crash f t' => Crash f (t ++ t')
             end.
Proof. intros ->. reflexivity. Qed.

Lemma bind_ret_l {A B} (a : A) (k : A -> M B) : bind (ret a) k = k a.
Proof. unfold bind, ret. now destruct (k a). Qed.

Lemma bind_Ok_nil {A B} (a : A) (k : A -> M B) : bind (Ok a []) k = k a.
Proof. apply bind_ret_l. Qed.

Lemma bind_ret_r {A} (m : M A) : bind m ret = m.
Proof. destruct m; cbn; now rewrite ?app_nil_r. Qed.

Lemma bind_ret_l_r {A} (m : M A) : (a <- m ;; ret a) = m.
Proof. apply bind_ret_r. Qed.

Lemma payloads_app t1 t2 : payloads (t1 ++ t2) = payloads t1 ++ payloads t2.
Proof.
  induction t1 as [|e t1 IH]; [reflexivity|].
  destruct e; simpl; now rewrite ?IH.
Qed.

Lemma trace_bind_Ok {A B} (m : M A) (k : A -> M B) a t :
  m = Ok a t -> trace (bind m k) = t ++ trace (k a).
Proof. intros ->. unfold bind. now destruct (k a). Qed.

(** ** Abstract view of the recognizer between segments *)

Lemma transport_tokens_classify seg last :
  transport_tokens seg (Some last) =
  (token_of (classify seg last) :: (if fin seg then [tok_Z] else []),
   [Some seg; None]).
Proof.
  unfold transport_tokens, classify.
  destruct (fir seg), (segment_equal seg last),
    (seq seg =? (seq last + 1) mod 64), (fin seg); reflexivity.
Qed.

Lemma series_payload_Some xs :
  series_payload (map Some xs) = Ok (List.concat (map payload xs)) [].
Proof.
  induction xs as [|x xs IH]; [reflexivity|].
  simpl. rewrite IH. reflexivity.
Qed.

Lemma act_ttok_here v tl p : act_ttok (v :: tl) p p = Ok v [].
Proof.
  unfold act_ttok. rewrite Z.leb_refl, Z.sub_diag. reflexivity.
Qed.

Arguments size_t : simpl never.

(** ** One call of [feed_tfun] *)

Lemma lr_step_here v tl p e c :
  lr_step (v :: tl) p e p c = eng1 v e c.
Proof.
  unfold eng1. destruct e; unfold lr_step; rewrite ?act_ttok_here;
    reflexivity.
Qed.

Lemma lr_step_Z tv tp e idx :
  lr_step tv tp e idx tok_Z = eng1 None e tok_Z.
Proof. destruct e; reflexivity. Qed.

Lemma eng1_Z_done v e e' tr :
  eng1 v e tok_Z = Ok e' tr -> lr_done e' = true.
Proof.
  unfold eng1.
  destruct e; cbn; unfold lr_close, act_series; cbn; intros H;
    try (apply bind_Ok_inv in H; destruct H as (a & t1 & t2 & _ & H & _));
    unfold ret in H; injection H as <- _; reflexivity.
Qed.

Lemma feed_one ctx e p0 c v tl :
  engine_at ctx e p0 -> lr_done e = false ->
  feed_tfun ctx [c] (v :: tl) 0 1 =
  e1 <- eng1 v e c ;;
  match e1 with
  | lr_failure => abort assert_tfun_accepts
  | lr_success a =>
      ret (with_tfun ctx None p0, Some (mkResult a (size_t (p0 + 1) * 8)))
  | _ => ret (with_tfun ctx (Some (mkSuspended e1 (size_t (p0 + 1)))) p0,
              None)
  end.
Proof.
  unfold engine_at, feed_tfun. intros H He.
  destruct ctx as [s d l t tp b k]; cbn [tfun] in *.
  destruct t as [[e0 q]|].
  - destruct H as ([= -> ->] & Hp & Hr). cbn [tfun_pos] in Hp. subst tp.
    rewrite bind_ret_l. cbn [tfun tfun_pos].
    rewrite Z.add_0_r, (size_t_small _ Hr).
    change (Z.to_nat 0) with 0%nat. change (size_t (1 - 0)) with 1.
    change (Z.to_nat 1) with 1%nat.
    cbn [skipn firstn h_parse_chunk engine pos].
    rewrite He, lr_step_here.
    destruct (eng1 v e c) as [e1 tr|f tr]; [|reflexivity].
    destruct e1; cbn; rewrite ?app_nil_r; reflexivity.
  - destruct H as [-> ->].
    cbn -[size_t lr_step eng1 Z.to_nat Z.sub].
    change (size_t (0 + 0)) with 0. change (size_t (1 - 0)) with 1.
    change (Z.to_nat 0) with 0%nat. change (Z.to_nat 1) with 1%nat.
    cbn -[size_t lr_step eng1]. rewrite lr_step_here.
    destruct (eng1 v lr_start c) as [e1 tr|f tr]; [|reflexivity].
    destruct e1; cbn; rewrite ?app_nil_r; reflexivity.
Qed.

Lemma feed_two ctx e p0 c v tl :
  engine_at ctx e p0 -> lr_done e = false ->
  feed_tfun ctx [c; tok_Z] (v :: tl) 0 2 =
  e1 <- eng1 v e c ;;
  match e1 with
  | lr_failure => abort assert_tfun_accepts
  | lr_success a =>
      ret (with_tfun ctx None p0, Some (mkResult a (size_t (p0 + 1) * 8)))
  | _ =>
      e2 <- eng1 None e1 tok_Z ;;
      match e2 with
      | lr_failure => abort assert_tfun_accepts
      | lr_success a =>
          ret (with_tfun ctx None p0,
               Some (mkResult a (size_t (size_t (p0 + 1) + 1) * 8)))
      | _ =>
          ret (with_tfun ctx
                 (Some (mkSuspended e2 (size_t (size_t (p0 + 1) + 1)))) p0,
               None)
      end
  end.
Proof.
  unfold engine_at, feed_tfun. intros H He.
  destruct ctx as [s d l t tp b k]; cbn [tfun] in *.
  assert (Hgo :
    h_parse_chunk (v :: tl) p0 (mkSuspended e p0) [c; tok_Z] =
    e1 <- eng1 v e c ;;
    match e1 with
    | lr_failure => ret (mkSuspended e1 p0)
    | lr_success a => ret (mkSuspended e1 (size_t (p0 + 1)))
    | _ => e2 <- eng1 None e1 tok_Z ;;
           match e2 with
           | lr_failure => ret (mkSuspended e2 (size_t (p0 + 1)))
           | _ => ret (mkSuspended e2 (size_t (size_t (p0 + 1) + 1)))
           end
    end).
  { cbn [h_parse_chunk engine pos]. rewrite He, lr_step_here.
    destruct (eng1 v e c) as [e1 tr|f tr]; [|reflexivity].
    destruct e1; cbn [bind h_parse_chunk engine pos lr_done];
      rewrite ?lr_step_Z;
      try (destruct (eng1 None _ tok_Z) as [e2 tr2|f2 tr2];
           [destruct e2|]); cbn; rewrite ?app_nil_r; reflexivity. }
  destruct t as [[e0 q]|].
  - destruct H as ([= -> ->] & Hp & Hr). cbn [tfun_pos] in Hp. subst tp.
    rewrite bind_ret_l. cbn [tfun tfun_pos].
    rewrite Z.add_0_r, (size_t_small _ Hr).
    change (Z.to_nat 0) with 0%nat. change (size_t (2 - 0)) with 2.
    change (Z.to_nat 2) with 2%nat.
    cbn [skipn firstn]. rewrite Hgo.
    destruct (eng1 v e c) as [e1 tr|f tr]; [|reflexivity].
    destruct e1; cbn [bind];
      try (destruct (eng1 None _ tok_Z) as [e2 tr2|f2 tr2];
           [destruct e2|]); cbn; rewrite ?app_nil_r; reflexivity.
  - destruct H as [-> ->].
    cbn -[size_t lr_step eng1 Z.to_nat Z.sub h_parse_chunk].
    change (size_t 0) with 0. change (size_t (2 - 0)) with 2.
    change (Z.to_nat 0) with 0%nat. change (Z.to_nat 2) with 2%nat.
    unfold h_parse_start. cbn [skipn firstn]. rewrite Hgo.
    destruct (eng1 v lr_start c) as [e1 tr|f tr]; [|reflexivity].
    destruct e1; cbn [bind];
      try (destruct (eng1 None _ tok_Z) as [e2 tr2|f2 tr2];
           [destruct e2|]); cbn; rewrite ?app_nil_r; reflexivity.
Qed.

Lemma feed_Z_fresh ctx c tok :
  tfun ctx = None ->
  feed_tfun ctx [c; tok_Z] tok 1 2 =
  ret (with_tfun ctx None 0, Some (mkResult None 8)).
Proof.
  destruct ctx as [s d l t tp b k]; cbn [tfun]. intros ->. reflexivity.
Qed.

(** ** The engine against the grammar of [init] *)

Lemma g_A1_snoc w x v : g_A1 w x -> g_A1 (w ++ [(tok_A, v)]) v.
Proof.
  induction 1 as [v0|v0 w x _ IH]; cbn.
  - apply g_A1_right, g_A1_last.
  - now apply g_A1_right.
Qed.

Lemma g_pe_snoc_pls w xs v : g_pe w xs -> g_pe (w ++ [(tok_pls, v)]) (xs ++ [v]).
Proof.
  induction 1; cbn; constructor; try assumption. constructor.
Qed.

Lemma g_pe_snoc_equ w xs v : g_pe w xs -> g_pe (w ++ [(tok_equ, v)]) xs.
Proof.
  induction 1; cbn; constructor; try assumption. constructor.
Qed.

Lemma eng1_act v e : eng1 v e tok_A = match e with
                                      | lr_start | lr_A1 _ => ret (lr_A1 v)
                                      | lr_pe _ _ => ret lr_failure
                                      | _ => ret e
                                      end.
Proof. destruct e; reflexivity. Qed.

Lemma lr_close_value x xs c :
  lr_close x xs c =
  if Ascii.eqb c tok_Z then v <- act_series x xs 3 ;; ret (lr_success v)
  else if notAZpe c then ret (lr_success None)
  else ret lr_failure.
Proof. reflexivity. Qed.

(** Every step of the engine follows the grammar: a state it reaches is
    reached by the tokens the grammar allows there, and a success closes
    a sentence of [tfun] with the value of its action. *)
Lemma eng1_leads e w c v e' tr :
  leads_to e w -> eng1 v e c = Ok e' tr ->
  match e' with
  | lr_success a =>
      exists r, g_tfun (w ++ [(c, v)]) r /\ r = Ok a tr
  | lr_failure => True
  | _ => leads_to e' (w ++ [(c, v)])
  end.
Proof.
  intros Hw He. unfold eng1 in He.
  assert (Hclose : forall x xs w1 w2,
    w = w1 ++ w2 -> g_A1 w1 x -> g_pe w2 xs ->
    lr_close x xs c = Ok e' tr ->
    match e' with
    | lr_success a => exists r, g_tfun (w ++ [(c, v)]) r /\ r = Ok a tr
    | lr_failure => True
    | _ => leads_to e' (w ++ [(c, v)])
    end).
  { intros x xs w1 w2 -> H1 H2 Hc. unfold lr_close in Hc.
    destruct (Ascii.eqb_spec c tok_Z) as [->|Hz].
    - destruct (act_series x xs 3) as [a t|f t] eqn:Ea; [|discriminate].
      cbn in Hc. injection Hc as <- <-.
      exists (act_series x xs (2 + 1)). rewrite <- app_assoc. split.
      + apply g_tfun_series; [assumption|assumption|constructor].
      + cbn [Nat.add]. rewrite Ea. now rewrite app_nil_r.
    - destruct (notAZpe c) eqn:Hn.
      + cbn in Hc. injection Hc as <- <-.
        exists (act_series x xs (2 + 0)). rewrite <- app_assoc. split.
        * apply g_tfun_series; [assumption|assumption|now constructor].
        * reflexivity.
      + unfold ret in Hc. injection Hc as <- _. exact I. }
  destruct e as [|x|x xs|a|]; cbn [leads_to] in Hw; try contradiction;
    cbn [lr_step] in He.
  - subst w. destruct (Ascii.eqb_spec c tok_A) as [->|Ha].
    + rewrite act_ttok_here in He. cbn in He. injection He as <- _.
      cbn. constructor.
    + destruct (notA c) eqn:Hn.
      * unfold ret in He. injection He as <- <-.
        exists (ret None). split; [now constructor|reflexivity].
      * unfold ret in He. injection He as <- _. exact I.
  - destruct (Ascii.eqb_spec c tok_A) as [->|Ha].
    { rewrite act_ttok_here in He. cbn in He. injection He as <- _.
      cbn. now apply (g_A1_snoc w x). }
    destruct (Ascii.eqb_spec c tok_pls) as [->|Hp].
    { rewrite act_ttok_here in He. cbn in He. injection He as <- _.
      cbn. exists w, [(tok_pls, v)]. repeat split; try assumption;
        [discriminate|repeat constructor]. }
    destruct (Ascii.eqb_spec c tok_equ) as [->|Hq].
    { unfold ret in He. injection He as <- _.
      cbn. exists w, [(tok_equ, v)]. repeat split; try assumption;
        [discriminate|repeat constructor]. }
    apply (Hclose x [] w []); [now rewrite app_nil_r|assumption|constructor
                              |assumption].
  - destruct Hw as (w1 & w2 & -> & Hne & H1 & H2).
    destruct (Ascii.eqb_spec c tok_pls) as [->|Hp].
    { rewrite act_ttok_here in He. cbn in He. injection He as <- _.
      cbn. exists w1, (w2 ++ [(tok_pls, v)]). rewrite app_assoc.
      repeat split; try assumption.
      - intros E. now apply app_eq_nil in E as [_ E].
      - now apply g_pe_snoc_pls. }
    destruct (Ascii.eqb_spec c tok_equ) as [->|Hq].
    { unfold ret in He. injection He as <- _.
      cbn. exists w1, (w2 ++ [(tok_equ, v)]). rewrite app_assoc.
      repeat split; try assumption.
      - intros E. now apply app_eq_nil in E as [_ E].
      - now apply g_pe_snoc_equ. }
    apply (Hclose x xs w1 w2); auto.
Qed.

(** Conversely the engine accepts every sentence of the grammar, with the
    value of its action. *)
Lemma eng_run_A1 w x : g_A1 w x ->
  forall e, e = lr_start \/ (exists y, e = lr_A1 y) ->
  eng_run e w = ret (lr_A1 x).
Proof.
  induction 1 as [v|v w x _ IH]; intros e He; cbn [eng_run];
    rewrite eng1_act;
    destruct He as [->|[y ->]]; rewrite bind_ret_l; try reflexivity;
    apply IH; right; eauto.
Qed.

Lemma eng_run_pe w xs : g_pe w xs ->
  forall x acc, w <> [] ->
  (eng_run (lr_pe x acc) w = ret (lr_pe x (acc ++ xs))) /\
  (acc = [] -> eng_run (lr_A1 x) w = ret (lr_pe x xs)).
Proof.
  induction 1 as [|v w xs Hw IH|v w xs Hw IH]; intros x acc Hne;
    [contradiction| |].
  - assert (Hstep : forall acc',
      eng_run (lr_pe x (acc' ++ [v])) w = ret (lr_pe x (acc' ++ v :: xs))).
    { intros acc'. destruct w as [|t w'].
      - inversion Hw; subst. reflexivity.
      - destruct (IH x (acc' ++ [v])) as [E _]; [discriminate|].
        rewrite E. now rewrite <- app_assoc. }
    split.
    + cbn [eng_run]. unfold eng1. cbn [lr_step].
      change (Ascii.eqb tok_pls tok_pls) with true. cbv iota.
      rewrite act_ttok_here, bind_Ok_nil, bind_ret_l. apply Hstep.
    + intros ->. cbn [eng_run]. unfold eng1. cbn [lr_step].
      change (Ascii.eqb tok_pls tok_A) with false.
      change (Ascii.eqb tok_pls tok_pls) with true. cbv iota.
      rewrite act_ttok_here, bind_Ok_nil, bind_ret_l. apply (Hstep []).
  - assert (Hstep : forall acc',
      eng_run (lr_pe x acc') w = ret (lr_pe x (acc' ++ xs))).
    { intros acc'. destruct w as [|t w'].
      - inversion Hw; subst. cbn. now rewrite app_nil_r.
      - destruct (IH x acc') as [E _]; [discriminate|]. exact E. }
    split.
    + cbn [eng_run]. unfold eng1. cbn [lr_step].
      change (Ascii.eqb tok_equ tok_pls) with false.
      change (Ascii.eqb tok_equ tok_equ) with true. cbv iota.
      rewrite bind_ret_l. apply Hstep.
    + intros ->. cbn [eng_run]. unfold eng1. cbn [lr_step].
      change (Ascii.eqb tok_equ tok_A) with false.
      change (Ascii.eqb tok_equ tok_pls) with false.
      change (Ascii.eqb tok_equ tok_equ) with true. cbv iota.
      rewrite bind_ret_l. apply (Hstep []).
Qed.

Lemma eng_run_app w1 : forall e w2,
  eng_run e (w1 ++ w2) = e' <- eng_run e w1 ;; eng_run e' w2.
Proof.
  induction w1 as [|[c v] w1 IH]; intros e w2; cbn [app eng_run].
  - now rewrite bind_ret_l.
  - destruct (eng1 v e c) as [e1 t1|f t1]; [|reflexivity].
    cbn [bind]. rewrite IH.
    destruct (eng_run e1 w1) as [e2 t2|f t2]; [|reflexivity].
    cbn [bind].
    destruct (eng_run e2 w2) as [e3 t3|f t3]; now rewrite app_assoc.
Qed.

Lemma eng_run_done e w :
  lr_done e = true -> eng_run e w = ret e.
Proof.
  intros He. induction w as [|[c v] w IH]; [reflexivity|].
  cbn [eng_run]. destruct e; try discriminate; unfold eng1; cbn [lr_step];
    now rewrite bind_ret_l.
Qed.

Lemma notAZpe_tests c :
  notAZpe c = true ->
  Ascii.eqb c tok_A = false /\ Ascii.eqb c tok_Z = false /\
  Ascii.eqb c tok_pls = false /\ Ascii.eqb c tok_equ = false.
Proof.
  unfold notAZpe, in_charset. cbn. intros H.
  apply Bool.negb_true_iff in H.
  repeat (apply Bool.orb_false_iff in H as [? H]). auto.
Qed.

(** The engine accepts every sentence of the grammar, and its result is
    the value of the sentence. *)
Theorem grammar_accepted w r :
  g_tfun w r -> eng_run lr_start w = (a <- r ;; ret (lr_success a)).
Proof.
  intros [w1 w2 w3 x xs k H1 H2 H3|c v Hn].
  - rewrite eng_run_app, (eng_run_A1 _ _ H1 lr_start) by now left.
    rewrite bind_ret_l, eng_run_app.
    assert (Hend : forall e,
      e = lr_A1 x /\ xs = [] \/ e = lr_pe x xs ->
      eng_run e w3 = a <- act_series x xs (2 + k) ;; ret (lr_success a)).
    { intros e He. destruct H3 as [v|c v Hn]; cbn [eng_run].
      - rewrite bind_ret_l_r. unfold eng1.
        destruct He as [[-> ->]| ->]; reflexivity.
      - rewrite bind_ret_l_r. unfold eng1.
        destruct (notAZpe_tests _ Hn) as (Ea & Ez & Ep & Eq).
        destruct He as [[-> ->]| ->]; cbn [lr_step];
          rewrite ?Ea, ?Ep, ?Eq; unfold lr_close; rewrite Ez, Hn;
          reflexivity. }
    destruct w2 as [|t w2].
    + inversion H2; subst. cbn [eng_run]. rewrite bind_ret_l.
      apply Hend. now left.
    + destruct (eng_run_pe _ _ H2 x []) as [_ E]; [discriminate|].
      rewrite (E eq_refl), bind_ret_l. apply Hend. now right.
  - cbn [eng_run]. unfold eng1. cbn [lr_step].
    unfold notA, in_charset in Hn. cbn in Hn.
    apply Bool.negb_true_iff, Bool.orb_false_iff in Hn as [Ea _].
    change (Ascii.eqb c tok_A = false) in Ea.
    rewrite Ea. unfold notA, in_charset. cbn. fold tok_A. rewrite Ea.
    reflexivity.
Qed.

(** What the engine accepts is a sentence of the grammar: when a run from
    the start ends in success, a prefix of the input is a sentence whose
    value is the result (the engine stops there), and a state in between
    is one the grammar leads to. *)
Theorem accepted_by_grammar w2 : forall w1 e e' tr,
  leads_to e w1 -> eng_run e w2 = Ok e' tr ->
  match e' with
  | lr_success a =>
      exists u u' t, w1 ++ w2 = u ++ u' /\ g_tfun u (Ok a t)
  | lr_failure => True
  | _ => leads_to e' (w1 ++ w2)
  end.
Proof.
  induction w2 as [|[c v] w2 IH]; intros w1 e e' tr Hw H.
  - cbn in H. injection H as <- _. rewrite app_nil_r.
    destruct e; cbn [leads_to] in *; try contradiction; assumption.
  - cbn [eng_run] in H.
    apply bind_Ok_inv in H as (e1 & t1 & t2 & H1 & H2 & _).
    pose proof (eng1_leads _ _ _ _ _ _ Hw H1) as Hs.
    assert (Hcat : w1 ++ (c, v) :: w2 = (w1 ++ [(c, v)]) ++ w2)
      by now rewrite <- app_assoc.
    rewrite Hcat.
    destruct e1 as [|x|x xs|a|].
    + eapply IH; eassumption.
    + eapply IH; eassumption.
    + eapply IH; eassumption.
    + rewrite eng_run_done in H2 by reflexivity.
      unfold ret in H2. injection H2 as <- _.
      destruct Hs as (r & Hg & ->).
      now exists (w1 ++ [(c, v)]), w2, t1.
    + rewrite eng_run_done in H2 by reflexivity.
      unfold ret in H2. injection H2 as <- _. exact I.
Qed.

Lemma complete_spec ctx a :
  exists tr, complete ctx a = Ok (set_n ctx 0) tr /\ payloads tr = somes [a].
Proof.
  unfold complete, process_transport_payload. destruct a as [b|].
  - destruct (dnp3_p_app_message b) as [[ty|f]|]; eexists; split;
      reflexivity.
  - eexists; split; reflexivity.
Qed.

Lemma tfun_loop_one ctx e p0 c v tl :
  engine_at ctx e p0 -> lr_done e = false ->
  tfun_loop 2 ctx [c] (v :: tl) 0 1 =
  e1 <- eng1 v e c ;;
  match e1 with
  | lr_failure => abort assert_tfun_accepts
  | lr_success a => complete (with_tfun ctx None p0) a
  | _ => ret (with_tfun ctx (Some (mkSuspended e1 (size_t (p0 + 1)))) p0)
  end.
Proof.
  intros H He. cbn [tfun_loop]. change (0 <? 1) with true. cbv iota.
  rewrite (feed_one _ _ _ _ _ _ H He).
  destruct (eng1 v e c) as [e1 tr|f tr]; [|reflexivity].
  destruct e1; try (cbn; rewrite ?app_nil_r; reflexivity).
  cbn [bind ret app]. cbn [bit_length tfun_pos with_tfun].
  rewrite bit_length_whole, consumed_one. change (size_t (0 + 1)) with 1.
  unfold complete.
  destruct ast0 as [b|]; cbn; [|rewrite ?app_nil_r; reflexivity].
  destruct (dnp3_p_app_message b) as [[ty|f]|]; cbn; rewrite ?app_nil_r;
    reflexivity.
Qed.

Lemma tfun_loop_two ctx e p0 c v tl :
  engine_at ctx e p0 -> lr_done e = false ->
  tfun_loop 2 ctx [c; tok_Z] (v :: tl) 0 2 =
  e1 <- eng1 v e c ;;
  match e1 with
  | lr_failure => abort assert_tfun_accepts
  | lr_success a =>
      ctx1 <- complete (with_tfun ctx None p0) a ;;
      complete (with_tfun ctx1 None 0) None
  | _ =>
      e2 <- eng1 None e1 tok_Z ;;
      match e2 with
      | lr_failure => abort assert_tfun_accepts
      | lr_success a => complete (with_tfun ctx None p0) a
      | _ => ret (with_tfun ctx
                    (Some (mkSuspended e2 (size_t (size_t (p0 + 1) + 1)))) p0)
      end
  end.
Proof.
  intros H He. cbn [tfun_loop]. change (0 <? 2) with true. cbv iota.
  rewrite (feed_two _ _ _ _ _ _ H He).
  match goal with |- bind _ ?k = _ => set (K := k) end.
  assert (Hdone : forall a,
    K (with_tfun ctx None p0,
       Some (mkResult a (size_t (size_t (p0 + 1) + 1) * 8))) =
    complete (with_tfun ctx None p0) a).
  { intros a. unfold K. cbn [bit_length tfun_pos with_tfun ast].
    rewrite bit_length_whole, consumed_two. change (size_t (0 + 2)) with 2.
    unfold complete.
    destruct a as [b|]; cbn; [|rewrite ?app_nil_r; reflexivity].
    destruct (dnp3_p_app_message b) as [[ty|f]|]; cbn; rewrite ?app_nil_r;
      reflexivity. }
  assert (Hmore : forall s0, K (with_tfun ctx (Some s0) p0, None) =
                             ret (with_tfun ctx (Some s0) p0)).
  { reflexivity. }
  destruct (eng1 v e c) as [e1 tr|f tr]; [|reflexivity].
  destruct e1.
  - cbn [bind]. destruct (eng1 None lr_start tok_Z) as [e2 tr2|f2 tr2];
      [|reflexivity].
    destruct e2; cbn [bind ret abort app]; rewrite ?Hdone, ?Hmore;
      cbn [bind ret abort app]; rewrite ?app_nil_r;
      try destruct (complete _ _); rewrite <- ?app_assoc; reflexivity.
  - cbn [bind]. destruct (eng1 None (lr_A1 x) tok_Z) as [e2 tr2|f2 tr2];
      [|reflexivity].
    destruct e2; cbn [bind ret abort app]; rewrite ?Hdone, ?Hmore;
      cbn [bind ret abort app]; rewrite ?app_nil_r;
      try destruct (complete _ _); rewrite <- ?app_assoc; reflexivity.
  - cbn [bind]. destruct (eng1 None (lr_pe x xs) tok_Z) as [e2 tr2|f2 tr2];
      [|reflexivity].
    destruct e2; cbn [bind ret abort app]; rewrite ?Hdone, ?Hmore;
      cbn [bind ret abort app]; rewrite ?app_nil_r;
      try destruct (complete _ _); rewrite <- ?app_assoc; reflexivity.
  - unfold K. cbn [bind ret app]. cbn [bit_length tfun_pos with_tfun ast].
    rewrite bit_length_whole, consumed_one. change (size_t (0 + 1)) with 1.
    change (1 <? 2) with true. cbv iota.
    unfold complete, process_transport_payload.
    destruct ast0 as [b|]; [destruct (dnp3_p_app_message b) as [[ty|f]|]|];
      cbn [bind ret emit app assert Z.ltb Z.compare];
      (rewrite feed_Z_fresh; [|destruct ctx; reflexivity]);
      repeat (cbn; rewrite ?size_t_1, ?size_t_2);
      rewrite ?app_nil_r; reflexivity.
  - reflexivity.
Qed.

Lemma tfun_state_engine_at ctx st seg :
  tfun_state ctx st ->
  exists e p0,
    engine_at (set_last_segment ctx seg) e p0 /\ lr_done e = false /\
    in_range p0 /\
    e = match st with
        | idle => lr_start
        | in_A1 x => lr_A1 (Some x)
        | in_pe x xs => lr_pe (Some x) (map Some xs)
        end /\
    p0 = match st with idle => 0 | _ => tfun_pos ctx end.
Proof.
  intros Hst. unfold engine_at. cbn [tfun set_last_segment tfun_pos].
  inversion Hst as [Ht|x Ht Hr|x xs Ht Hr]; subst; rewrite Ht;
    eexists; eexists; (split; [|split; [|split; [|split]]]);
    try reflexivity; try assumption; try (split; reflexivity);
    try (split; [reflexivity|split; [reflexivity|assumption]]).
Qed.

Lemma process_transport_segment_unfold ctx seg :
  len seg <= SEGMAX ->
  process_transport_segment ctx seg =
  (emit (transport_segment seg) ;;;
   let buf := token_of (classify seg (last_segment ctx)) ::
              (if fin seg then [tok_Z] else []) in
   ctx <- tfun_loop 2 (set_last_segment ctx seg) buf [Some seg; None] 0
            (Z.of_nat (List.length buf)) ;;
   ret (set_tfun_pos ctx
          (size_t (tfun_pos ctx + Z.of_nat (List.length buf))))).
Proof.
  intros Hlen. unfold process_transport_segment, save_last_segment.
  rewrite transport_tokens_classify.
  apply Z.leb_le in Hlen. rewrite Hlen. cbn [assert].
  rewrite !bind_ret_l. reflexivity.
Qed.

Lemma pts_spec ctx st seg :
  tfun_state ctx st -> len seg <= SEGMAX ->
  match tfun_next st (classify seg (last_segment ctx)) seg with
  | None =>
      process_transport_segment ctx seg =
      Crash assert_tfun_accepts [transport_segment seg]
  | Some (st', outs) =>
      exists ctx' tr,
        process_transport_segment ctx seg =
          Ok ctx' (transport_segment seg :: tr) /\
        tfun_state ctx' st' /\ last_segment ctx' = seg /\
        src ctx' = src ctx /\ dst ctx' = dst ctx /\ buf ctx' = buf ctx /\
        n ctx' = match outs with [] => n ctx | _ => 0 end /\
        payloads tr = somes outs
  end.
Proof.
  intros Hst Hlen.
  rewrite (process_transport_segment_unfold _ _ Hlen).
  destruct (tfun_state_engine_at _ _ seg Hst)
    as (e & p0 & Hat & He & Hr & -> & ->).
  destruct (fin seg) eqn:Hz; cbv zeta;
    cbn [List.length Z.of_nat Pos.of_succ_nat Pos.succ];
    [rewrite (tfun_loop_two _ _ _ _ _ _ Hat He)
    |rewrite (tfun_loop_one _ _ _ _ _ _ Hat He)];
    clear Hat He;
    destruct st, (classify seg (last_segment ctx));
    cbn [tfun_next]; rewrite ?Hz;
    unfold eng1;
    cbn -[size_t complete series_payload Z.add act_ttok];
    rewrite ?act_ttok_here;
    cbn -[size_t complete Z.add act_ttok];
    try (change [Some seg] with (map Some [seg]); rewrite <- map_app);
    rewrite ?series_payload_Some;
    cbn -[size_t complete Z.add act_ttok];
    repeat match goal with
    | |- context [complete ?c ?a] =>
        let tr := fresh "tr" in
        let E := fresh "E" in
        let Hp := fresh "Hp" in
        destruct (complete_spec c a) as (tr & E & Hp); rewrite E; clear E;
        cbn -[size_t complete Z.add act_ttok]
    end;
    try reflexivity.
  all: eexists; eexists; (split; [reflexivity|]);
    rewrite ?payloads_app, ?app_nil_r;
    repeat match goal with
    | H : payloads _ = _ |- _ => rewrite H; clear H
    end;
    destruct ctx as [s d l t tp b k];
    cbn -[size_t Z.add];
    repeat split; try reflexivity;
    try (constructor; cbn -[size_t Z.add];
         [reflexivity|apply size_t_range]);
    try (apply ts_idle; reflexivity).
Qed.

Lemma pts_len_crash ctx seg :
  SEGMAX < len seg ->
  process_transport_segment ctx seg =
  Crash assert_segment_len [transport_segment seg].
Proof.
  intros H. unfold process_transport_segment, save_last_segment.
  rewrite transport_tokens_classify.
  apply Z.leb_gt in H. rewrite H. reflexivity.
Qed.

Lemma pts_Ok_len ctx seg ctx' tr :
  process_transport_segment ctx seg = Ok ctx' tr -> len seg <= SEGMAX.
Proof.
  intros H. destruct (Z_le_gt_dec (len seg) SEGMAX) as [|Hgt]; [assumption|].
  rewrite pts_len_crash in H by lia. discriminate.
Qed.

Lemma pts_inv ctx seg ctx' tr :
  ctx_inv ctx -> process_transport_segment ctx seg = Ok ctx' tr ->
  ctx_inv ctx' /\ src ctx' = src ctx /\ dst ctx' = dst ctx /\
  buf ctx' = buf ctx /\ (n ctx' = n ctx \/ n ctx' = 0) /\
  last_segment ctx' = seg /\ In (transport_segment seg) tr.
Proof.
  intros [st Hst] H. pose proof (pts_Ok_len _ _ _ _ H) as Hlen.
  pose proof (pts_spec _ _ _ Hst Hlen) as Hs.
  destruct (tfun_next st (classify seg (last_segment ctx)) seg)
    as [[st' outs]|].
  - destruct Hs as (c & t & E & Hst' & Hl & Hsrc & Hdst & Hb & Hn & _).
    rewrite E in H. injection H as <- <-.
    repeat split; try assumption.
    + now exists st'.
    + destruct outs; [left|right]; assumption.
    + now left.
  - rewrite Hs in H. discriminate.
Qed.

(** ** Byte equality of segments *)

Lemma memcmp_eq_refl a : memcmp_eq a a (List.length a) = true.
Proof.
  induction a as [|x a IH]; [reflexivity|].
  simpl. rewrite IH, Bool.andb_true_r. now apply byte_dec_lb.
Qed.

Lemma memcmp_eq_sound a b :
  List.length a = List.length b ->
  memcmp_eq a b (List.length a) = true -> a = b.
Proof.
  revert b. induction a as [|x a IH]; intros [|y b] Hl H;
    try discriminate; [reflexivity|].
  simpl in *. apply Bool.andb_true_iff in H as [Hx Ha].
  apply byte_dec_bl in Hx. f_equal; [assumption|].
  apply IH; [now injection Hl|assumption].
Qed.

Lemma segment_equal_refl a : segment_equal a a = true.
Proof.
  unfold segment_equal, len.
  rewrite !Bool.eqb_reflx, !Z.eqb_refl, Nat2Z.id, memcmp_eq_refl.
  reflexivity.
Qed.

Lemma segment_equal_eq a b : segment_equal a b = true -> a = b.
Proof.
  unfold segment_equal, len. intros H.
  repeat (apply Bool.andb_true_iff in H as [H ?]).
  apply Bool.eqb_prop in H.
  match goal with H1 : Bool.eqb _ _ = true |- _ =>
    apply Bool.eqb_prop in H1 end.
  repeat match goal with H1 : (_ =? _) = true |- _ =>
    apply Z.eqb_eq in H1 end.
  rewrite Nat2Z.id in *.
  destruct a as [f1 z1 s1 p1], b as [f2 z2 s2 p2]; cbn in *.
  subst. f_equal. apply memcmp_eq_sound; [lia|assumption].
Qed.

Lemma succ_mod_64_neq p : (p + 1) mod 64 <> p.
Proof.
  intros H. rewrite Z.mod_eq in H by lia. lia.
Qed.

Lemma classify_first seg last : fir seg = true -> classify seg last = cls_A.
Proof. unfold classify. now intros ->. Qed.

Lemma classify_next seg last :
  fir seg = false -> seq seg = (seq last + 1) mod 64 ->
  classify seg last = cls_pls.
Proof.
  unfold classify. intros -> Hs.
  destruct (segment_equal seg last) eqn:E.
  - apply segment_equal_eq in E. subst last.
    now apply eq_sym, succ_mod_64_neq in Hs.
  - apply Z.eqb_eq in Hs. now rewrite Hs.
Qed.

Lemma classify_dup seg : fir seg = false -> classify seg seg = cls_equ.
Proof. unfold classify. intros ->. now rewrite segment_equal_refl. Qed.

Lemma classify_not_first seg last :
  fir seg = false -> classify seg last <> cls_A.
Proof.
  unfold classify. intros ->.
  destruct (segment_equal seg last); [discriminate|].
  destruct (seq seg =? (seq last + 1) mod 64); discriminate.
Qed.

Lemma token_notAZpe c : notAZpe (token_of c) = true -> c = cls_gap.
Proof. destruct c; cbn; intros H; try discriminate; reflexivity. Qed.

(** ** Segment series *)

Lemma series_bytes_app x xs ys :
  series_bytes x (xs ++ ys) =
  series_bytes x xs ++ List.concat (map payload ys).
Proof.
  unfold series_bytes. now rewrite map_app, concat_app, app_assoc.
Qed.

Lemma series_tail_run rest :
  forall ctx st x xs,
    tfun_state ctx st -> open_series st x xs ->
    Forall (fun s => len s <= SEGMAX) rest ->
    fin (last_segment ctx) = false ->
    series_tail (last_segment ctx) rest = true ->
    exists ctx' tr,
      feed_segments ctx rest = Ok ctx' tr /\
      tfun_state ctx' idle /\
      payloads tr = [series_bytes x (xs ++ rest)].
Proof.
  induction rest as [|s rest IH]; intros ctx st x xs Hst Hopen Hlen Hfin Htail.
  - cbn in Htail. congruence.
  - cbn [series_tail] in Htail.
    repeat (apply Bool.andb_true_iff in Htail as [Htail ?]).
    match goal with H : negb (fir s) = true |- _ =>
      apply Bool.negb_true_iff in H; rename H into Hfir end.
    match goal with H : (_ =? _) = true |- _ =>
      apply Z.eqb_eq in H; rename H into Hseq end.
    match goal with H : series_tail s rest = true |- _ =>
      rename H into Hrest end.
    inversion Hlen as [|? ? Hls Hlrest]; subst.
    pose proof (pts_spec _ _ _ Hst Hls) as Hs.
    rewrite (classify_next _ _ Hfir Hseq) in Hs.
    cbn [feed_segments].
    destruct (fin s) eqn:Hz.
    + (* the closing segment *)
      destruct rest as [|s' rest'];
        [|cbn in Hrest; rewrite Hz in Hrest; discriminate].
      assert (Hnext : tfun_next st cls_pls s =
                      Some (idle, [Some (series_bytes x (xs ++ [s]))])).
      { destruct Hopen as [[-> ->]| ->]; cbn; rewrite Hz; reflexivity. }
      rewrite Hnext in Hs.
      destruct Hs as (c & t & E & Hst' & _ & _ & _ & _ & _ & Hp).
      rewrite E. cbn. eexists; eexists; split; [reflexivity|].
      split; [assumption|]. rewrite app_nil_r. cbn [payloads].
      now rewrite Hp.
    + assert (Hnext : tfun_next st cls_pls s =
                      Some (in_pe x (xs ++ [s]), [])).
      { destruct Hopen as [[-> ->]| ->]; cbn; rewrite Hz; reflexivity. }
      rewrite Hnext in Hs.
      destruct Hs as (c & t & E & Hst' & Hl & _ & _ & _ & _ & Hp).
      rewrite (bind_Ok_l _ _ _ _ E).
      destruct (IH c (in_pe x (xs ++ [s])) x (xs ++ [s]) Hst')
        as (c' & t' & E' & Hidle & Hp').
      * now right.
      * assumption.
      * now rewrite Hl.
      * now rewrite Hl.
      * rewrite E'. cbn. eexists; eexists; split; [reflexivity|].
        split; [assumption|]. cbn [payloads].
        rewrite payloads_app, Hp, Hp'. cbn.
        now rewrite <- app_assoc.
Qed.

(** A complete series fed to a context whose recognizer is idle, or has
    so far seen only first segments, yields exactly one payload: the
    concatenation of the segments' payloads in input order. *)
Lemma series_reassembled ctx st segs :
  tfun_state ctx st -> (st = idle \/ exists x, st = in_A1 x) ->
  Forall (fun s => len s <= SEGMAX) segs ->
  complete_series segs = true ->
  exists ctx' tr,
    feed_segments ctx segs = Ok ctx' tr /\
    tfun_state ctx' idle /\
    payloads tr = [List.concat (map payload segs)].
Proof.
  intros Hst Hfresh Hlen Hser.
  destruct segs as [|s rest]; [discriminate|].
  cbn [complete_series] in Hser.
  apply Bool.andb_true_iff in Hser as [Hfir Htail].
  inversion Hlen as [|? ? Hls Hlrest]; subst.
  pose proof (pts_spec _ _ _ Hst Hls) as Hs.
  rewrite (classify_first _ _ Hfir) in Hs.
  cbn [feed_segments].
  destruct (fin s) eqn:Hz.
  - destruct rest as [|s' rest'];
      [|cbn in Htail; rewrite Hz in Htail; discriminate].
    assert (Hnext : tfun_next st cls_A s =
                    Some (idle, [Some (series_bytes s [])])).
    { destruct Hfresh as [->|[x ->]]; cbn; rewrite Hz; reflexivity. }
    rewrite Hnext in Hs.
    destruct Hs as (c & t & E & Hst' & _ & _ & _ & _ & _ & Hp).
    rewrite E. cbn. eexists; eexists; split; [reflexivity|].
    split; [assumption|]. rewrite app_nil_r. cbn [payloads].
    rewrite Hp. reflexivity.
  - assert (Hnext : tfun_next st cls_A s = Some (in_A1 s, [])).
    { destruct Hfresh as [->|[x ->]]; cbn; rewrite Hz; reflexivity. }
    rewrite Hnext in Hs.
    destruct Hs as (c & t & E & Hst' & Hl & _ & _ & _ & _ & Hp).
    rewrite (bind_Ok_l _ _ _ _ E).
    destruct (series_tail_run rest c (in_A1 s) s [] Hst')
      as (c' & t' & E' & Hidle & Hp').
    + now left.
    + assumption.
    + now rewrite Hl.
    + now rewrite Hl.
    + rewrite E'. cbn. eexists; eexists; split; [reflexivity|].
      split; [assumption|]. cbn [payloads].
      rewrite payloads_app, Hp, Hp'. reflexivity.
Qed.

(** C3: a segment whose first token is none of [A], [Z], [+], [=] closes
    an open series without any [transport_payload] event, and leaves the
    context with [n = 0] and no recognizer in progress. *)
Theorem C3_invalid_series_discarded ctx st seg :
  tfun_state ctx st -> st <> idle -> len seg <= SEGMAX ->
  notAZpe (hd tok_Z (fst (transport_tokens seg (Some (last_segment ctx)))))
    = true ->
  exists ctx' tr,
    process_transport_segment ctx seg = Ok ctx' tr /\
    payloads tr = [] /\ n ctx' = 0 /\ tfun ctx' = None.
Proof.
  intros Hst Hopen Hlen Htok.
  rewrite transport_tokens_classify in Htok. cbn [fst hd] in Htok.
  apply token_notAZpe in Htok.
  pose proof (pts_spec _ _ _ Hst Hlen) as Hs. rewrite Htok in Hs.
  assert (Hnext : tfun_next st cls_gap seg =
                  Some (idle, if fin seg then [None; None] else [None])).
  { destruct st; [contradiction| |]; reflexivity. }
  rewrite Hnext in Hs.
  destruct Hs as (c & t & E & Hst' & _ & _ & _ & _ & Hn & Hp).
  exists c, (transport_segment seg :: t). split; [assumption|].
  split; [|split].
  - cbn [payloads]. rewrite Hp. now destruct (fin seg).
  - rewrite Hn. now destruct (fin seg).
  - now inversion Hst'.
Qed.

(** ** Retransmissions *)

Lemma sim_refl c : ctx_inv c -> sim c c.
Proof. intros [st H]. split; [reflexivity|now exists st]. Qed.

Lemma sim_step c1 c2 seg :
  sim c1 c2 ->
  match process_transport_segment c1 seg,
        process_transport_segment c2 seg with
  | Ok c1' t1, Ok c2' t2 => sim c1' c2' /\ payloads t1 = payloads t2
  | Crash f1 t1, Crash f2 t2 => f1 = f2 /\ payloads t1 = payloads t2
  | _, _ => False
  end.
Proof.
  intros (Hl & st & H1 & H2).
  destruct (Z_le_gt_dec (len seg) SEGMAX) as [Hlen|Hlen].
  - pose proof (pts_spec _ _ _ H1 Hlen) as S1.
    pose proof (pts_spec _ _ _ H2 Hlen) as S2.
    rewrite <- Hl in S2.
    destruct (tfun_next st (classify seg (last_segment c1)) seg)
      as [[st' outs]|].
    + destruct S1 as (c1' & t1 & E1 & Hs1 & L1 & _ & _ & _ & _ & P1).
      destruct S2 as (c2' & t2 & E2 & Hs2 & L2 & _ & _ & _ & _ & P2).
      rewrite E1, E2. split.
      * split; [congruence|]. now exists st'.
      * cbn [payloads]. congruence.
    + rewrite S1, S2. now split.
  - rewrite !pts_len_crash by lia. now split.
Qed.

Lemma sim_feed l : forall c1 c2,
  sim c1 c2 ->
  payloads (trace (feed_segments c1 l)) =
  payloads (trace (feed_segments c2 l)).
Proof.
  induction l as [|s l IH]; intros c1 c2 Hsim; [reflexivity|].
  cbn [feed_segments]. pose proof (sim_step _ _ s Hsim) as Hs.
  destruct (process_transport_segment c1 s) as [c1' t1|f1 t1] eqn:E1,
           (process_transport_segment c2 s) as [c2' t2|f2 t2] eqn:E2;
    try contradiction.
  - destruct Hs as [Hsim' Hp].
    rewrite (trace_bind_Ok _ _ _ _ eq_refl), (trace_bind_Ok _ _ _ _ eq_refl).
    rewrite !payloads_app, Hp. f_equal. now apply IH.
  - cbn. apply Hs.
Qed.

Lemma dup_step c s c' t :
  ctx_inv c -> fir s = false ->
  process_transport_segment c s = Ok c' t ->
  exists c'' t',
    process_transport_segment c' s = Ok c'' t' /\
    payloads t' = [] /\ sim c' c''.
Proof.
  intros [st Hst] Hfir E. pose proof (pts_Ok_len _ _ _ _ E) as Hlen.
  pose proof (pts_spec _ _ _ Hst Hlen) as S1.
  pose proof (classify_not_first s (last_segment c) Hfir) as Hc.
  destruct (tfun_next st (classify s (last_segment c)) s)
    as [[st' outs]|] eqn:N1; [|rewrite S1 in E; discriminate].
  destruct S1 as (c1 & t1 & E1 & Hs1 & L1 & _ & _ & _ & _ & _).
  rewrite E1 in E. injection E as <- <-.
  pose proof (pts_spec _ _ _ Hs1 Hlen) as S2.
  rewrite L1, (classify_dup _ Hfir) in S2.
  assert (N2 : exists outs', tfun_next st' cls_equ s = Some (st', outs') /\
                             somes outs' = []).
  { destruct st, (classify s (last_segment c)), (fin s) eqn:Hz;
      try contradiction; cbn in N1; rewrite ?Hz in N1;
      injection N1 as <- <-; cbn; rewrite ?Hz;
      eexists; split; reflexivity. }
  destruct N2 as (outs' & N2 & Ho). rewrite N2 in S2.
  destruct S2 as (c2 & t2 & E2 & Hs2 & L2 & _ & _ & _ & _ & P2).
  exists c2, (transport_segment s :: t2). split; [assumption|].
  split; [cbn [payloads]; congruence|].
  split; [congruence|]. now exists st'.
Qed.

Lemma retransmits_payloads l l' :
  retransmits l l' ->
  forall c1 c2, sim c1 c2 ->
  payloads (trace (feed_segments c2 l')) =
  payloads (trace (feed_segments c1 l)).
Proof.
  induction 1 as [|s l l' _ IH|s d l l' Hfir Heq _ IH]; intros c1 c2 Hsim.
  - reflexivity.
  - cbn [feed_segments]. pose proof (sim_step _ _ s Hsim) as Hs.
    destruct (process_transport_segment c1 s) as [c1' t1|f1 t1] eqn:E1,
             (process_transport_segment c2 s) as [c2' t2|f2 t2] eqn:E2;
      try contradiction.
    + destruct Hs as [Hsim' Hp].
      rewrite (trace_bind_Ok _ _ _ _ eq_refl),
              (trace_bind_Ok _ _ _ _ eq_refl).
      rewrite !payloads_app, Hp. f_equal. now apply IH.
    + cbn. symmetry. apply Hs.
  - apply segment_equal_eq in Heq. subst d.
    rewrite <- (IH c1 c2 Hsim).
    cbn [feed_segments].
    destruct (process_transport_segment c2 s) as [c2' t2|f2 t2] eqn:E2;
      [|reflexivity].
    assert (Hinv : ctx_inv c2).
    { destruct Hsim as (_ & st & _ & H2). now exists st. }
    destruct (dup_step _ _ _ _ Hinv Hfir E2) as (c2'' & t' & E' & Hp & Hs).
    rewrite (trace_bind_Ok _ _ _ _ eq_refl),
            (trace_bind_Ok _ _ _ _ eq_refl).
    rewrite (trace_bind_Ok _ _ _ _ E').
    rewrite !payloads_app, Hp. cbn [app]. f_equal.
    symmetry. now apply sim_feed.
Qed.

(** C4: inserting duplicates, each byte-equal to the segment with [fir]
    unset right before it, leaves the sequence of reassembled payloads
    unchanged; such a duplicate is tokenized as [=]. *)
Theorem C4_retransmit_idempotent ctx l l' :
  ctx_inv ctx -> retransmits l l' ->
  payloads (trace (feed_segments ctx l')) =
  payloads (trace (feed_segments ctx l)) /\
  (forall s d, fir s = false -> segment_equal d s = true ->
     fst (transport_tokens d (Some s)) =
     tok_equ :: (if fin d then [tok_Z] else [])).
Proof.
  intros Hinv Hr. split.
  - apply (retransmits_payloads _ _ Hr). now apply sim_refl.
  - intros s d Hfir Heq. apply segment_equal_eq in Heq. subst d.
    rewrite transport_tokens_classify, (classify_dup _ Hfir). reflexivity.
Qed.

(** ** The context table *)

Lemma key_match c s d :
  (src c =? s) && (dst c =? d) = true <-> key c = (s, d).
Proof.
  unfold key. rewrite Bool.andb_true_iff, !Z.eqb_eq. split.
  - now intros [-> ->].
  - now intros [= -> ->].
Qed.

Lemma scan_contexts_spec l s d : forall k,
  match scan_contexts l s d k with
  | scan_hit pre c post =>
      l = pre ++ c :: post /\ key c = (s, d) /\ ~ In (s, d) (keys pre) /\
      (pre = [] \/ k + List.length pre < CTXMAX)%nat
  | scan_reuse pre c post =>
      l = pre ++ c :: post /\ ~ In (s, d) (keys (pre ++ [c])) /\
      (CTXMAX <= k + List.length pre + 1)%nat /\
      (pre = [] \/ k + List.length pre < CTXMAX)%nat
  | scan_end =>
      ~ In (s, d) (keys l) /\ (l = [] \/ k + List.length l < CTXMAX)%nat
  end.
Proof.
  induction l as [|c l IH]; intros k; cbn [scan_contexts].
  - split; [intros []|now left].
  - destruct ((src c =? s) && (dst c =? d)) eqn:Hm.
    + apply key_match in Hm. repeat split; auto.
    + assert (Hk : key c <> (s, d)).
      { intros E. apply key_match in E. congruence. }
      destruct (CTXMAX <=? S k)%nat eqn:Hc.
      * apply Nat.leb_le in Hc. repeat split; auto.
        -- cbn. intros [E|[]]. contradiction.
        -- cbn. lia.
      * apply Nat.leb_gt in Hc. specialize (IH (S k)).
        destruct (scan_contexts l s d (S k)) as [pre x post|pre x post|].
        -- destruct IH as (-> & Hx & Hn & Hlen). repeat split; auto.
           ++ cbn. intros [E|E]; contradiction.
           ++ right. cbn. destruct Hlen as [->|Hlen]; cbn; lia.
        -- destruct IH as (-> & Hn & Hge & Hlen). repeat split; auto.
           ++ cbn. intros [E|E]; [contradiction|]. apply Hn. exact E.
           ++ cbn. lia.
           ++ right. cbn. destruct Hlen as [->|Hlen]; cbn; lia.
        -- destruct IH as (Hn & Hlen). split.
           ++ cbn. intros [E|E]; contradiction.
           ++ right. cbn. destruct Hlen as [->|Hlen]; cbn; lia.
Qed.

Lemma scan_contexts_hit pre c post s d : forall k,
  ~ In (s, d) (keys pre) -> key c = (s, d) ->
  (pre = [] \/ k + List.length pre < CTXMAX)%nat ->
  scan_contexts (pre ++ c :: post) s d k = scan_hit pre c post.
Proof.
  induction pre as [|x pre IH]; intros k Hn Hc Hlen; cbn [app scan_contexts].
  - apply key_match in Hc. now rewrite Hc.
  - destruct ((src x =? s) && (dst x =? d)) eqn:Hm.
    { apply key_match in Hm. exfalso. apply Hn. cbn. now left. }
    destruct Hlen as [Hlen|Hlen]; [discriminate|]. cbn in Hlen.
    destruct (CTXMAX <=? S k)%nat eqn:Hk; [apply Nat.leb_le in Hk; lia|].
    rewrite (IH (S k)); auto.
    + intros E. apply Hn. cbn. now right.
    + right. lia.
Qed.

Lemma fill_context_spec c s d c' tr :
  fill_context c s d = Ok c' tr ->
  c' = mkContext s d (last_segment c) None (tfun_pos c) (buf c) 0.
Proof.
  unfold fill_context, reset_tfun. destruct c as [s0 d0 l t tp b k].
  cbn [tfun set_n n src dst]. intros H.
  apply bind_Ok_inv in H as (u & t1 & t2 & _ & H & _).
  apply bind_Ok_inv in H as (c1 & t3 & t4 & H & E & _).
  unfold ret in E. injection E as <- _.
  destruct t as [hs|].
  - destruct (h_parse_finish hs) as [r|]; [|discriminate].
    apply bind_Ok_inv in H as (u' & t5 & t6 & _ & H & _).
    unfold ret in H. injection H as <- _. reflexivity.
  - unfold ret in H. injection H as <- _. reflexivity.
Qed.

(** A recognizer in progress cannot be finished: recycling its context
    stops at the assertion of [reset_tfun]. *)
Lemma fill_context_in_progress c s d st :
  tfun_state c st -> st <> idle ->
  exists tr, fill_context c s d = Crash assert_finish_result tr.
Proof.
  intros Hst Hne. unfold fill_context, reset_tfun.
  inversion Hst as [Hi|x Ht Hr Hx|x xs Ht Hr Hx]; [congruence| |];
    destruct c as [s0 d0 l t tp b k]; cbn [tfun tfun_pos] in Ht;
    rewrite Ht; cbn [tfun set_n n src dst];
    destruct (0 <? k); cbn; eexists; reflexivity.
Qed.

Lemma fill_context_inv c s d c' tr :
  fill_context c s d = Ok c' tr -> ctx_inv c'.
Proof.
  intros H. apply fill_context_spec in H. subst c'.
  exists idle. now constructor.
Qed.

Lemma framed_refl c : framed c c.
Proof. unfold framed. repeat split; auto. Qed.

Lemma framed_trans c1 c2 c3 : framed c1 c2 -> framed c2 c3 -> framed c1 c3.
Proof.
  unfold framed. intros (? & ? & ? & ? & Ha) (? & ? & ? & ? & Hb).
  repeat split; try congruence.
  destruct Ha, Hb; [left|right|right|right]; congruence.
Qed.

Lemma feed_tfun_framed c b t m k c' r tr :
  feed_tfun c b t m k = Ok (c', r) tr -> framed c c'.
Proof.
  unfold feed_tfun. intros H.
  apply bind_Ok_inv in H as (c1 & t1 & t2 & H1 & H & _).
  assert (F1 : framed c c1).
  { destruct (tfun c) eqn:Et.
    - unfold ret in H1. injection H1 as <- _. apply framed_refl.
    - unfold init_tfun in H1. rewrite Et in H1. cbn in H1.
      injection H1 as <- _.
      destruct c; unfold framed; cbn; repeat split; auto. }
  apply (framed_trans _ _ _ F1).
  destruct (tfun c1) as [s|]; [|discriminate].
  apply bind_Ok_inv in H as (s' & t3 & t4 & _ & H & _).
  destruct (lr_done (engine s')).
  - destruct (h_parse_finish s'); [|discriminate].
    unfold ret in H. injection H as <- _.
    destruct c1; unfold framed; cbn; repeat split; auto.
  - unfold ret in H. injection H as <- _.
    destruct c1; unfold framed; cbn; repeat split; auto.
Qed.

Lemma tfun_loop_framed b t k fuel : forall c m c' tr,
  tfun_loop fuel c b t m k = Ok c' tr -> framed c c'.
Proof.
  induction fuel as [|fuel IH]; intros c m c' tr H; cbn [tfun_loop] in H.
  - destruct (m <? k); [discriminate|].
    unfold ret in H. injection H as <- _. apply framed_refl.
  - destruct (m <? k).
    2:{ unfold ret in H. injection H as <- _. apply framed_refl. }
    apply bind_Ok_inv in H as ([c1 r] & t1 & t2 & H1 & H & _).
    apply feed_tfun_framed in H1. apply (framed_trans _ _ _ H1).
    destruct r as [r|].
    2:{ unfold ret in H. injection H as <- _. apply framed_refl. }
    apply bind_Ok_inv in H as (u0 & t30 & t40 & _ & H & _).
    apply bind_Ok_inv in H as (u & t3 & t4 & _ & H & _).
    apply bind_Ok_inv in H as (c2 & t5 & t6 & H2 & H & _).
    apply IH in H.
    assert (F2 : framed c1 (set_n c2 0)).
    { destruct (ast r).
      - unfold process_transport_payload in H2.
        apply bind_Ok_inv in H2 as (u1 & ? & ? & _ & H2 & _).
        apply bind_Ok_inv in H2 as (u2 & ? & ? & _ & H2 & _).
        unfold ret in H2. injection H2 as <- _.
        destruct c1; unfold framed; cbn; repeat split; auto.
      - unfold ret in H2. injection H2 as <- _.
        destruct c1; unfold framed; cbn; repeat split; auto. }
    apply (framed_trans _ _ _ F2 H).
Qed.

Lemma pts_framed c seg c' tr :
  process_transport_segment c seg = Ok c' tr ->
  src c' = src c /\ dst c' = dst c /\ buf c' = buf c /\
  (n c' = n c \/ n c' = 0) /\ last_segment c' = seg /\
  In (transport_segment seg) tr.
Proof.
  unfold process_transport_segment. rewrite transport_tokens_classify.
  intros H.
  apply bind_Ok_inv in H as (u & t1 & t2 & E1 & H & ->).
  unfold emit in E1. injection E1 as _ <-.
  apply bind_Ok_inv in H as (c1 & t3 & t4 & H1 & H & _).
  apply bind_Ok_inv in H as (c2 & t5 & t6 & H2 & H & _).
  unfold ret in H. injection H as <- _.
  unfold save_last_segment in H1.
  apply bind_Ok_inv in H1 as (u' & t7 & t8 & _ & H1 & _).
  unfold ret in H1. injection H1 as <- _.
  apply tfun_loop_framed in H2.
  destruct H2 as (Hs & Hd & Hb & Hl & Hn).
  destruct c, c2; cbn in *. subst.
  repeat split; auto.
Qed.

(** ** One frame *)

Lemma lookup_context_cases ok t s d r tr :
  lookup_context ok t s d = Ok r tr ->
  (exists pre c post,
     t = pre ++ c :: post /\ key c = (s, d) /\ ~ In (s, d) (keys pre) /\
     (pre = [] \/ List.length pre < CTXMAX)%nat /\
     r = (Some c, pre ++ post) /\ tr = []) \/
  (exists pre c post c',
     t = pre ++ c :: post /\ ~ In (s, d) (keys (pre ++ [c])) /\
     (CTXMAX <= List.length pre + 1)%nat /\
     (pre = [] \/ List.length pre < CTXMAX)%nat /\
     fill_context c s d = Ok c' tr /\ r = (Some c', pre ++ post)) \/
  (exists c',
     ~ In (s, d) (keys t) /\ (t = [] \/ List.length t < CTXMAX)%nat /\
     ok = true /\
     fill_context calloc_Context s d = Ok c' tr /\ r = (Some c', t)) \/
  (~ In (s, d) (keys t) /\ ok = false /\ r = (None, t) /\ tr = []).
Proof.
  unfold lookup_context. pose proof (scan_contexts_spec t s d 0) as Hs.
  destruct (scan_contexts t s d 0) as [pre c post|pre c post|]; cbn in Hs.
  - intros [= <- <-]. left. destruct Hs as (-> & Hk & Hn & Hl).
    exists pre, c, post. repeat split; auto.
  - intros H. apply bind_Ok_inv in H as (c' & t1 & t2 & Hf & H & ->).
    unfold ret in H. injection H as <- <-. rewrite app_nil_r.
    right; left. destruct Hs as (-> & Hn & Hge & Hl).
    exists pre, c, post, c'. repeat split; auto.
  - destruct ok.
    + intros H. apply bind_Ok_inv in H as (c' & t1 & t2 & Hf & H & ->).
      unfold ret in H. injection H as <- <-. rewrite app_nil_r.
      right; right; left. destruct Hs as (Hn & Hl).
      exists c'. repeat split; auto.
    + intros [= <- <-]. right; right; right. destruct Hs as (Hn & Hl).
      repeat split; auto.
Qed.

Lemma lookup_context_hit ok table s d pre c post :
  table = pre ++ c :: post ->
  src c = s -> dst c = d -> ~ In (s, d) (keys pre) ->
  (List.length table <= CTXMAX)%nat ->
  lookup_context ok table s d = Ok (Some c, pre ++ post) [].
Proof.
  intros -> Hs Hd Hn Hlen. unfold lookup_context.
  rewrite scan_contexts_hit; auto.
  - unfold key. congruence.
  - right. rewrite length_app in Hlen. cbn in Hlen. lia.
Qed.

Lemma first_match t s d :
  In (s, d) (keys t) ->
  exists pre c post,
    t = pre ++ c :: post /\ key c = (s, d) /\ ~ In (s, d) (keys pre).
Proof.
  induction t as [|x t IH]; intros Hin; [destruct Hin|].
  destruct (key_eq_dec (key x) (s, d)) as [E|Hne].
  - exists [], x, t. repeat split; auto.
  - destruct Hin as [E|Hin]; [contradiction|].
    destruct (IH Hin) as (pre & c & post & -> & Hk & Hn).
    exists (x :: pre), c, post. repeat split; auto.
    cbn. intros [E|E]; contradiction.
Qed.

(** C10: when the pair is in the table, [lookup_context] returns the very
    context that holds it, every field as it was, emits nothing, and
    leaves the other contexts as they were and in their order; only the
    position of the context changes (it becomes the head). *)
Theorem C10_lookup_hit_only_moves ok table s d :
  (List.length table <= CTXMAX)%nat ->
  In (s, d) (keys table) ->
  exists pre c post,
    table = pre ++ c :: post /\ src c = s /\ dst c = d /\
    ~ In (s, d) (keys pre) /\
    lookup_context ok table s d = Ok (Some c, pre ++ post) [].
Proof.
  intros Hlen Hin.
  destruct (first_match _ _ _ Hin) as (pre & c & post & E & Hk & Hn).
  exists pre, c, post. injection Hk as Hs Hd.
  repeat split; try assumption.
  now apply lookup_context_hit.
Qed.

Lemma lookup_context_Forall (Q : Context -> Prop) ok t s d r tr :
  (forall c c' tr', fill_context c s d = Ok c' tr' -> Q c') ->
  Forall Q t -> lookup_context ok t s d = Ok r tr -> Forall Q (table r).
Proof.
  intros Hfill Ht H.
  destruct (lookup_context_cases _ _ _ _ _ _ H)
    as [(pre & c & post & -> & _ & _ & _ & -> & _)
       |[(pre & c & post & c' & -> & _ & _ & _ & Hf & ->)
        |[(c' & _ & _ & _ & Hf & ->)|(_ & _ & -> & _)]]]; cbn [table].
  - apply Forall_app in Ht as [Hpre Hpost].
    inversion Hpost; subst. constructor; [assumption|].
    apply Forall_app; now split.
  - apply Forall_app in Ht as [Hpre Hpost].
    inversion Hpost; subst. constructor; [eapply Hfill; eassumption|].
    apply Forall_app; now split.
  - constructor; [eapply Hfill; eassumption|assumption].
  - assumption.
Qed.

Lemma lookup_context_head ok t s d c others tr :
  lookup_context ok t s d = Ok (Some c, others) tr -> key c = (s, d).
Proof.
  intros H.
  destruct (lookup_context_cases _ _ _ _ _ _ H)
    as [(pre & x & post & _ & Hk & _ & _ & E & _)
       |[(pre & x & post & c' & _ & _ & _ & _ & Hf & E)
        |[(c' & _ & _ & _ & Hf & E)|(_ & _ & E & _)]]];
    inversion E; subst; try assumption;
    apply fill_context_spec in Hf; subst; reflexivity.
Qed.

Lemma process_link_frame_cases ok t f raw t' tr :
  process_link_frame ok t f raw = Ok t' tr ->
  (contact (mkArrival f raw ok) = [] /\ t' = t) \/
  (contact (mkArrival f raw ok) = [(source f, destination f)] /\
   exists r tr0,
     lookup_context ok t (source f) (destination f) = Ok r tr0 /\
     match r with
     | (None, others) => t' = others /\ ok = false
     | (Some c, others) =>
         exists c', t' = c' :: others /\ updated raw c c'
     end).
Proof.
  unfold process_link_frame, contact. cbn [arr_frame]. intros H.
  apply bind_Ok_inv in H as (u & t1 & t2 & _ & H & _).
  destruct (func f).
  - destruct (frame_payload f) as [pl|].
    2:{ left. unfold ret in H. injection H as <- _. now split. }
    right. split; [reflexivity|].
    apply bind_Ok_inv in H as ([[c|] others] & t3 & t4 & Hl & H & _).
    + exists (Some c, others), t3. split; [assumption|].
      destruct (dnp3_p_transport_segment pl) as [seg|].
      * apply bind_Ok_inv in H as (c1 & t5 & t6 & Ha & H & _).
        apply bind_Ok_inv in H as (c2 & t7 & t8 & Hp & H & _).
        unfold ret in H. injection H as <- _.
        exists c2. split; [reflexivity|]. right.
        now exists c1, t5, seg, t7.
      * apply bind_Ok_inv in H as (u1 & t5 & t6 & _ & H & _).
        unfold ret in H. injection H as <- _.
        exists c. split; [reflexivity|now left].
    + exists (None, others), t3. split; [assumption|].
      apply bind_Ok_inv in H as (u1 & t5 & t6 & _ & H & _).
      unfold ret in H. injection H as <- _. split; [reflexivity|].
      destruct (lookup_context_cases _ _ _ _ _ _ Hl)
        as [(? & ? & ? & _ & _ & _ & _ & E & _)
           |[(? & ? & ? & ? & _ & _ & _ & _ & _ & E)
            |[(? & _ & _ & _ & _ & E)|(_ & Hok & _ & _)]]];
        try discriminate. assumption.
  - left. destruct (frame_payload f).
    + apply bind_Ok_inv in H as (u1 & t5 & t6 & _ & H & _).
      unfold ret in H. injection H as <- _. now split.
    + unfold ret in H. injection H as <- _. now split.
  - left. unfold ret in H. injection H as <- _. now split.
Qed.

Lemma append_raw_spec c raw c1 t1 :
  append_raw c raw = Ok c1 t1 ->
  src c1 = src c /\ dst c1 = dst c /\ tfun c1 = tfun c /\
  tfun_pos c1 = tfun_pos c /\ last_segment c1 = last_segment c /\
  ((c1 = c /\ BUFLEN < size_t (n c + Z.of_nat (List.length raw)) /\
    t1 = [log_error (log_buf_overflow (n c) (Z.of_nat (List.length raw)))])
   \/
   (n c1 = size_t (n c + Z.of_nat (List.length raw)) /\ n c1 <= BUFLEN /\
    buf c1 = memcpy_at (buf c) (n c) raw /\ t1 = [])).
Proof.
  unfold append_raw.
  destruct (size_t (n c + Z.of_nat (List.length raw)) <=? BUFLEN) eqn:E.
  - apply Z.leb_le in E. intros [= <- <-].
    destruct c; cbn in *. repeat (split; [reflexivity|]).
    right. repeat split; auto.
  - apply Z.leb_gt in E. cbn. intros [= <- <-].
    repeat (split; [reflexivity|]). left. repeat split; auto.
Qed.

Lemma updated_key raw c c' : updated raw c c' -> key c' = key c.
Proof.
  intros [->|(c1 & t1 & seg & t2 & Ha & Hp)]; [reflexivity|].
  apply append_raw_spec in Ha as (Hs & Hd & _).
  apply pts_framed in Hp as (Hs' & Hd' & _).
  unfold key. congruence.
Qed.

Lemma updated_inv raw c c' : updated raw c c' -> ctx_inv c -> ctx_inv c'.
Proof.
  intros [->|(c1 & t1 & seg & t2 & Ha & Hp)] Hinv; [assumption|].
  apply append_raw_spec in Ha as (_ & _ & Ht & Hp1 & _).
  assert (Hinv1 : ctx_inv c1).
  { destruct Hinv as [st Hst]. exists st.
    inversion Hst; subst; [apply ts_idle|apply ts_A1|apply ts_pe];
      congruence. }
  now apply (pts_inv _ _ _ _ Hinv1) in Hp.
Qed.

Lemma updated_n raw c c' :
  updated raw c c' -> 0 <= BUFLEN ->
  0 <= n c <= BUFLEN -> 0 <= n c' <= BUFLEN.
Proof.
  intros [->|(c1 & t1 & seg & t2 & Ha & Hp)] HB Hn; [assumption|].
  apply append_raw_spec in Ha as (_ & _ & _ & _ & _ & Ha).
  apply pts_framed in Hp as (_ & _ & _ & Hn' & _).
  assert (0 <= n c1 <= BUFLEN).
  { destruct Ha as [(-> & _)|(E & Hle & _)]; [assumption|].
    split; [|assumption]. rewrite E. apply size_t_range. }
  destruct Hn' as [->| ->]; lia.
Qed.

(** ** Most-recently-used order *)

Lemma NoDup_remove_key k l : NoDup l -> NoDup (remove key_eq_dec k l).
Proof.
  induction 1 as [|x l Hx Hl IH]; cbn; [constructor|].
  destruct (key_eq_dec k x); [assumption|].
  constructor; [|assumption].
  intros Hin. apply in_remove in Hin as [Hin _]. contradiction.
Qed.

Lemma NoDup_touch l k : NoDup l -> NoDup (touch l k).
Proof.
  intros H. unfold touch. constructor.
  - apply remove_In.
  - now apply NoDup_remove_key.
Qed.

Lemma NoDup_firstn {A} k (l : list A) : NoDup l -> NoDup (firstn k l).
Proof.
  intros H. rewrite <- (firstn_skipn k l) in H.
  now apply NoDup_app_remove_r in H.
Qed.

Lemma In_firstn {A} k (l : list A) x : In x (firstn k l) -> In x l.
Proof.
  intros H. rewrite <- (firstn_skipn k l). apply in_or_app. now left.
Qed.

Lemma firstn_remove_firstn k l : forall c,
  NoDup l ->
  firstn c (remove key_eq_dec k (firstn (S c) l)) =
  firstn c (remove key_eq_dec k l).
Proof.
  induction l as [|a l IH]; intros c Hnd; [reflexivity|].
  inversion Hnd as [|? ? Ha Hl]; subst.
  rewrite firstn_cons. cbn [remove].
  destruct (key_eq_dec k a) as [->|Hne].
  - rewrite !notin_remove; auto.
    + rewrite firstn_firstn. now rewrite Nat.min_id.
    + intros Hin. apply Ha. eapply In_firstn. eassumption.
  - destruct c as [|c]; [reflexivity|].
    rewrite !firstn_cons. f_equal. now apply IH.
Qed.

Lemma firstn_touch c l k :
  (1 <= c)%nat -> NoDup l ->
  firstn c (touch (firstn c l) k) = firstn c (touch l k).
Proof.
  intros Hc Hnd. destruct c as [|c]; [lia|].
  unfold touch. rewrite !firstn_cons. f_equal.
  now apply firstn_remove_firstn.
Qed.

Lemma In_touch l a k : In k (touch l a) <-> k = a \/ In k l.
Proof.
  unfold touch. split.
  - intros [->|H]; [now left|]. apply in_remove in H as [H _]. now right.
  - intros [->|H]; [now left|].
    destruct (key_eq_dec k a) as [->|Hne]; [now left|].
    right. now apply in_in_remove.
Qed.

Lemma In_fold_touch h : forall l k,
  In k (fold_left touch h l) <-> In k h \/ In k l.
Proof.
  induction h as [|a h IH]; intros l k; cbn.
  - tauto.
  - rewrite IH, In_touch. intuition congruence.
Qed.

Lemma NoDup_fold_touch h : forall l, NoDup l -> NoDup (fold_left touch h l).
Proof.
  induction h as [|a h IH]; intros l Hl; cbn; [assumption|].
  apply IH. now apply NoDup_touch.
Qed.

Lemma mru_length h :
  (List.length (nodup key_eq_dec h) <= List.length (mru h))%nat.
Proof.
  apply NoDup_incl_length; [apply NoDup_nodup|].
  intros k Hk. apply nodup_In in Hk. apply In_fold_touch. now left.
Qed.

Lemma keys_app a b : keys (a ++ b) = keys a ++ keys b.
Proof. apply map_app. Qed.

Lemma lookup_context_keys ok t s d r tr :
  (1 <= CTXMAX)%nat -> NoDup (keys t) -> (List.length t <= CTXMAX)%nat ->
  lookup_context ok t s d = Ok r tr ->
  keys (table r) = firstn CTXMAX (touch (keys t) (s, d)) \/
  (table r = t /\ ok = false).
Proof.
  intros HC Hnd Hlen H.
  destruct (lookup_context_cases _ _ _ _ _ _ H)
    as [(pre & c & post & -> & Hk & Hn & _ & -> & _)
       |[(pre & c & post & c' & -> & Hn & Hge & Hlt & Hf & ->)
        |[(c' & Hn & Hlt & _ & Hf & ->)|(_ & Hok & -> & _)]]]; cbn [table].
  - left. rewrite keys_app in *. cbn [keys map] in *. fold (keys post) in *.
    fold (keys pre) in *. rewrite Hk in *.
    unfold touch. rewrite remove_app, remove_cons.
    apply NoDup_remove in Hnd as [Hnd Hnotin].
    rewrite !notin_remove.
    + rewrite firstn_all2; [now rewrite keys_app|].
      cbn. rewrite length_app in *. unfold keys in *.
      rewrite !length_map. cbn in Hlen. lia.
    + intros Hin. apply Hnotin. apply in_or_app. now right.
    + assumption.
  - left. apply fill_context_spec in Hf.
    assert (Hpost : post = []).
    { rewrite length_app in Hlen. cbn in Hlen.
      destruct post; [reflexivity|]. cbn in Hlen.
      destruct Hlt as [->|Hlt]; cbn in *; lia. }
    subst post c'. rewrite app_nil_r.
    unfold touch. rewrite notin_remove by assumption.
    cbn [keys map key src dst]. fold (keys pre).
    assert (Hl : List.length (keys pre) = (CTXMAX - 1)%nat).
    { unfold keys. rewrite length_map.
      destruct Hlt as [->|Hlt]; cbn in *; lia. }
    destruct CTXMAX as [|c0]; [lia|].
    rewrite firstn_cons. f_equal. rewrite keys_app, firstn_app.
    replace (c0 - List.length (keys pre))%nat with 0%nat by lia.
    rewrite firstn_all2 by lia. cbn. now rewrite app_nil_r.
  - left. apply fill_context_spec in Hf. subst c'.
    unfold touch. rewrite notin_remove by assumption.
    cbn [keys map key src dst]. fold (keys t).
    rewrite firstn_all2; [reflexivity|].
    cbn. unfold keys. rewrite length_map.
    destruct Hlt as [->|Hlt]; cbn; lia.
  - right. now split.
Qed.

Lemma process_link_frame_keys ok t f raw t' tr :
  (1 <= CTXMAX)%nat -> NoDup (keys t) -> (List.length t <= CTXMAX)%nat ->
  process_link_frame ok t f raw = Ok t' tr ->
  (contact (mkArrival f raw ok) = [] /\ t' = t) \/
  (contact (mkArrival f raw ok) = [(source f, destination f)] /\
   (keys t' = firstn CTXMAX (touch (keys t) (source f, destination f)) \/
    (keys t' = keys t /\ ok = false))).
Proof.
  intros HC Hnd Hlen H.
  destruct (process_link_frame_cases _ _ _ _ _ _ H)
    as [?|(Hc & r & tr0 & Hl & Hr)]; [now left|].
  right. split; [assumption|].
  pose proof (lookup_context_keys _ _ _ _ _ _ HC Hnd Hlen Hl) as Hk.
  destruct r as [[c|] others].
  - destruct Hr as (c' & -> & Hu). apply updated_key in Hu.
    cbn [table keys map] in *. rewrite Hu.
    destruct Hk as [Hk|[Hk Hok]]; [now left|].
    right. rewrite <- Hk. now split.
  - destruct Hr as [-> Hok]. cbn [table] in Hk.
    destruct Hk as [Hk|[Hk _]]; [now left|].
    right. rewrite Hk. now split.
Qed.

(** ** Invariants of the dissector *)

Lemma dissect_invariant (P : list Context -> Prop) :
  (forall ok t f raw t' tr,
     P t -> process_link_frame ok t f raw = Ok t' tr -> P t') ->
  forall arrivals t t' tr,
    P t -> dissect t arrivals = Ok t' tr -> P t'.
Proof.
  intros Hstep. induction arrivals as [|a rest IH]; intros t t' tr Ht H.
  - cbn in H. unfold ret in H. injection H as <- _. assumption.
  - cbn [dissect] in H.
    apply bind_Ok_inv in H as (t1 & tr1 & tr2 & H1 & H & _).
    eapply IH; [|eassumption]. eapply Hstep; eassumption.
Qed.

Lemma process_link_frame_Forall (Q : Context -> Prop) ok t f raw t' tr :
  (forall c s d c' tr', fill_context c s d = Ok c' tr' -> Q c') ->
  (forall c c', updated raw c c' -> Q c -> Q c') ->
  Forall Q t -> process_link_frame ok t f raw = Ok t' tr -> Forall Q t'.
Proof.
  intros Hfill Hupd Ht H.
  destruct (process_link_frame_cases _ _ _ _ _ _ H)
    as [[_ ->]|(_ & r & tr0 & Hl & Hr)]; [assumption|].
  assert (Hq : Forall Q (table r)).
  { eapply lookup_context_Forall; [|eassumption|eassumption].
    intros c c' tr' Hf. eapply Hfill. eassumption. }
  destruct r as [[c|] others]; cbn [table] in Hq.
  - destruct Hr as (c' & -> & Hu). inversion Hq; subst.
    constructor; [|assumption]. eapply Hupd; eassumption.
  - destruct Hr as [-> _]. assumption.
Qed.

Lemma dissect_ctx_inv arrivals t t' tr :
  Forall ctx_inv t -> dissect t arrivals = Ok t' tr -> Forall ctx_inv t'.
Proof.
  apply (dissect_invariant (Forall ctx_inv)).
  intros ok t0 f raw t1 tr1 Ht H.
  eapply process_link_frame_Forall; [| |eassumption|eassumption].
  - intros c s d c' tr' Hf. eapply fill_context_inv. eassumption.
  - intros c c' Hu. eapply updated_inv. eassumption.
Qed.

Lemma dissect_n_bound arrivals t t' tr :
  0 <= BUFLEN ->
  Forall (fun c => 0 <= n c <= BUFLEN) t ->
  dissect t arrivals = Ok t' tr ->
  Forall (fun c => 0 <= n c <= BUFLEN) t'.
Proof.
  intros HB.
  apply (dissect_invariant (Forall (fun c => 0 <= n c <= BUFLEN))).
  intros ok t0 f raw t1 tr1 Ht H.
  eapply process_link_frame_Forall; [| |eassumption|eassumption].
  - intros c s d c' tr' Hf. apply fill_context_spec in Hf. subst c'.
    cbn. lia.
  - intros c c' Hu Hn. eapply updated_n; eassumption.
Qed.

Lemma table_shape_step ok t f raw t' tr :
  (1 <= CTXMAX)%nat ->
  NoDup (keys t) /\ (List.length t <= CTXMAX)%nat ->
  process_link_frame ok t f raw = Ok t' tr ->
  NoDup (keys t') /\ (List.length t' <= CTXMAX)%nat.
Proof.
  intros HC [Hnd Hlen] H.
  destruct (process_link_frame_keys _ _ _ _ _ _ HC Hnd Hlen H)
    as [[_ ->]|(_ & [Hk|[Hk _]])]; [now split| |].
  - rewrite <- (length_map key t'). fold (keys t'). rewrite Hk. split.
    + apply NoDup_firstn. now apply NoDup_touch.
    + apply firstn_le_length.
  - rewrite <- (length_map key t'). fold (keys t'). rewrite Hk. split.
    + assumption.
    + unfold keys. now rewrite length_map.
Qed.

Lemma dissect_mru arrivals : forall t l t' tr,
  (1 <= CTXMAX)%nat -> NoDup l -> keys t = firstn CTXMAX l ->
  Forall (fun a => arr_calloc_ok a = true) arrivals ->
  dissect t arrivals = Ok t' tr ->
  keys t' = firstn CTXMAX (fold_left touch (contacts arrivals) l).
Proof.
  induction arrivals as [|a rest IH]; intros t l t' tr HC Hl Hk Hok H.
  - cbn in H. unfold ret in H. injection H as <- _. assumption.
  - cbn [dissect] in H.
    apply bind_Ok_inv in H as (t1 & tr1 & tr2 & H1 & H & _).
    inversion Hok as [|? ? Ha Hrest]; subst.
    assert (Hnd : NoDup (keys t)).
    { rewrite Hk. now apply NoDup_firstn. }
    assert (Hlen : (List.length t <= CTXMAX)%nat).
    { rewrite <- (length_map key t). fold (keys t). rewrite Hk.
      apply firstn_le_length. }
    destruct a as [f raw ok]. cbn [arr_frame arr_raw arr_calloc_ok] in *.
    cbn [contacts flat_map]. rewrite fold_left_app.
    destruct (process_link_frame_keys _ _ _ _ _ _ HC Hnd Hlen H1)
      as [[-> ->]|(-> & [Hk1|[_ Hf]])]; [| |congruence].
    + cbn [fold_left]. eapply IH; eassumption.
    + cbn [fold_left]. eapply IH; try eassumption.
      * now apply NoDup_touch.
      * rewrite Hk1, Hk. now apply firstn_touch.
Qed.

(** ** The table, the positions and the buffers *)

(** C5: at every state the dissector reaches from the empty table, the
    table holds at most [CTXMAX] contexts and no (src,dst) pair twice;
    when no allocation failed, its pairs are, in order, the [CTXMAX] most
    recently used ones, and once more than [CTXMAX] distinct pairs were
    seen it holds exactly [CTXMAX] contexts. *)
Theorem C5_lru_table arrivals t tr :
  (1 <= CTXMAX)%nat ->
  dissect [] arrivals = Ok t tr ->
  (List.length t <= CTXMAX)%nat /\
  NoDup (keys t) /\
  (Forall (fun a => arr_calloc_ok a = true) arrivals ->
   keys t = firstn CTXMAX (mru (contacts arrivals)) /\
   ((CTXMAX < List.length (nodup key_eq_dec (contacts arrivals)))%nat ->
    List.length t = CTXMAX)).
Proof.
  intros HC H.
  assert (Hshape : NoDup (keys t) /\ (List.length t <= CTXMAX)%nat).
  { apply (dissect_invariant
             (fun t => NoDup (keys t) /\ (List.length t <= CTXMAX)%nat))
      with (arrivals := arrivals) (t := []) (tr := tr).
    - intros ok t0 f raw t1 tr1 Ht H1.
      eapply table_shape_step; eassumption.
    - split; [constructor|cbn; lia].
    - assumption. }
  destruct Hshape as [Hnd Hlen].
  split; [assumption|split; [assumption|]]. intros Hok.
  assert (H0 : keys [] = firstn CTXMAX []) by now rewrite firstn_nil.
  pose proof (dissect_mru arrivals [] [] t tr HC (NoDup_nil _) H0 Hok H)
    as Hk.
  split; [exact Hk|].
  intros Hmany.
  rewrite <- (length_map key t). fold (keys t). rewrite Hk.
  apply firstn_length_le. fold (mru (contacts arrivals)).
  pose proof (mru_length (contacts arrivals)). lia.
Qed.

Lemma complete_trace ctx a :
  complete ctx a = Ok (set_n ctx 0) (delivery (n ctx) (buf ctx) a).
Proof.
  unfold complete, process_transport_payload, delivery, app_event,
    sink_event.
  destruct a as [b|]; [|reflexivity].
  destruct (dnp3_p_app_message b) as [[ty|f]|]; reflexivity.
Qed.

Lemma restarts_view ctx st seg :
  tfun_state ctx st ->
  restarts ctx seg =
  match st, classify seg (last_segment ctx) with
  | idle, _ => true
  | _, cls_gap => fin seg
  | _, _ => false
  end.
Proof.
  intros Hst. unfold restarts. rewrite transport_tokens_classify.
  cbn [fst hd].
  inversion Hst as [Ht|x Ht Hr|x xs Ht Hr]; subst; rewrite Ht;
    [reflexivity| |];
    destruct (classify seg (last_segment ctx)); destruct (fin seg);
    reflexivity.
Qed.

Lemma tokens_length seg last :
  Z.of_nat (List.length (fst (transport_tokens seg (Some last)))) =
  if fin seg then 2 else 1.
Proof.
  rewrite transport_tokens_classify. cbn [fst]. now destruct (fin seg).
Qed.

(** The position after one segment, for each move of the recognizer. *)
Lemma pts_pos ctx st seg ctx' tr :
  tfun_state ctx st ->
  process_transport_segment ctx seg = Ok ctx' tr ->
  tfun_pos ctx' =
  size_t ((if restarts ctx seg then 0 else tfun_pos ctx) +
          Z.of_nat (List.length
                      (fst (transport_tokens seg
                              (Some (last_segment ctx)))))).
Proof.
  intros Hst H. pose proof (pts_Ok_len _ _ _ _ H) as Hlen.
  rewrite (restarts_view _ _ _ Hst), tokens_length.
  rewrite (process_transport_segment_unfold _ _ Hlen) in H.
  destruct (tfun_state_engine_at _ _ seg Hst)
    as (e & p0 & Hat & He & Hr & -> & ->).
  revert H.
  destruct (fin seg) eqn:Hz; cbv zeta;
    cbn [List.length Z.of_nat Pos.of_succ_nat Pos.succ];
    [rewrite (tfun_loop_two _ _ _ _ _ _ Hat He)
    |rewrite (tfun_loop_one _ _ _ _ _ _ Hat He)];
    clear Hat He;
    destruct st, (classify seg (last_segment ctx));
    unfold eng1;
    cbn -[size_t complete series_payload Z.add act_ttok];
    rewrite ?act_ttok_here;
    cbn -[size_t complete Z.add act_ttok];
    try (change [Some seg] with (map Some [seg]); rewrite <- map_app);
    rewrite ?series_payload_Some;
    cbn -[size_t complete Z.add act_ttok];
    rewrite ?complete_trace;
    cbn -[size_t complete Z.add act_ttok delivery];
    rewrite ?complete_trace;
    cbn -[size_t complete Z.add act_ttok delivery];
    intros H; try discriminate; injection H as <- _;
    destruct ctx as [s d l t tp b k];
    cbn -[size_t Z.add]; reflexivity.
Qed.

(** C7 (amended): [tfun_pos] restarts with every recognizer.  For every
    context the dissector reaches: while its recognizer is in progress,
    [tfun_pos] is the number of tokens that recognizer has consumed (its
    position, within [size_t]); and when the segment of the next frame
    has been processed, [tfun_pos] is the number of tokens of that
    segment added to the old [tfun_pos] if a recognizer was in progress
    and the call started no new one, and added to 0 otherwise; so it
    grows by the number of tokens as long as one recognizer stays in
    progress. *)
Theorem C7_tfun_pos_counts_tokens arrivals t tr c :
  dissect [] arrivals = Ok t tr -> In c t ->
  (forall s, tfun c = Some s -> tfun_pos c = pos s /\ in_range (tfun_pos c)) /\
  (forall raw c1 tr1 seg c' tr',
     append_raw c raw = Ok c1 tr1 ->
     process_transport_segment c1 seg = Ok c' tr' ->
     let k := Z.of_nat (List.length
                          (fst (transport_tokens seg
                                  (Some (last_segment c))))) in
     tfun_pos c' = size_t ((if restarts c seg then 0 else tfun_pos c) + k) /\
     (restarts c seg = false -> tfun_pos c + k < 2 ^ SIZE_WIDTH ->
      tfun_pos c' = tfun_pos c + k)).
Proof.
  intros H Hin.
  assert (Hinv : Forall ctx_inv t).
  { eapply dissect_ctx_inv; [|eassumption]. constructor. }
  rewrite Forall_forall in Hinv. destruct (Hinv c Hin) as [st Hst].
  split.
  - intros s Ht.
    inversion Hst as [Hi|x Hs Hr|x xs Hs Hr]; subst; try congruence;
      rewrite Hs in Ht; injection Ht as <-; split;
      (reflexivity || assumption).
  - intros raw c1 tr1 seg c' tr' Ha Hp. cbv zeta.
    apply append_raw_spec in Ha as (_ & _ & Ht & Hp1 & Hl & _).
    assert (Hst1 : tfun_state c1 st).
    { inversion Hst; subst; [apply ts_idle|apply ts_A1|apply ts_pe];
        congruence. }
    pose proof (pts_pos _ _ _ _ _ Hst1 Hp) as E.
    assert (Hr : restarts c1 seg = restarts c seg).
    { unfold restarts. now rewrite Ht, Hl. }
    rewrite Hr, Hl, Hp1 in E. split; [exact E|].
    intros Hno Hk. rewrite E, Hno. apply size_t_small.
    unfold restarts in Hno.
    inversion Hst as [Hi|x Hs Hrg|x xs Hs Hrg]; subst.
    + rewrite Hi in Hno. discriminate.
    + unfold in_range in *. rewrite tokens_length in *.
      destruct (fin seg); lia.
    + unfold in_range in *. rewrite tokens_length in *.
      destruct (fin seg); lia.
Qed.

(** C9: at every state the dissector reaches, every context has
    [0 <= n <= BUFLEN]; and when the raw frame does not fit, the frame is
    handled as follows: the overflow is logged, the context is kept with
    its buffer untouched, and its segment is processed all the same. *)
Theorem C9_buffer_bound arrivals t tr :
  0 <= BUFLEN ->
  dissect [] arrivals = Ok t tr ->
  Forall (fun c => 0 <= n c <= BUFLEN) t /\
  (forall ok f raw pl seg c others tr1,
     func f = DNP3_UNCONFIRMED_USER_DATA ->
     frame_payload f = Some pl ->
     dnp3_p_transport_segment pl = Some seg ->
     lookup_context ok t (source f) (destination f)
       = Ok (Some c, others) tr1 ->
     BUFLEN < size_t (n c + Z.of_nat (List.length raw)) ->
     process_link_frame ok t f raw =
       (Ok tt (link_frame f raw :: tr1 ++
               [log_error
                  (log_buf_overflow (n c) (Z.of_nat (List.length raw)))]) ;;;
        c' <- process_transport_segment c seg ;; ret (c' :: others)) /\
     (forall t' tr',
        process_link_frame ok t f raw = Ok t' tr' ->
        exists c', t' = c' :: others /\ key c' = (source f, destination f) /\
                   buf c' = buf c /\ (n c' = n c \/ n c' = 0))).
Proof.
  intros HB H. split.
  - eapply dissect_n_bound; [eassumption| |eassumption]. constructor.
  - intros ok f raw pl seg c others tr1 Hf Hpl Hseg Hl Hov.
    assert (E : process_link_frame ok t f raw =
      (Ok tt (link_frame f raw :: tr1 ++
              [log_error
                 (log_buf_overflow (n c) (Z.of_nat (List.length raw)))]) ;;;
       c' <- process_transport_segment c seg ;; ret (c' :: others))).
    { unfold process_link_frame. rewrite Hf, Hpl.
      rewrite (bind_Ok_l _ _ _ _ Hl). rewrite Hseg.
      unfold append_raw. apply Z.leb_gt in Hov. rewrite Hov.
      cbn [emit bind ret app].
      destruct (process_transport_segment c seg) as [c' t2|f2 t2]; cbn;
        rewrite ?app_nil_r, <- ?app_assoc; reflexivity. }
    split; [assumption|].
    intros t' tr' H'. rewrite E in H'.
    apply bind_Ok_inv in H' as (u & t1 & t2 & _ & H' & _).
    apply bind_Ok_inv in H' as (c' & t3 & t4 & Hp & H' & _).
    unfold ret in H'. injection H' as <- _.
    exists c'. split; [reflexivity|].
    apply pts_framed in Hp as (Hs & Hd & Hb & Hn & _).
    apply lookup_context_head in Hl.
    repeat split; try assumption.
    unfold key in *. congruence.
Qed.

(** ** The iteration bound of [tfun_loop] *)

Lemma out_of_fuel_bind {A B} (m : M A) (k : A -> M B) :
  out_of_fuel (bind m k) = false ->
  out_of_fuel m = false /\
  forall a t, m = Ok a t -> out_of_fuel (k a) = false.
Proof.
  unfold bind. destruct m as [a t|f t].
  - intros H. split; [reflexivity|]. intros a' t' [= <- <-].
    destruct (k a) as [b t'|f t']; [reflexivity|exact H].
  - intros H. split; [exact H|]. discriminate.
Qed.

Lemma tfun_loop_S fuel c b t m k :
  tfun_loop (S fuel) c b t m k =
  if m <? k then
    cr <- feed_tfun c b t m k ;;
    match cr with
    | (c1, None) => ret c1
    | (c1, Some r) =>
        assert (bit_length r mod 8 =? 0) assert_bit_length ;;;
        let consumed := size_t (bit_length r / 8 - tfun_pos c1) in
        assert (0 <? consumed) assert_consumed ;;;
        c2 <- (match ast r with
               | Some b0 => process_transport_payload c1 b0
               | None => ret c1
               end) ;;
        tfun_loop fuel (set_n c2 0) b t (size_t (m + consumed)) k
    end
  else ret c.
Proof. reflexivity. Qed.

(** A result reached within the bound is the result with any larger
    bound: the loop had ended. *)
Lemma tfun_loop_fuel b t k fuel : forall c m,
  out_of_fuel (tfun_loop fuel c b t m k) = false ->
  tfun_loop (S fuel) c b t m k = tfun_loop fuel c b t m k.
Proof.
  induction fuel as [|fuel IH]; intros c m H.
  - cbn [tfun_loop] in *. destruct (m <? k); [discriminate|reflexivity].
  - rewrite (tfun_loop_S (S fuel)), (tfun_loop_S fuel).
    rewrite (tfun_loop_S fuel) in H.
    destruct (m <? k); [|reflexivity].
    apply out_of_fuel_bind in H as [_ H].
    destruct (feed_tfun c b t m k) as [[c1 r] t1|f t1]; [|reflexivity].
    specialize (H _ _ eq_refl). cbn [bind].
    destruct r as [r|]; [|reflexivity].
    cbv zeta in *.
    apply out_of_fuel_bind in H as [_ H].
    destruct (assert (bit_length r mod 8 =? 0) assert_bit_length)
      as [u0 t0|f t0]; [|reflexivity].
    specialize (H _ _ eq_refl). cbn [bind].
    apply out_of_fuel_bind in H as [_ H].
    destruct (assert (0 <? size_t (bit_length r / 8 - tfun_pos c1))
                     assert_consumed) as [u t2|f t2]; [|reflexivity].
    specialize (H _ _ eq_refl). cbn [bind].
    apply out_of_fuel_bind in H as [_ H].
    destruct (match ast r with
              | Some b0 => process_transport_payload c1 b0
              | None => ret c1
              end) as [c2 t3|f t3]; [|reflexivity].
    specialize (H _ _ eq_refl). cbn [bind].
    rewrite (IH _ _ H). reflexivity.
Qed.

Lemma pts_in_bound ctx seg :
  ctx_inv ctx -> out_of_fuel (process_transport_segment ctx seg) = false.
Proof.
  intros [st Hst].
  destruct (Z_le_gt_dec (len seg) SEGMAX) as [Hlen|Hlen].
  - pose proof (pts_spec _ _ _ Hst Hlen) as Hs.
    destruct (tfun_next st (classify seg (last_segment ctx)) seg)
      as [[st' outs]|].
    + destruct Hs as (c & t & -> & _). reflexivity.
    + rewrite Hs. reflexivity.
  - rewrite pts_len_crash by lia. reflexivity.
Qed.

(** The first token of a segment is never the orphan token, whatever
    the context: [process_transport_segment] hands [transport_tokens] the
    address of [ctx->last_segment], which is never NULL. *)
Lemma first_token_never_orphan seg last :
  In (hd tok_Z (fst (transport_tokens seg (Some last))))
     [tok_A; tok_equ; tok_pls; tok_gap].
Proof.
  rewrite transport_tokens_classify. cbn [fst hd].
  destruct (classify seg last); cbn; auto.
Qed.

(** A segment with [fir] unset that meets an idle recognizer is
    announced and ignored: no payload follows. *)
Lemma nonfirst_at_idle_ignored ctx seg :
  tfun_state ctx idle -> fir seg = false -> len seg <= SEGMAX ->
  exists ctx' tr,
    process_transport_segment ctx seg = Ok ctx' tr /\
    In (transport_segment seg) tr /\ payloads tr = [] /\
    tfun_state ctx' idle.
Proof.
  intros Hst Hfir Hlen. pose proof (pts_spec _ _ _ Hst Hlen) as Hs.
  pose proof (classify_not_first seg (last_segment ctx) Hfir) as Hc.
  assert (Hn : tfun_next idle (classify seg (last_segment ctx)) seg =
               Some (idle, if fin seg then [None; None] else [None])).
  { destruct (classify seg (last_segment ctx)); [contradiction| | |];
      reflexivity. }
  rewrite Hn in Hs.
  destruct Hs as (c & t & E & Hst' & _ & _ & _ & _ & _ & Hp).
  exists c, (transport_segment seg :: t). repeat split; auto.
  - now left.
  - cbn [payloads]. rewrite Hp. now destruct (fin seg).
Qed.

(** ** The tokenizer *)

Lemma segment_equal_sym_eq a b : a = b -> segment_equal a b = true.
Proof. intros ->. apply segment_equal_refl. Qed.

(** X1: [segment_equal] holds exactly for two segments with the same
    [fir], [fin], [seq] and payload bytes; and a segment equal to the
    last one never carries the successor of its sequence number, so the
    tests for [=] and [+] in [transport_tokens] exclude each other. *)
Theorem segment_equal_iff a b :
  (segment_equal a b = true <-> a = b) /\
  (segment_equal a b = true -> seq a <> (seq b + 1) mod 64).
Proof.
  split; [split; [apply segment_equal_eq|apply segment_equal_sym_eq]|].
  intros H E. apply segment_equal_eq in H. subst b.
  symmetry in E. now apply succ_mod_64_neq in E.
Qed.

(** X2: [transport_tokens] writes one token for the segment, [A] exactly
    when [fir] is set and [_] exactly when [fir] is unset and there is no
    last segment, followed by [Z] exactly when [fin] is set; it returns 1
    or 2, and the value array holds the segment and NULL. *)
Theorem transport_tokens_shape seg last :
  exists c,
    fst (transport_tokens seg last) = c :: (if fin seg then [tok_Z] else []) /\
    snd (transport_tokens seg last) = [Some seg; None] /\
    List.length (fst (transport_tokens seg last))
      = (if fin seg then 2 else 1)%nat /\
    In c [tok_A; tok_equ; tok_pls; tok_gap; tok_orphan] /\
    (c = tok_A <-> fir seg = true) /\
    (c = tok_orphan <-> fir seg = false /\ last = None).
Proof.
  unfold transport_tokens.
  destruct (fir seg) eqn:Hf.
  - exists tok_A. destruct (fin seg); cbn;
      (repeat split; try reflexivity; try tauto; try discriminate;
       intros [? _]; discriminate).
  - destruct last as [l|].
    + destruct (segment_equal seg l);
        [|destruct (seq seg =? (seq l + 1) mod 64)];
        eexists; destruct (fin seg); cbn;
        (repeat split; try reflexivity; try tauto; try discriminate;
         intros [_ ?]; discriminate).
    + exists tok_orphan. destruct (fin seg); cbn;
        (repeat split; try reflexivity; try tauto; try discriminate).
Qed.

(** ** One segment: the events and the ways to stop *)


(** The events of one segment, for each move of the recognizer. *)
Lemma pts_trace ctx st seg :
  tfun_state ctx st -> len seg <= SEGMAX ->
  match tfun_next st (classify seg (last_segment ctx)) seg with
  | None => True
  | Some (st', outs) =>
      trace (process_transport_segment ctx seg) =
      transport_segment seg :: flat_map (delivery (n ctx) (buf ctx)) outs
  end.
Proof.
  intros Hst Hlen.
  rewrite (process_transport_segment_unfold _ _ Hlen).
  destruct (tfun_state_engine_at _ _ seg Hst)
    as (e & p0 & Hat & He & Hr & -> & ->).
  destruct (fin seg) eqn:Hz; cbv zeta;
    cbn [List.length Z.of_nat Pos.of_succ_nat Pos.succ];
    [rewrite (tfun_loop_two _ _ _ _ _ _ Hat He)
    |rewrite (tfun_loop_one _ _ _ _ _ _ Hat He)];
    clear Hat He;
    destruct st, (classify seg (last_segment ctx));
    cbn [tfun_next]; rewrite ?Hz; try exact I;
    unfold eng1;
    cbn -[size_t complete series_payload Z.add act_ttok];
    rewrite ?act_ttok_here;
    cbn -[size_t complete Z.add act_ttok];
    try (change [Some seg] with (map Some [seg]); rewrite <- map_app);
    rewrite ?series_payload_Some;
    cbn -[size_t complete Z.add act_ttok];
    rewrite ?complete_trace;
    cbn -[size_t complete Z.add act_ttok delivery];
    rewrite ?complete_trace;
    cbn -[size_t complete Z.add act_ttok delivery];
    destruct ctx as [s d l t tp b k];
    unfold series_bytes;
    cbn -[size_t Z.add delivery app_event];
    rewrite ?app_nil_r; reflexivity.
Qed.

Lemma tfun_next_None st c seg :
  tfun_next st c seg = None <-> (exists x xs, st = in_pe x xs) /\ c = cls_A.
Proof.
  split.
  - destruct st, c; cbn [tfun_next]; destruct (fin seg); try discriminate;
      intros _; split; try reflexivity; eexists; eexists; reflexivity.
  - intros [(x & xs & ->) ->]. reflexivity.
Qed.

Lemma tfun_next_outs st c seg st' outs k b :
  tfun_next st c seg = Some (st', outs) ->
  exists a,
    flat_map (delivery k b) outs = delivery k b a /\
    somes outs = somes [a] /\
    (fin seg = false -> a = None) /\
    (fin seg = true -> st' = idle) /\
    (st' = idle <-> outs <> []).
Proof.
  intros H. exists (hd_error (somes outs)).
  destruct st, c; cbn [tfun_next] in H; destruct (fin seg);
    inversion H; subst; clear H; cbn [somes hd_error flat_map app];
    rewrite ?app_nil_r;
    (split; [reflexivity|]); (split; [reflexivity|]);
    (split; [intros; (reflexivity || discriminate)|]);
    (split; [intros; (reflexivity || discriminate)|]);
    (split; intros; (reflexivity || discriminate || congruence)).
Qed.

Lemma after_continuation_view ctx st :
  tfun_state ctx st ->
  (after_continuation ctx <-> exists x xs, st = in_pe x xs).
Proof.
  intros Hst. unfold after_continuation.
  inversion Hst as [Ht|x Ht Hr|x xs Ht Hr]; subst; split.
  - intros (s & x & xs & E & _). congruence.
  - intros (x & xs & E). discriminate.
  - intros (s & y & ys & E & He). rewrite Ht in E. injection E as <-.
    discriminate.
  - intros (y & ys & E). discriminate.
  - intros _. now exists x, xs.
  - intros _. eexists; eexists; eexists. split; [exact Ht|reflexivity].
Qed.

Lemma classify_A seg last : classify seg last = cls_A <-> fir seg = true.
Proof.
  split; [|apply classify_first].
  destruct (fir seg) eqn:E; [reflexivity|].
  intros H. now apply classify_not_first in H.
Qed.

Lemma pts_crash_cases ctx seg f tr :
  ctx_inv ctx ->
  process_transport_segment ctx seg = Crash f tr ->
  tr = [transport_segment seg] /\
  (f = assert_segment_len /\ SEGMAX < len seg \/
   f = assert_tfun_accepts /\ len seg <= SEGMAX).
Proof.
  intros [st Hst] H.
  destruct (Z_le_gt_dec (len seg) SEGMAX) as [Hlen|Hlen];
    [|apply Z.gt_lt in Hlen].
  - pose proof (pts_spec _ _ _ Hst Hlen) as Hs.
    destruct (tfun_next st (classify seg (last_segment ctx)) seg)
      as [[st' outs]|].
    + destruct Hs as (c & t & E & _). rewrite E in H. discriminate.
    + rewrite Hs in H. injection H as <- <-.
      split; [reflexivity|right; now split].
  - rewrite (pts_len_crash _ _ Hlen) in H. injection H as <- <-.
    split; [reflexivity|left; now split].
Qed.

(** X3: for a context between segments, [process_transport_segment]
    returns exactly when the payload is no longer than
    [last_segment_payload] and the segment is not a first segment
    arriving after the recognizer has read a continuation or
    retransmission of an open series.  The assertion of
    [save_last_segment] fails exactly when the payload is longer, the
    assertion [r != NULL] of [feed_tfun] exactly on such a first segment
    of fitting length; in both cases the [transport_segment] event is
    all that has been emitted.  The results of the parser library are as
    in the model: the assertions on them in [copy_segment], [init_tfun]
    ([ctx->tfun != NULL]) and [process_transport_payload] are not part
    of this statement. *)
Theorem process_transport_segment_returns_iff ctx seg :
  ctx_inv ctx ->
  ((exists ctx' tr, process_transport_segment ctx seg = Ok ctx' tr) <->
   len seg <= SEGMAX /\ ~ (fir seg = true /\ after_continuation ctx)) /\
  (process_transport_segment ctx seg =
     Crash assert_segment_len [transport_segment seg] <->
   SEGMAX < len seg) /\
  (process_transport_segment ctx seg =
     Crash assert_tfun_accepts [transport_segment seg] <->
   len seg <= SEGMAX /\ fir seg = true /\ after_continuation ctx).
Proof.
  intros [st Hst].
  pose proof (tfun_next_None st (classify seg (last_segment ctx)) seg)
    as HN.
  pose proof (after_continuation_view _ _ Hst) as Hv.
  pose proof (classify_A seg (last_segment ctx)) as HA.
  destruct (Z_le_gt_dec (len seg) SEGMAX) as [Hlen|Hlen];
    [|apply Z.gt_lt in Hlen].
  - pose proof (pts_spec _ _ _ Hst Hlen) as Hs.
    destruct (tfun_next st (classify seg (last_segment ctx)) seg)
      as [[st' outs]|].
    + destruct Hs as (c & t & E & _).
      assert (Hno : ~ (fir seg = true /\ after_continuation ctx)).
      { intros [Hf Ha]. apply Hv in Ha. apply HA in Hf.
        assert (None = Some (st', outs)) by (symmetry; now apply HN).
        discriminate. }
      split; [|split].
      * split; [intros _; now split|].
        intros _. now exists c, (transport_segment seg :: t).
      * split; [intros H; rewrite E in H; discriminate|lia].
      * split; [intros H; rewrite E in H; discriminate|].
        intros (_ & Hf & Ha). exfalso. apply Hno. now split.
    + destruct HN as [HN _]. destruct (HN eq_refl) as [Hpe Hc].
      assert (Hyes : fir seg = true /\ after_continuation ctx).
      { split; [now apply HA|now apply Hv]. }
      split; [|split].
      * split; [intros (c & t & E); rewrite Hs in E; discriminate|].
        intros [_ Hno]. exfalso. now apply Hno.
      * split; [intros H; rewrite Hs in H; discriminate|lia].
      * split; [intros _; now split|intros _; exact Hs].
  - rewrite (pts_len_crash _ _ Hlen). split; [|split].
    + split; [intros (c & t & E); discriminate|intros [H _]; lia].
    + split; [intros _; assumption|reflexivity].
    + split; [discriminate|intros (H & _); lia].
Qed.

Lemma pts_events ctx seg :
  ctx_inv ctx ->
  exists a,
    trace (process_transport_segment ctx seg) =
    transport_segment seg :: delivery (n ctx) (buf ctx) a.
Proof.
  intros [st Hst].
  destruct (Z_le_gt_dec (len seg) SEGMAX) as [Hlen|Hlen];
    [|apply Z.gt_lt in Hlen].
  - pose proof (pts_spec _ _ _ Hst Hlen) as Hs.
    pose proof (pts_trace _ _ _ Hst Hlen) as Ht.
    destruct (tfun_next st (classify seg (last_segment ctx)) seg)
      as [[st' outs]|] eqn:E.
    + destruct (tfun_next_outs _ _ _ _ _ (n ctx) (buf ctx) E)
        as (a & Hd & _).
      exists a. now rewrite Ht, Hd.
    + exists None. now rewrite Hs.
  - exists None. now rewrite (pts_len_crash _ _ Hlen).
Qed.

(** X4: the events of one segment, for a context between segments: the
    [transport_segment] event, then at most one [transport_payload],
    which is directly followed by exactly one of [app_fragment],
    [app_error] and [app_reject]; a fragment comes with the first [n]
    bytes the context had buffered on entry.  A segment with [fin] unset
    makes no payload. *)
Theorem segment_events ctx seg :
  ctx_inv ctx ->
  exists a,
    trace (process_transport_segment ctx seg) =
    transport_segment seg :: delivery (n ctx) (buf ctx) a /\
    (fin seg = false -> a = None).
Proof.
  intros [st Hst].
  destruct (Z_le_gt_dec (len seg) SEGMAX) as [Hlen|Hlen];
    [|apply Z.gt_lt in Hlen].
  - pose proof (pts_spec _ _ _ Hst Hlen) as Hs.
    pose proof (pts_trace _ _ _ Hst Hlen) as Ht.
    destruct (tfun_next st (classify seg (last_segment ctx)) seg)
      as [[st' outs]|] eqn:E.
    + destruct (tfun_next_outs _ _ _ _ _ (n ctx) (buf ctx) E)
        as (a & Hd & _ & Hnf & _).
      exists a. rewrite Ht, Hd. split; [reflexivity|assumption].
    + exists None. rewrite Hs. split; reflexivity.
  - exists None. rewrite (pts_len_crash _ _ Hlen). split; reflexivity.
Qed.

(** X5: a segment with [fin] set ends whatever the context had open:
    when [process_transport_segment] returns, no recognizer is in
    progress and the frame buffer is flushed. *)
Theorem fin_closes ctx seg ctx' tr :
  ctx_inv ctx -> fin seg = true ->
  process_transport_segment ctx seg = Ok ctx' tr ->
  tfun ctx' = None /\ n ctx' = 0.
Proof.
  intros [st Hst] Hz H. pose proof (pts_Ok_len _ _ _ _ H) as Hlen.
  pose proof (pts_spec _ _ _ Hst Hlen) as Hs.
  destruct (tfun_next st (classify seg (last_segment ctx)) seg)
    as [[st' outs]|] eqn:E.
  - destruct (tfun_next_outs _ _ _ _ _ 0 [] E)
      as (a & _ & _ & _ & Hf & Hne).
    pose proof (Hf Hz) as Hi. subst st'. apply proj1 in Hne.
    specialize (Hne eq_refl).
    destruct Hs as (c & t & E' & Hst' & _ & _ & _ & _ & Hn & _).
    rewrite E' in H. injection H as <- _. split.
    + now inversion Hst'.
    + destruct outs; [congruence|assumption].
  - rewrite Hs in H. discriminate.
Qed.

(** X6: [process_transport_segment] leaves [src], [dst] and the bytes of
    [buf] alone, keeps [n] or sets it to zero, and stores the segment as
    [last_segment]; this holds for every context. *)
Theorem process_transport_segment_frame ctx seg ctx' tr :
  process_transport_segment ctx seg = Ok ctx' tr ->
  src ctx' = src ctx /\ dst ctx' = dst ctx /\ buf ctx' = buf ctx /\
  (n ctx' = n ctx \/ n ctx' = 0) /\ last_segment ctx' = seg.
Proof.
  intros H. apply pts_framed in H as (Hs & Hd & Hb & Hn & Hl & _).
  repeat split; assumption.
Qed.

(** ** The assertions that can fail *)

Lemma bind_Crash_inv {A B} (m : M A) (k : A -> M B) f tr :
  bind m k = Crash f tr ->
  m = Crash f tr \/
  exists a t1 t2, m = Ok a t1 /\ k a = Crash f t2 /\ tr = t1 ++ t2.
Proof.
  unfold bind. destruct m as [a t|f0 t].
  - destruct (k a) as [b t'|f1 t'] eqn:E; [discriminate|].
    intros [= <- <-]. right. now exists a, t, t'.
  - intros [= <- <-]. now left.
Qed.

Lemma fill_context_idle c s d :
  tfun c = None ->
  fill_context c s d =
  Ok (mkContext s d (last_segment c) None (tfun_pos c) (buf c) 0)
     (drop_log c).
Proof.
  intros Ht. unfold fill_context, reset_tfun, drop_log.
  destruct c as [s0 d0 l t tp b k]. cbn [tfun] in Ht. subst t.
  cbn [tfun set_n n src dst last_segment tfun_pos buf].
  destruct (0 <? k); reflexivity.
Qed.

Lemma fill_context_busy c s d st :
  tfun_state c st -> st <> idle ->
  fill_context c s d = Crash assert_finish_result (drop_log c).
Proof.
  intros Hst Hne. unfold fill_context, reset_tfun, drop_log.
  inversion Hst as [Hi|x Ht Hr Hx|x xs Ht Hr Hx]; [congruence| |];
    destruct c as [s0 d0 l t tp b k]; cbn [tfun tfun_pos] in Ht;
    rewrite Ht; cbn [tfun set_n n src dst];
    destruct (0 <? k); reflexivity.
Qed.

Lemma fill_context_faults c s d f tr :
  ctx_inv c -> fill_context c s d = Crash f tr -> f = assert_finish_result.
Proof.
  intros [st Hst] H. destruct st.
  - inversion Hst as [Ht| |]. rewrite (fill_context_idle _ _ _ Ht) in H.
    discriminate.
  - rewrite (fill_context_busy _ s d _ Hst) in H by discriminate.
    now injection H as <- _.
  - rewrite (fill_context_busy _ s d _ Hst) in H by discriminate.
    now injection H as <- _.
Qed.

Lemma calloc_Context_inv : ctx_inv calloc_Context.
Proof. exists idle. now constructor. Qed.

Lemma lookup_context_faults ok t s d f tr :
  Forall ctx_inv t -> lookup_context ok t s d = Crash f tr ->
  f = assert_finish_result.
Proof.
  intros Ht. unfold lookup_context.
  pose proof (scan_contexts_spec t s d 0) as Hs.
  destruct (scan_contexts t s d 0) as [pre c post|pre c post|].
  - discriminate.
  - destruct Hs as (-> & _). intros H.
    apply bind_Crash_inv in H as [H|(c' & t1 & t2 & _ & H & _)];
      [|discriminate].
    apply Forall_app in Ht as [_ Ht]. inversion Ht; subst.
    eapply fill_context_faults; eassumption.
  - destruct ok; [|discriminate]. intros H.
    apply bind_Crash_inv in H as [H|(c' & t1 & t2 & _ & H & _)];
      [|discriminate].
    eapply fill_context_faults; [apply calloc_Context_inv|eassumption].
Qed.

Lemma append_raw_inv c raw c1 t1 :
  append_raw c raw = Ok c1 t1 -> ctx_inv c -> ctx_inv c1.
Proof.
  intros Ha [st Hst].
  apply append_raw_spec in Ha as (_ & _ & Ht & Hp1 & _).
  exists st. inversion Hst; subst; [apply ts_idle|apply ts_A1|apply ts_pe];
    congruence.
Qed.

Lemma append_raw_returns c raw : exists c1 t1, append_raw c raw = Ok c1 t1.
Proof.
  unfold append_raw.
  destruct (size_t (n c + Z.of_nat (List.length raw)) <=? BUFLEN);
    eexists; eexists; reflexivity.
Qed.

Lemma pts_faults ctx seg f tr :
  ctx_inv ctx -> process_transport_segment ctx seg = Crash f tr ->
  data_fault f.
Proof.
  intros Hinv H.
  destruct (pts_crash_cases ctx seg f tr Hinv H) as [_ [[-> _]|[-> _]]];
    unfold data_fault; tauto.
Qed.

Lemma process_link_frame_faults ok t fr raw f tr :
  Forall ctx_inv t -> process_link_frame ok t fr raw = Crash f tr ->
  data_fault f.
Proof.
  clear dnp3_p_link_frame.
  intros Ht H. unfold process_link_frame in H.
  apply bind_Crash_inv in H as [H|(u & t1 & t2 & _ & H & _)];
    [discriminate|].
  destruct (func fr).
  - destruct (frame_payload fr) as [pl|]; [|discriminate].
    apply bind_Crash_inv in H as [H|([[c|] others] & t3 & t4 & Hl & H & _)].
    + apply (lookup_context_faults _ _ _ _ _ _ Ht) in H. subst f.
      unfold data_fault. tauto.
    + assert (Hc : ctx_inv c).
      { pose proof (lookup_context_Forall ctx_inv _ _ _ _ _ _
                      (fun c0 c' tr' Hf => fill_context_inv _ _ _ _ _ Hf)
                      Ht Hl) as Hq.
        cbn [table] in Hq. now inversion Hq. }
      destruct (dnp3_p_transport_segment pl) as [seg|].
      * apply bind_Crash_inv in H as [H|(c1 & t5 & t6 & Ha & H & _)].
        { destruct (append_raw_returns c raw) as (c1 & t5 & E).
          rewrite E in H. discriminate. }
        apply bind_Crash_inv in H as [H|(c2 & t7 & t8 & _ & H & _)];
          [|discriminate].
        eapply pts_faults; [|eassumption].
        eapply append_raw_inv; eassumption.
      * apply bind_Crash_inv in H as [H|(u1 & t5 & t6 & _ & H & _)];
          discriminate.
    + apply bind_Crash_inv in H as [H|(u1 & t5 & t6 & _ & H & _)];
        discriminate.
  - destruct (frame_payload fr); [|discriminate].
    apply bind_Crash_inv in H as [H|(u1 & t5 & t6 & _ & H & _)];
      discriminate.
  - discriminate.
Qed.

Lemma process_link_frame_inv ok t fr raw t' tr :
  Forall ctx_inv t -> process_link_frame ok t fr raw = Ok t' tr ->
  Forall ctx_inv t'.
Proof.
  intros Ht H.
  eapply process_link_frame_Forall; [| |eassumption|eassumption].
  - intros c s d c' tr' Hf. eapply fill_context_inv. eassumption.
  - intros c c' Hu. eapply updated_inv. eassumption.
Qed.

Lemma dissect_faults_from arrivals : forall t f tr,
  Forall ctx_inv t -> dissect t arrivals = Crash f tr -> data_fault f.
Proof.
  induction arrivals as [|a rest IH]; intros t f tr Ht H.
  - discriminate.
  - cbn [dissect] in H.
    apply bind_Crash_inv in H as [H|(t1 & tr1 & tr2 & H1 & H & _)].
    + eapply process_link_frame_faults; eassumption.
    + eapply IH; [|eassumption].
      eapply process_link_frame_inv; eassumption.
Qed.

Lemma data_fault_others f :
  data_fault f ->
  f <> assert_ttok_index /\ f <> ttok_values_out_of_range /\
  f <> null_segment_deref /\ f <> assert_tfun_null /\
  f <> assert_no_stuck_results /\ f <> assert_bit_length /\
  f <> assert_consumed /\ f <> loop_fuel.
Proof.
  intros [H|[H|H]]; subst f; repeat split; discriminate.
Qed.

(** X7: whatever frames arrive, these checks of the dissector never
    fail: [p->ast->index >= ttok_pos] of [act_ttok], whose index stays
    within the token array; [ctx->tfun == NULL] of [init_tfun];
    [r->ast == NULL] of [reset_tfun]; [bit_length%8 == 0] and
    [consumed > 0] in the loop of [process_transport_segment], which
    makes at most two rounds; and [act_series] reads no NULL value.
    The assertions on results of the parser library ([copy_segment],
    [ctx->tfun != NULL], [ttok_values != NULL], [r->ast != NULL]) are
    not part of this statement: the model has no stop for them. *)
Theorem dissector_checks_hold arrivals f tr :
  dissect [] arrivals = Crash f tr ->
  f <> assert_ttok_index /\ f <> ttok_values_out_of_range /\
  f <> null_segment_deref /\ f <> assert_tfun_null /\
  f <> assert_no_stuck_results /\ f <> assert_bit_length /\
  f <> assert_consumed /\ f <> loop_fuel.
Proof.
  intros H. apply data_fault_others.
  eapply dissect_faults_from; [|eassumption]. constructor.
Qed.

(** ** The table: hits, misses and reuse *)

Lemma scan_contexts_end l s d : forall k,
  ~ In (s, d) (keys l) -> (l = [] \/ k + List.length l < CTXMAX)%nat ->
  scan_contexts l s d k = scan_end.
Proof.
  induction l as [|c l IH]; intros k Hn Hk; [reflexivity|].
  cbn [scan_contexts].
  destruct ((src c =? s) && (dst c =? d)) eqn:E.
  { apply key_match in E. exfalso. apply Hn. left. assumption. }
  destruct Hk as [Hk|Hk]; [discriminate|]. cbn [List.length] in Hk.
  destruct (CTXMAX <=? S k)%nat eqn:E1.
  { apply Nat.leb_le in E1. lia. }
  rewrite IH; [reflexivity| |].
  - intros Hin. apply Hn. right. assumption.
  - right. lia.
Qed.

Lemma scan_contexts_reuse pre c post s d : forall k,
  ~ In (s, d) (keys (pre ++ [c])) ->
  (k + List.length pre + 1 = CTXMAX)%nat ->
  scan_contexts (pre ++ c :: post) s d k = scan_reuse pre c post.
Proof.
  induction pre as [|x pre IH]; intros k Hn Hk; cbn [app scan_contexts].
  - destruct ((src c =? s) && (dst c =? d)) eqn:E.
    { apply key_match in E. exfalso. apply Hn. left. assumption. }
    cbn [List.length] in Hk.
    destruct (CTXMAX <=? S k)%nat eqn:E1; [reflexivity|].
    apply Nat.leb_gt in E1. lia.
  - destruct ((src x =? s) && (dst x =? d)) eqn:E.
    { apply key_match in E. exfalso. apply Hn. left. assumption. }
    cbn [List.length] in Hk.
    destruct (CTXMAX <=? S k)%nat eqn:E1.
    { apply Nat.leb_le in E1. lia. }
    rewrite IH; [reflexivity| |lia].
    intros Hin. apply Hn. right. assumption.
Qed.

(** X8: the context [lookup_context] returns is the one the table
    answers with from then on: looking the pair up again in the new
    table is a hit on the returned record, changes nothing and emits
    nothing, whatever the allocator would do. *)
Theorem lookup_context_again ok ok' t s d c others tr :
  lookup_context ok t s d = Ok (Some c, others) tr ->
  lookup_context ok' (c :: others) s d = Ok (Some c, others) [].
Proof.
  intros H. apply lookup_context_head in H.
  unfold lookup_context. cbn [scan_contexts].
  apply key_match in H. rewrite H. reflexivity.
Qed.

(** X9: a pair that is not in the table, with room left (or an empty
    table): [lookup_context] puts a zeroed context for the pair in front
    of the unchanged table and emits nothing; when [calloc] fails it
    returns NULL with the table unchanged, and [process_link_frame] then
    announces the frame, logs the failure and does nothing else. *)
Theorem lookup_context_miss_with_room ok t s d :
  ~ In (s, d) (keys t) -> (t = [] \/ List.length t < CTXMAX)%nat ->
  lookup_context ok t s d =
    (if ok
     then Ok (Some (mkContext s d (mkSegment false false 0 []) None 0
                      (repeat x00 (Z.to_nat BUFLEN)) 0), t) []
     else Ok (None, t) []) /\
  (forall f raw pl,
     func f = DNP3_UNCONFIRMED_USER_DATA -> frame_payload f = Some pl ->
     source f = s -> destination f = d -> ok = false ->
     process_link_frame ok t f raw =
     Ok t [link_frame f raw; log_error log_alloc_failed]).
Proof.
  intros Hn Hk.
  assert (E : lookup_context ok t s d =
    (if ok
     then Ok (Some (mkContext s d (mkSegment false false 0 []) None 0
                      (repeat x00 (Z.to_nat BUFLEN)) 0), t) []
     else Ok (None, t) [])).
  { unfold lookup_context. rewrite (scan_contexts_end t s d 0 Hn) by
      (destruct Hk; [now left|right; lia]).
    destruct ok; [|reflexivity].
    rewrite fill_context_idle by reflexivity. reflexivity. }
  split; [exact E|].
  intros f raw pl Hf Hpl Hs Hd ->. unfold process_link_frame.
  rewrite Hf, Hpl, Hs, Hd, E. reflexivity.
Qed.

(** X10: a pair that is not in a full table: [lookup_context] reuses the
    last context.  When that context has no recognizer in progress it
    moves to the front with the new pair and [n = 0], keeping its
    [last_segment], [tfun_pos] and the bytes of [buf], and the bytes it
    had buffered are reported lost; the contexts before it are kept in
    order.  When its recognizer is in progress, the run stops at the
    assertion of [reset_tfun], after the same report. *)
Theorem lookup_context_reuses_last ok pre c s d :
  ~ In (s, d) (keys (pre ++ [c])) ->
  List.length (pre ++ [c]) = CTXMAX ->
  (tfun c = None ->
   lookup_context ok (pre ++ [c]) s d =
   Ok (Some (mkContext s d (last_segment c) None (tfun_pos c) (buf c) 0),
       pre) (drop_log c)) /\
  (ctx_inv c -> tfun c <> None ->
   lookup_context ok (pre ++ [c]) s d =
   Crash assert_finish_result (drop_log c)).
Proof.
  intros Hn Hl. rewrite length_app in Hl. cbn [List.length] in Hl.
  unfold lookup_context.
  rewrite (scan_contexts_reuse pre c [] s d 0 Hn) by lia.
  rewrite app_nil_r. split.
  - intros Ht. rewrite (fill_context_idle _ _ _ Ht).
    cbn [bind ret]. now rewrite app_nil_r.
  - intros [st Hst] Ht.
    rewrite (fill_context_busy _ s d _ Hst); [reflexivity|].
    intros ->. inversion Hst. contradiction.
Qed.

(** X11: one frame changes at most one context.  After
    [process_link_frame] the table is the old one, or the old one behind
    a new context for the frame's pair, or the old one with one context
    taken out and a context for the frame's pair put in front; all other
    contexts are the same records in the same order. *)
Theorem process_link_frame_touches_one ok t f raw t' tr :
  process_link_frame ok t f raw = Ok t' tr ->
  t' = t \/
  (exists c', t' = c' :: t /\ key c' = (source f, destination f)) \/
  (exists c' pre c post,
     t = pre ++ c :: post /\ t' = c' :: pre ++ post /\
     key c' = (source f, destination f)).
Proof.
  intros H.
  destruct (process_link_frame_cases _ _ _ _ _ _ H)
    as [[_ ->]|(_ & r & tr0 & Hl & Hr)]; [now left|].
  destruct r as [[c|] others].
  - destruct Hr as (c' & -> & Hu).
    pose proof (lookup_context_head _ _ _ _ _ _ _ Hl) as Hk.
    apply updated_key in Hu. rewrite <- Hu in Hk.
    destruct (lookup_context_cases _ _ _ _ _ _ Hl)
      as [(pre & x & post & -> & _ & _ & _ & E & _)
         |[(pre & x & post & x' & -> & _ & _ & _ & _ & E)
          |[(x' & _ & _ & _ & _ & E)|(_ & _ & E & _)]]];
      inversion E; subst.
    + right. right. exists c'. eexists; eexists; eexists.
      split; [reflexivity|split; [reflexivity|assumption]].
    + right. right. exists c'. eexists; eexists; eexists.
      split; [reflexivity|split; [reflexivity|assumption]].
    + right. left. now exists c'.
  - destruct Hr as [-> _].
    destruct (lookup_context_cases _ _ _ _ _ _ Hl)
      as [(pre & x & post & _ & _ & _ & _ & E & _)
         |[(pre & x & post & x' & _ & _ & _ & _ & _ & E)
          |[(x' & _ & _ & _ & _ & E)|(_ & _ & E & _)]]];
      inversion E; subst. now left.
Qed.

Lemma process_link_frame_no_contact a t :
  contact a = [] ->
  process_link_frame (arr_calloc_ok a) t (arr_frame a) (arr_raw a) =
  Ok t (announce a).
Proof.
  unfold contact, process_link_frame, announce.
  destruct (func (arr_frame a)); destruct (frame_payload (arr_frame a));
    try discriminate; reflexivity.
Qed.

(** X12: frames other than unconfirmed user data with a payload never
    create, move or change a context and never stop the dissector: a
    stream of such frames leaves the table as it was, and its events are
    the announcements of the frames in order, with the logged refusal
    after each confirmed user data frame that has a payload. *)
Theorem frames_without_user_data arrivals t :
  contacts arrivals = [] ->
  dissect t arrivals = Ok t (flat_map announce arrivals).
Proof.
  induction arrivals as [|a rest IH]; intros H; [reflexivity|].
  cbn [contacts flat_map] in H. apply app_eq_nil in H as [Ha Hr].
  cbn [dissect flat_map].
  rewrite (process_link_frame_no_contact a t Ha).
  fold (contacts rest) in Hr. rewrite (bind_Ok_l _ _ _ _ eq_refl).
  rewrite (IH Hr). reflexivity.
Qed.

(** ** Buffered frames and the events of a frame *)

Lemma pts_idle_flushed ctx seg ctx' tr :
  ctx_inv ctx -> process_transport_segment ctx seg = Ok ctx' tr ->
  tfun ctx' = None -> n ctx' = 0.
Proof.
  intros [st Hst] H Ht. pose proof (pts_Ok_len _ _ _ _ H) as Hlen.
  pose proof (pts_spec _ _ _ Hst Hlen) as Hs.
  destruct (tfun_next st (classify seg (last_segment ctx)) seg)
    as [[st' outs]|] eqn:E.
  - destruct (tfun_next_outs _ _ _ _ _ 0 [] E) as (a & _ & _ & _ & _ & Hi).
    destruct Hs as (c & t & E' & Hst' & _ & _ & _ & _ & Hn & _).
    rewrite E' in H. injection H as <- _.
    assert (st' = idle) by (inversion Hst'; congruence).
    apply Hi in H. destruct outs; [congruence|assumption].
  - rewrite Hs in H. discriminate.
Qed.

(** X13: a context buffers frames only while a series is open: at every
    state the dissector reaches, a context without a recognizer in
    progress has [n = 0]. *)
Theorem buffered_only_while_open arrivals t tr :
  dissect [] arrivals = Ok t tr ->
  Forall (fun c => tfun c = None -> n c = 0) t.
Proof.
  intros H.
  assert (Hq : Forall (fun c => ctx_inv c /\ (tfun c = None -> n c = 0)) t).
  { apply (dissect_invariant
             (Forall (fun c => ctx_inv c /\ (tfun c = None -> n c = 0))))
      with (arrivals := arrivals) (t := []) (tr := tr);
      [|constructor|assumption].
    intros ok t0 f raw t1 tr1 Ht H1.
    eapply process_link_frame_Forall; [| |eassumption|eassumption].
    - intros c s d c' tr' Hf. split; [eapply fill_context_inv; eassumption|].
      apply fill_context_spec in Hf. subst c'. reflexivity.
    - intros c c' Hu [Hinv Hn]. split; [eapply updated_inv; eassumption|].
      destruct Hu as [->|(c1 & t2 & seg & t3 & Ha & Hp)]; [assumption|].
      eapply pts_idle_flushed; [|eassumption].
      eapply append_raw_inv; eassumption. }
  eapply Forall_impl; [|exact Hq]. intros c [_ Hc]. exact Hc.
Qed.

Lemma fill_context_trace c s d : trace (fill_context c s d) = drop_log c.
Proof.
  unfold fill_context, reset_tfun, drop_log.
  destruct c as [s0 d0 l t tp b k].
  cbn [tfun set_n n src dst last_segment tfun_pos buf].
  destruct t as [hs|].
  - destruct (h_parse_finish hs) as [[[a|] bl]|]; destruct (0 <? k);
      reflexivity.
  - destruct (0 <? k); reflexivity.
Qed.

Lemma drop_log_is_log c : Forall is_log (drop_log c).
Proof.
  unfold drop_log. destruct (0 <? n c); repeat constructor.
  eexists. reflexivity.
Qed.

Lemma trace_bind_ret {A B} (m : M A) (f : A -> B) :
  trace (a <- m ;; ret (f a)) = trace m.
Proof. destruct m; cbn; now rewrite ?app_nil_r. Qed.

Lemma lookup_context_trace ok t s d :
  Forall is_log (trace (lookup_context ok t s d)).
Proof.
  unfold lookup_context.
  destruct (scan_contexts t s d 0) as [pre c post|pre c post|].
  - constructor.
  - rewrite (trace_bind_ret (fill_context c s d)
               (fun ctx => (Some ctx, pre ++ post))).
    rewrite fill_context_trace. apply drop_log_is_log.
  - destruct ok; [|constructor].
    rewrite (trace_bind_ret (fill_context calloc_Context s d)
               (fun ctx => (Some ctx, t))).
    rewrite fill_context_trace. apply drop_log_is_log.
Qed.

Lemma append_raw_trace c raw : Forall is_log (trace (append_raw c raw)).
Proof.
  unfold append_raw.
  destruct (size_t (n c + Z.of_nat (List.length raw)) <=? BUFLEN);
    repeat constructor. eexists. reflexivity.
Qed.

Lemma trace_bind_Crash {A B} (k : A -> M B) f t :
  trace (bind (Crash f t) k) = t.
Proof. reflexivity. Qed.

Lemma process_link_frame_events ok t f raw :
  Forall ctx_inv t ->
  frame_events f raw (trace (process_link_frame ok t f raw)).
Proof.
  intros Ht. unfold process_link_frame, frame_events.
  rewrite (trace_bind_Ok _ _ tt [link_frame f raw] eq_refl).
  cbn [app].
  destruct (func f).
  - destruct (frame_payload f) as [pl|].
    2:{ exists [], []. repeat split; constructor. }
    pose proof (lookup_context_trace ok t (source f) (destination f)) as Hl.
    destruct (lookup_context ok t (source f) (destination f))
      as [[[c|] others] t1|f1 t1] eqn:El; cbn [trace] in Hl.
    + assert (Hc : ctx_inv c).
      { pose proof (lookup_context_Forall ctx_inv _ _ _ _ _ _
                      (fun c0 c' tr' Hf => fill_context_inv _ _ _ _ _ Hf)
                      Ht El) as Hq.
        cbn [table] in Hq. now inversion Hq. }
      rewrite (trace_bind_Ok _ _ _ _ eq_refl).
      destruct (dnp3_p_transport_segment pl) as [seg|].
      * pose proof (append_raw_trace c raw) as Ha.
        destruct (append_raw c raw) as [c1 t2|f2 t2] eqn:Ea;
          [|destruct (append_raw_returns c raw) as (? & ? & E);
            congruence].
        cbn [trace] in Ha.
        rewrite (trace_bind_Ok _ _ _ _ eq_refl).
        rewrite (trace_bind_ret (process_transport_segment c1 seg)
                   (fun ctx => ctx :: others)).
        destruct (pts_events c1 seg (append_raw_inv _ _ _ _ Ea Hc))
          as (a & ->).
        exists (t1 ++ t2), (transport_segment seg :: delivery (n c1) (buf c1) a).
        rewrite <- app_assoc. split; [reflexivity|].
        split; [now apply Forall_app|constructor].
      * exists t1, [transport_reject]. split; [reflexivity|].
        split; [assumption|constructor].
    + rewrite (trace_bind_Ok _ _ _ _ eq_refl). cbn.
      exists (t1 ++ [log_error log_alloc_failed]), [].
      rewrite !app_nil_r. split; [reflexivity|]. split; [|constructor].
      apply Forall_app. split; [assumption|].
      repeat constructor. eexists. reflexivity.
    + rewrite trace_bind_Crash. exists t1, [].
      rewrite app_nil_r. split; [reflexivity|].
      split; [assumption|constructor].
  - destruct (frame_payload f).
    + exists [log_error log_confirmed_unsupported], []. cbn.
      split; [reflexivity|]. split; [|constructor].
      repeat constructor. eexists. reflexivity.
    + exists [], []. repeat split; constructor.
  - exists [], []. repeat split; constructor.
Qed.

(** X14: the events of a run come frame by frame, in order.  For each
    frame: its [link_frame] event, then logged errors only, then nothing
    more, or [transport_reject], or the [transport_segment] event with at
    most one [transport_payload] that is directly followed by exactly one
    of [app_fragment], [app_error] and [app_reject]. *)
Theorem events_frame_by_frame arrivals t tr :
  dissect [] arrivals = Ok t tr ->
  exists trs,
    tr = List.concat trs /\
    Forall2 (fun a e => frame_events (arr_frame a) (arr_raw a) e)
            arrivals trs.
Proof.
  assert (G : forall arrivals t0 t tr,
    Forall ctx_inv t0 -> dissect t0 arrivals = Ok t tr ->
    exists trs,
      tr = List.concat trs /\
      Forall2 (fun a e => frame_events (arr_frame a) (arr_raw a) e)
              arrivals trs).
  { clear. induction arrivals as [|a rest IH]; intros t0 t tr Ht H.
    - cbn in H. unfold ret in H. injection H as _ <-.
      exists []. split; [reflexivity|constructor].
    - cbn [dissect] in H.
      apply bind_Ok_inv in H as (t1 & tr1 & tr2 & H1 & H & ->).
      pose proof (process_link_frame_events (arr_calloc_ok a) t0
                    (arr_frame a) (arr_raw a) Ht) as He.
      rewrite H1 in He. cbn [trace] in He.
      destruct (IH t1 t tr2 (process_link_frame_inv _ _ _ _ _ _ Ht H1) H)
        as (trs & -> & Hf).
      exists (tr1 :: trs). split; [reflexivity|].
      constructor; assumption. }
  intros H. eapply G; [|eassumption]. constructor.
Qed.

(** ** A fragment and the frames that carried it *)

Lemma memcpy_at_firstn b acc raw :
  firstn (List.length acc) b = acc ->
  firstn (List.length acc + List.length raw)
         (memcpy_at b (Z.of_nat (List.length acc)) raw) = acc ++ raw.
Proof.
  intros H. unfold memcpy_at. rewrite Nat2Z.id, H.
  rewrite app_assoc. rewrite <- length_app.
  rewrite firstn_app, Nat.sub_diag, firstn_O, app_nil_r.
  apply firstn_all.
Qed.

Lemma append_raw_fits c acc raw :
  holds c acc ->
  Z.of_nat (List.length (acc ++ raw)) <= BUFLEN -> in_range BUFLEN ->
  exists c1,
    append_raw c raw = Ok c1 [] /\ holds c1 (acc ++ raw) /\
    src c1 = src c /\ dst c1 = dst c /\ tfun c1 = tfun c /\
    tfun_pos c1 = tfun_pos c /\ last_segment c1 = last_segment c.
Proof.
  intros [Hn Hb] Hfit HB. unfold append_raw.
  rewrite length_app, Nat2Z.inj_add in Hfit.
  assert (E : size_t (n c + Z.of_nat (List.length raw)) =
              Z.of_nat (List.length acc) + Z.of_nat (List.length raw)).
  { rewrite Hn. apply size_t_small. unfold in_range in *. lia. }
  rewrite E.
  destruct (Z.leb_spec (Z.of_nat (List.length acc) +
                        Z.of_nat (List.length raw)) BUFLEN) as [_|]; [|lia].
  eexists. split; [reflexivity|].
  destruct c as [s0 d0 l t tp b k]. cbn in *. subst k.
  repeat split; try reflexivity.
  - now rewrite length_app, Nat2Z.inj_add.
  - rewrite length_app. now apply memcpy_at_firstn.
Qed.

Lemma lookup_context_at_head ok c others s d :
  key c = (s, d) ->
  lookup_context ok (c :: others) s d = Ok (Some c, others) [].
Proof.
  intros H. unfold lookup_context. cbn [scan_contexts].
  apply key_match in H. rewrite H. reflexivity.
Qed.

Lemma process_link_frame_step ok t a seg s d c others tr1 :
  carries s d a seg ->
  lookup_context ok t s d = Ok (Some c, others) tr1 ->
  process_link_frame ok t (arr_frame a) (arr_raw a) =
  (Ok tt (link_frame (arr_frame a) (arr_raw a) :: tr1) ;;;
   c1 <- append_raw c (arr_raw a) ;;
   c2 <- process_transport_segment c1 seg ;; ret (c2 :: others)).
Proof.
  intros (Hf & Hs & Hd & pl & Hpl & Hseg) Hl. unfold process_link_frame.
  rewrite Hf, Hpl, Hs, Hd. rewrite (bind_Ok_l _ _ _ _ Hl). rewrite Hseg.
  cbn [emit bind app].
  destruct (c1 <- append_raw c (arr_raw a) ;;
            c2 <- process_transport_segment c1 seg ;; ret (c2 :: others));
    reflexivity.
Qed.

Lemma process_link_frame_value ok t a seg s d c others tr1 c2 tr :
  carries s d a seg ->
  lookup_context ok t s d = Ok (Some c, others) tr1 ->
  (c1 <- append_raw c (arr_raw a) ;; process_transport_segment c1 seg) =
    Ok c2 tr ->
  process_link_frame ok t (arr_frame a) (arr_raw a) =
  Ok (c2 :: others) (link_frame (arr_frame a) (arr_raw a) :: tr1 ++ tr).
Proof.
  intros Ha Hl E.
  rewrite (process_link_frame_step _ _ _ _ _ _ _ _ _ Ha Hl).
  apply bind_Ok_inv in E as (c1 & t1 & t2 & Ea & Ep & ->).
  rewrite Ea. cbn [bind]. rewrite Ep. cbn [bind ret app].
  now rewrite !app_nil_r.
Qed.

(** One frame for a context that is between segments and has room. *)
Lemma frame_step c st acc raw seg st' outs :
  tfun_state c st -> holds c acc ->
  Z.of_nat (List.length (acc ++ raw)) <= BUFLEN -> in_range BUFLEN ->
  len seg <= SEGMAX ->
  tfun_next st (classify seg (last_segment c)) seg = Some (st', outs) ->
  exists c2 tr,
    (c1 <- append_raw c raw ;; process_transport_segment c1 seg) =
      Ok c2 (transport_segment seg :: tr) /\
    tr = flat_map (fun a => match a with
                            | Some t =>
                                [transport_payload t;
                                 sink_event (acc ++ raw) t]
                            | None => []
                            end) outs /\
    tfun_state c2 st' /\ last_segment c2 = seg /\ key c2 = key c /\
    (outs = [] -> holds c2 (acc ++ raw)) /\ (outs <> [] -> n c2 = 0).
Proof.
  intros Hst Hh Hfit HB Hlen Hnext.
  destruct (append_raw_fits c acc raw Hh Hfit HB)
    as (c1 & Ea & [Hn1 Hb1] & Hs1 & Hd1 & Ht1 & Hp1 & Hl1).
  assert (Hst1 : tfun_state c1 st).
  { inversion Hst; subst; [apply ts_idle|apply ts_A1|apply ts_pe];
      congruence. }
  pose proof (pts_spec _ _ _ Hst1 Hlen) as Hs.
  pose proof (pts_trace _ _ _ Hst1 Hlen) as Ht.
  rewrite Hl1, Hnext in Hs, Ht.
  destruct Hs as (c2 & tr & E & Hst2 & Hl2 & Hs2 & Hd2 & Hb2 & Hn2 & _).
  rewrite E in Ht. cbn [trace] in Ht. injection Ht as Ht.
  exists c2, tr. rewrite (bind_Ok_l _ _ _ _ Ea), E. cbn [app].
  split; [reflexivity|].
  split.
  { rewrite Ht. apply flat_map_ext. intros [t|]; [|reflexivity].
    unfold delivery, app_event. rewrite Hn1, Nat2Z.id, Hb1. reflexivity. }
  split; [assumption|]. split; [assumption|].
  split; [unfold key; congruence|].
  split.
  - intros ->. split; congruence.
  - intros Hne. destruct outs; [congruence|assumption].
Qed.

Lemma series_tail_delivered s d others rest : forall segs c st x xs acc,
  Forall2 (carries s d) rest segs ->
  tfun_state c st -> open_series st x xs -> key c = (s, d) ->
  fin (last_segment c) = false ->
  series_tail (last_segment c) segs = true ->
  Forall (fun sg => len sg <= SEGMAX) segs ->
  holds c acc ->
  Z.of_nat (List.length (acc ++ List.concat (map arr_raw rest))) <= BUFLEN ->
  in_range BUFLEN ->
  exists c' tr0,
    dissect (c :: others) rest =
      Ok (c' :: others)
         (tr0 ++ [transport_payload (series_bytes x (xs ++ segs));
                  sink_event (acc ++ List.concat (map arr_raw rest))
                             (series_bytes x (xs ++ segs))]) /\
    payloads tr0 = [] /\ tfun c' = None /\ n c' = 0.
Proof.
  induction rest as [|a rest IH];
    intros segs c st x xs acc Hc Hst Hopen Hk Hfin Htail Hlen Hh Hfit HB.
  - inversion Hc; subst. cbn in Htail. congruence.
  - inversion Hc as [|? sg ? segs' Ha Hrest]; subst.
    cbn [series_tail] in Htail.
    repeat (apply Bool.andb_true_iff in Htail as [Htail ?]).
    match goal with H : negb (fir sg) = true |- _ =>
      apply Bool.negb_true_iff in H; rename H into Hfir end.
    match goal with H : (_ =? _) = true |- _ =>
      apply Z.eqb_eq in H; rename H into Hseq end.
    match goal with H : series_tail sg segs' = true |- _ =>
      rename H into Htl end.
    inversion Hlen as [|? ? Hls Hlrest]; subst.
    cbn [map List.concat] in Hfit |- *. rewrite app_assoc in Hfit.
    assert (Hfit1 : Z.of_nat (List.length (acc ++ arr_raw a)) <= BUFLEN).
    { rewrite length_app in Hfit. lia. }
    cbn [dissect].
    pose proof (lookup_context_at_head (arr_calloc_ok a) c others s d Hk)
      as Hl.
    destruct (fin sg) eqn:Hz.
    + destruct segs' as [|s' segs''];
        [|cbn in Htl; rewrite Hz in Htl; discriminate].
      inversion Hrest; subst.
      assert (Hnext : tfun_next st (classify sg (last_segment c)) sg =
                      Some (idle, [Some (series_bytes x (xs ++ [sg]))])).
      { rewrite (classify_next _ _ Hfir Hseq).
        destruct Hopen as [[-> ->]| ->]; cbn; rewrite Hz; reflexivity. }
      destruct (frame_step c st acc (arr_raw a) sg _ _ Hst Hh Hfit1 HB Hls
                  Hnext)
        as (c2 & tr & E & -> & Hst2 & _ & _ & _ & Hn2).
      rewrite (process_link_frame_value _ _ _ _ _ _ _ _ _ _ _ Ha Hl E).
      exists c2,
        [link_frame (arr_frame a) (arr_raw a); transport_segment sg].
      split.
      * cbn. rewrite !app_nil_r. reflexivity.
      * split; [reflexivity|]. split; [now inversion Hst2|].
        apply Hn2. discriminate.
    + assert (Hnext : tfun_next st (classify sg (last_segment c)) sg =
                      Some (in_pe x (xs ++ [sg]), [])).
      { rewrite (classify_next _ _ Hfir Hseq).
        destruct Hopen as [[-> ->]| ->]; cbn; rewrite Hz; reflexivity. }
      destruct (frame_step c st acc (arr_raw a) sg _ _ Hst Hh Hfit1 HB Hls
                  Hnext)
        as (c2 & tr & E & -> & Hst2 & Hl2 & Hk2 & Hh2 & _).
      specialize (Hh2 eq_refl).
      rewrite (process_link_frame_value _ _ _ _ _ _ _ _ _ _ _ Ha Hl E).
      destruct (IH segs' c2 (in_pe x (xs ++ [sg])) x (xs ++ [sg])
                  (acc ++ arr_raw a) Hrest Hst2)
        as (c' & tr0 & E' & Hp' & Ht' & Hn'); try assumption.
      * now right.
      * congruence.
      * now rewrite Hl2.
      * now rewrite Hl2.
      * exists c',
          (link_frame (arr_frame a) (arr_raw a) :: transport_segment sg ::
           tr0).
        split.
        -- cbn [bind]. rewrite E'. cbn [app flat_map].
           rewrite <- !app_assoc. reflexivity.
        -- split; [exact Hp'|]. split; assumption.
Qed.

(** X15: a fragment sent as a complete series of frames from one pair,
    whose context has no series open, is handed to the application layer
    with the raw bytes of exactly its frames.  If the lookup for the
    first frame returns a context with no recognizer in progress and
    [n = 0], and the frames fit the buffer, the run returns; its last two
    events are the [transport_payload] with the concatenated payloads and
    the application-layer event for it, an [app_fragment] carrying the
    concatenation of the raw frames; no other payload is emitted, and the
    context is left flushed with no recognizer in progress. *)
Theorem fragment_with_its_frames t a rest segs s d c others tr1 :
  lookup_context (arr_calloc_ok a) t s d = Ok (Some c, others) tr1 ->
  tfun c = None -> n c = 0 ->
  Forall2 (carries s d) (a :: rest) segs ->
  complete_series segs = true ->
  Forall (fun sg => len sg <= SEGMAX) segs ->
  Z.of_nat (List.length (List.concat (map arr_raw (a :: rest)))) <= BUFLEN ->
  in_range BUFLEN ->
  exists c' tr0,
    dissect t (a :: rest) =
      Ok (c' :: others)
         (tr0 ++
          [transport_payload (List.concat (map payload segs));
           sink_event (List.concat (map arr_raw (a :: rest)))
                      (List.concat (map payload segs))]) /\
    payloads tr0 = [] /\ tfun c' = None /\ n c' = 0.
Proof.
  intros Hl Ht Hn Hc Hser Hlen Hfit HB.
  inversion Hc as [|? sg ? segs' Ha Hrest]; subst.
  cbn [complete_series] in Hser.
  apply Bool.andb_true_iff in Hser as [Hfir Htail].
  inversion Hlen as [|? ? Hls Hlrest]; subst.
  assert (Hst : tfun_state c idle) by now apply ts_idle.
  assert (Hh : holds c []) by (split; [assumption|reflexivity]).
  cbn [map List.concat] in Hfit.
  assert (Hfit1 : Z.of_nat (List.length ([] ++ arr_raw a)) <= BUFLEN).
  { rewrite length_app in Hfit. cbn [app]. lia. }
  pose proof (lookup_context_head _ _ _ _ _ _ _ Hl) as Hk.
  cbn [dissect].
  destruct (fin sg) eqn:Hz.
  - destruct segs' as [|s' segs''];
      [|cbn in Htail; rewrite Hz in Htail; discriminate].
    inversion Hrest; subst.
    assert (Hnext : tfun_next idle (classify sg (last_segment c)) sg =
                    Some (idle, [Some (series_bytes sg [])])).
    { rewrite (classify_first _ _ Hfir). cbn. rewrite Hz. reflexivity. }
    destruct (frame_step c idle [] (arr_raw a) sg _ _ Hst Hh Hfit1 HB Hls
                Hnext)
      as (c2 & tr & E & -> & Hst2 & _ & _ & _ & Hn2).
    rewrite (process_link_frame_value _ _ _ _ _ _ _ _ _ _ _ Ha Hl E).
    exists c2,
      (link_frame (arr_frame a) (arr_raw a) :: tr1 ++ [transport_segment sg]).
    split.
    + cbn. unfold series_bytes. cbn. rewrite !app_nil_r.
      rewrite <- app_assoc. reflexivity.
    + split.
      * cbn [payloads]. rewrite payloads_app.
        pose proof (lookup_context_trace (arr_calloc_ok a) t s d) as Hlog.
        rewrite Hl in Hlog. cbn [trace] in Hlog.
        assert (Hp : payloads tr1 = []).
        { clear -Hlog. induction Hlog as [|e l [msg ->] _ IH];
            [reflexivity|exact IH]. }
        rewrite Hp. reflexivity.
      * split; [now inversion Hst2|]. apply Hn2. discriminate.
  - assert (Hnext : tfun_next idle (classify sg (last_segment c)) sg =
                    Some (in_A1 sg, [])).
    { rewrite (classify_first _ _ Hfir). cbn. rewrite Hz. reflexivity. }
    destruct (frame_step c idle [] (arr_raw a) sg _ _ Hst Hh Hfit1 HB Hls
                Hnext)
      as (c2 & tr & E & -> & Hst2 & Hl2 & Hk2 & Hh2 & _).
    specialize (Hh2 eq_refl).
    rewrite (process_link_frame_value _ _ _ _ _ _ _ _ _ _ _ Ha Hl E).
    destruct (series_tail_delivered s d others rest segs' c2 (in_A1 sg) sg []
                ([] ++ arr_raw a) Hrest Hst2)
      as (c' & tr0 & E' & Hp' & Ht' & Hn'); try assumption.
    + now left.
    + congruence.
    + now rewrite Hl2.
    + now rewrite Hl2.
    + exists c',
        (link_frame (arr_frame a) (arr_raw a) :: tr1 ++
         transport_segment sg :: tr0).
      split.
      * cbn [bind]. rewrite E'. cbn [app flat_map map List.concat].
        unfold series_bytes. cbn [app].
        rewrite <- !app_assoc. reflexivity.
      * split; [|split; assumption].
        cbn [payloads]. rewrite payloads_app. cbn [payloads].
        pose proof (lookup_context_trace (arr_calloc_ok a) t s d) as Hlog.
        rewrite Hl in Hlog. cbn [trace] in Hlog.
        assert (Hp : payloads tr1 = []).
        { clear -Hlog. induction Hlog as [|e l [msg ->] _ IH];
            [reflexivity|exact IH]. }
        rewrite Hp. exact Hp'.
Qed.

(** X23: a first segment that arrives while the context has only first
    segments open replaces them, but the frames already buffered stay:
    the segment before is forgotten without any event, and when the new
    series is delivered, its fragment comes with the raw bytes of the
    abandoned frames in front of its own. *)
Theorem restarted_series_keeps_old_frames c x acc raw seg :
  tfun_state c (in_A1 x) -> holds c acc ->
  Z.of_nat (List.length (acc ++ raw)) <= BUFLEN -> in_range BUFLEN ->
  len seg <= SEGMAX -> fir seg = true ->
  exists c2,
    (c1 <- append_raw c raw ;; process_transport_segment c1 seg) =
      Ok c2 (transport_segment seg ::
             if fin seg
             then [transport_payload (payload seg);
                   sink_event (acc ++ raw) (payload seg)]
             else []) /\
    (if fin seg
     then tfun c2 = None /\ n c2 = 0
     else tfun_state c2 (in_A1 seg) /\ holds c2 (acc ++ raw)).
Proof.
  intros Hst Hh Hfit HB Hlen Hfir.
  destruct (fin seg) eqn:Hz.
  - assert (Hnext : tfun_next (in_A1 x) (classify seg (last_segment c)) seg =
                    Some (idle, [Some (series_bytes seg [])])).
    { rewrite (classify_first _ _ Hfir). cbn. rewrite Hz. reflexivity. }
    destruct (frame_step c _ acc raw seg _ _ Hst Hh Hfit HB Hlen Hnext)
      as (c2 & tr & E & -> & Hst2 & _ & _ & _ & Hn2).
    exists c2. split.
    + rewrite E. unfold series_bytes. cbn. now rewrite !app_nil_r.
    + split; [now inversion Hst2|]. apply Hn2. discriminate.
  - assert (Hnext : tfun_next (in_A1 x) (classify seg (last_segment c)) seg =
                    Some (in_A1 seg, [])).
    { rewrite (classify_first _ _ Hfir). cbn. rewrite Hz. reflexivity. }
    destruct (frame_step c _ acc raw seg _ _ Hst Hh Hfit HB Hlen Hnext)
      as (c2 & tr & E & -> & Hst2 & _ & _ & Hh2 & _).
    exists c2. split; [exact E|]. split; [assumption|now apply Hh2].
Qed.

(** X25: a retransmitted segment of an open series adds nothing to the
    series but its frame is buffered all the same: the only event is
    [transport_segment], the recognizer keeps the segments it had, and
    the raw bytes of the frame are appended to the buffer, so that they
    come with the fragment when the series is delivered. *)
Theorem retransmission_is_buffered c st x xs acc raw seg :
  tfun_state c st -> open_series st x xs -> holds c acc ->
  Z.of_nat (List.length (acc ++ raw)) <= BUFLEN -> in_range BUFLEN ->
  len seg <= SEGMAX -> fir seg = false -> fin seg = false ->
  segment_equal seg (last_segment c) = true ->
  exists c2,
    (c1 <- append_raw c raw ;; process_transport_segment c1 seg) =
      Ok c2 [transport_segment seg] /\
    tfun_state c2 (in_pe x xs) /\ holds c2 (acc ++ raw).
Proof.
  intros Hst Hopen Hh Hfit HB Hlen Hfir Hz Heq.
  assert (Hc : classify seg (last_segment c) = cls_equ).
  { unfold classify. now rewrite Hfir, Heq. }
  assert (Hnext : tfun_next st (classify seg (last_segment c)) seg =
                  Some (in_pe x xs, [])).
  { rewrite Hc. destruct Hopen as [[-> ->]| ->]; cbn; rewrite Hz;
      reflexivity. }
  destruct (frame_step c _ acc raw seg _ _ Hst Hh Hfit HB Hlen Hnext)
    as (c2 & tr & E & -> & Hst2 & _ & _ & Hh2 & _).
  exists c2. split; [exact E|]. split; [assumption|now apply Hh2].
Qed.

(** X24: the context of a frame is looked up before its payload is
    parsed.  A frame whose payload the segment parser rejects still gets
    the context of its pair, moved or made or reused, at the head of the
    table; nothing is buffered for it, and [transport_reject] is its last
    event. *)
Theorem rejected_payload_claims_context ok t f raw pl c others tr1 :
  func f = DNP3_UNCONFIRMED_USER_DATA -> frame_payload f = Some pl ->
  dnp3_p_transport_segment pl = None ->
  lookup_context ok t (source f) (destination f) = Ok (Some c, others) tr1 ->
  process_link_frame ok t f raw =
    Ok (c :: others) (link_frame f raw :: tr1 ++ [transport_reject]) /\
  key c = (source f, destination f).
Proof.
  intros Hf Hpl Hseg Hl. split.
  - unfold process_link_frame. rewrite Hf, Hpl.
    rewrite (bind_Ok_l _ _ _ _ Hl). rewrite Hseg. reflexivity.
  - eapply lookup_context_head. eassumption.
Qed.

(** ** The feed loop *)

Lemma firstn_add_skipn {A} a b (l : list A) :
  firstn (a + b) l = firstn a l ++ firstn b (skipn a l).
Proof.
  revert l. induction a as [|a IH]; intros l; [reflexivity|].
  destruct l as [|x l]; cbn [Nat.add firstn skipn app].
  - now rewrite firstn_nil.
  - now rewrite IH.
Qed.

Lemma bytes_at_app mem a l1 l2 :
  0 <= a -> 0 <= l1 -> 0 <= l2 ->
  bytes_at mem a l1 ++ bytes_at mem (a + l1) l2 = bytes_at mem a (l1 + l2).
Proof.
  intros Ha H1 H2. unfold bytes_at.
  rewrite !Z2Nat.inj_add by assumption.
  rewrite firstn_add_skipn, skipn_skipn.
  now rewrite (Nat.add_comm (Z.to_nat l1)).
Qed.

Lemma bytes_at_length mem p l :
  0 <= p -> 0 <= l -> p + l <= Z.of_nat (List.length mem) ->
  List.length (bytes_at mem p l) = Z.to_nat l.
Proof.
  intros Hp Hl H. unfold bytes_at.
  apply firstn_length_le. rewrite length_skipn. lia.
Qed.

Lemma bytes_at_sub mem p n a l :
  0 <= p -> 0 <= a -> 0 <= l -> a + l <= n ->
  bytes_at (bytes_at mem p n) a l = bytes_at mem (p + a) l.
Proof.
  intros Hp Ha Hl H. unfold bytes_at.
  rewrite skipn_firstn_comm, firstn_firstn, skipn_skipn.
  rewrite Z2Nat.inj_add by assumption.
  rewrite (Nat.add_comm (Z.to_nat a)).
  f_equal. lia.
Qed.

Lemma bytes_at_nil mem p : bytes_at mem p 0 = [].
Proof. reflexivity. Qed.

Lemma assert_bind_Ok {A} b f (k : M A) x tr :
  (assert b f ;;; k) = Ok x tr -> b = true /\ k = Ok x tr.
Proof.
  destruct b; cbn [assert].
  - rewrite bind_ret_l. now split.
  - discriminate.
Qed.

Lemma assert_true_bind {A} f (k : M A) : (assert true f ;;; k) = k.
Proof. cbn [assert]. apply bind_ret_l. Qed.

Lemma dissect_app a1 : forall t a2,
  dissect t (a1 ++ a2) = (t1 <- dissect t a1 ;; dissect t1 a2).
Proof.
  induction a1 as [|a a1 IH]; intros t a2; cbn [app dissect].
  - now rewrite bind_ret_l.
  - destruct (process_link_frame (arr_calloc_ok a) t (arr_frame a)
                (arr_raw a)) as [t1 tr1|f tr1]; [|reflexivity].
    cbn [bind]. rewrite IH.
    destruct (dissect t1 a1) as [t2 tr2|f tr2]; [|reflexivity].
    cbn [bind]. destruct (dissect t2 a2); now rewrite ?app_assoc.
Qed.

Section Feed.

Variable calloc_ok : nat -> bool.
Variable mem : list byte.
Variables p n : Z.
Hypothesis Hsync : sync_bounded.
Hypothesis Hp : 0 <= p.
Hypothesis Hmem : p + n <= Z.of_nat (List.length mem).
Hypothesis Hrange : in_range n.

(** One round of the loop: the frame takes between 1 and [n - m]
    bytes. *)
Lemma feed_round m f bl :
  0 <= m <= n ->
  dnp3_p_synced_frame (bytes_at mem (p + m) (size_t (n - m))) = Some (f, bl) ->
  (bl mod 8 =? 0) = true -> (0 <? size_t (bl / 8)) = true ->
  size_t (bl / 8) = bl / 8 /\ 0 < bl / 8 /\ m + bl / 8 <= n /\
  size_t (m + bl / 8) = m + bl / 8.
Proof.
  intros Hm E H8 Hc. unfold in_range in Hrange.
  assert (Hs : size_t (n - m) = n - m).
  { apply size_t_small. unfold in_range. lia. }
  rewrite Hs in E. apply Hsync in E.
  rewrite bytes_at_length in E by lia.
  rewrite Z2Nat.id in E by lia.
  assert (Hq : 0 <= bl / 8 <= n - m).
  { split; [apply Z.div_pos; lia|].
    apply Z.div_le_upper_bound; lia. }
  assert (Hs1 : size_t (bl / 8) = bl / 8).
  { apply size_t_small. unfold in_range. lia. }
  rewrite Hs1 in Hc. apply Z.ltb_lt in Hc.
  repeat split; try assumption; try lia.
  apply size_t_small. unfold in_range. lia.
Qed.

Lemma feed_loop_spec fuel : forall k ctxs m t m' tr,
  0 <= m <= n ->
  feed_loop fuel calloc_ok k ctxs mem p m n = Ok (t, m') tr ->
  m <= m' <= n /\
  dnp3_p_synced_frame (bytes_at mem (p + m') (n - m')) = None /\
  exists arrivals,
    dissect ctxs arrivals = Ok t tr /\
    List.concat (map arr_raw arrivals) = bytes_at mem (p + m) (m' - m).
Proof.
  induction fuel as [|fuel IH]; intros k ctxs m t m' tr Hm H.
  - cbn [feed_loop] in H.
    destruct (dnp3_p_synced_frame (bytes_at mem (p + m) (size_t (n - m))))
      as [[f bl]|] eqn:E; [discriminate|].
    unfold ret in H. injection H as <- <- <-.
    rewrite size_t_small in E by (unfold in_range in *; lia).
    split; [lia|]. split; [assumption|].
    exists []. split; [reflexivity|]. now rewrite Z.sub_diag.
  - cbn [feed_loop] in H.
    destruct (dnp3_p_synced_frame (bytes_at mem (p + m) (size_t (n - m))))
      as [[f bl]|] eqn:E.
    + cbv zeta in H.
      apply assert_bind_Ok in H as [H8 H].
      apply assert_bind_Ok in H as [Hc H].
      destruct (feed_round m f bl Hm E H8 Hc) as (Hs & Hpos & Hle & Hs1).
      rewrite Hs, Hs1 in H.
      apply bind_Ok_inv in H as (t1 & tr1 & tr2 & H1 & H & ->).
      apply IH in H as (Hm' & Hnone & arrivals & Hd & Hraw); [|lia].
      split; [lia|]. split; [assumption|].
      exists (mkArrival f (bytes_at mem (p + m) (bl / 8)) (calloc_ok k)
              :: arrivals).
      split.
      * cbn [dissect arr_calloc_ok arr_frame arr_raw].
        rewrite H1. cbn [bind]. rewrite Hd. reflexivity.
      * cbn [map List.concat arr_raw]. rewrite Hraw.
        replace (p + (m + bl / 8)) with (p + m + bl / 8) by lia.
        rewrite bytes_at_app by lia. f_equal. lia.
    + unfold ret in H. injection H as <- <- <-.
      rewrite size_t_small in E by (unfold in_range in *; lia).
      split; [lia|]. split; [assumption|].
      exists []. split; [reflexivity|]. now rewrite Z.sub_diag.
Qed.

(** The iteration bound does not matter once it exceeds the number of
    bytes left. *)
Lemma feed_loop_any_fuel fuel1 : forall fuel2 k ctxs m,
  0 <= m <= n ->
  (Z.to_nat (n - m) < fuel1)%nat -> (Z.to_nat (n - m) < fuel2)%nat ->
  feed_loop fuel1 calloc_ok k ctxs mem p m n =
  feed_loop fuel2 calloc_ok k ctxs mem p m n.
Proof.
  induction fuel1 as [|fuel1 IH]; intros fuel2 k ctxs m Hm H1 H2; [lia|].
  destruct fuel2 as [|fuel2]; [lia|].
  cbn [feed_loop].
  destruct (dnp3_p_synced_frame (bytes_at mem (p + m) (size_t (n - m))))
    as [[f bl]|] eqn:E; [|reflexivity].
  cbv zeta.
  destruct (bl mod 8 =? 0) eqn:H8; [|reflexivity].
  rewrite !assert_true_bind.
  destruct (0 <? size_t (bl / 8)) eqn:Hc; [|reflexivity].
  rewrite !assert_true_bind.
  destruct (feed_round m f bl Hm E H8 Hc) as (Hs & Hpos & Hle & Hs1).
  rewrite Hs, Hs1.
  destruct (process_link_frame (calloc_ok k) ctxs f
              (bytes_at mem (p + m) (bl / 8))) as [t1 tr1|f1 tr1];
    [|reflexivity].
  cbn [bind]. rewrite (IH fuel2); [reflexivity|lia|lia|lia].
Qed.

Lemma feed_loop_in_bound fuel : forall k ctxs m,
  Forall ctx_inv ctxs -> 0 <= m <= n ->
  (Z.to_nat (n - m) < fuel)%nat ->
  out_of_fuel (feed_loop fuel calloc_ok k ctxs mem p m n) = false.
Proof.
  induction fuel as [|fuel IH]; intros k ctxs m Ht Hm Hf; [lia|].
  cbn [feed_loop].
  destruct (dnp3_p_synced_frame (bytes_at mem (p + m) (size_t (n - m))))
    as [[f bl]|] eqn:E; [|reflexivity].
  cbv zeta.
  destruct (bl mod 8 =? 0) eqn:H8; [|reflexivity].
  rewrite !assert_true_bind.
  destruct (0 <? size_t (bl / 8)) eqn:Hc; [|reflexivity].
  rewrite !assert_true_bind.
  destruct (feed_round m f bl Hm E H8 Hc) as (Hs & Hpos & Hle & Hs1).
  rewrite Hs, Hs1.
  destruct (process_link_frame (calloc_ok k) ctxs f
              (bytes_at mem (p + m) (bl / 8))) as [t1 tr1|f1 tr1] eqn:E1.
  - cbn [bind].
    pose proof (IH (S k) t1 (m + bl / 8)
                  (process_link_frame_inv _ _ _ _ _ _ Ht E1)) as Hi.
    destruct (feed_loop fuel calloc_ok (S k) t1 mem p (m + bl / 8) n)
      as [r tr2|f2 tr2]; [reflexivity|].
    cbn [out_of_fuel] in *. apply Hi; lia.
  - cbn [bind out_of_fuel].
    apply (process_link_frame_faults _ _ _ _ _ _ Ht) in E1.
    destruct E1 as [->|[->| ->]]; reflexivity.
Qed.

End Feed.

(** ** The synchronizer *)

Lemma synced_frame_unfold input :
  dnp3_p_synced_frame input =
  match dnp3_p_link_frame input with
  | Some r => Some r
  | None =>
      match input with
      | [] => None
      | _ :: rest =>
          match dnp3_p_synced_frame rest with
          | Some (frame, bit_length) => Some (frame, 8 + bit_length)
          | None => None
          end
      end
  end.
Proof. destruct input; reflexivity. Qed.

(** X20: the synchronizer finds the first frame.  When it returns a
    frame, the link-layer parser accepts that frame at some offset [k]
    of the input and rejects every earlier offset, and [bit_length]
    counts the [k] skipped bytes and the frame; when it returns NULL, the
    link-layer parser rejects every offset of the input, the end
    included. *)
Theorem synced_frame_is_first input :
  match dnp3_p_synced_frame input with
  | Some (f, bl) =>
      exists k,
        (k <= List.length input)%nat /\
        dnp3_p_link_frame (skipn k input) = Some (f, bl - 8 * Z.of_nat k) /\
        forall j, (j < k)%nat -> dnp3_p_link_frame (skipn j input) = None
  | None =>
      forall j, (j <= List.length input)%nat ->
                dnp3_p_link_frame (skipn j input) = None
  end.
Proof.
  induction input as [|b rest IH]; rewrite synced_frame_unfold.
  - destruct (dnp3_p_link_frame []) as [[f bl]|] eqn:E.
    + exists 0%nat. cbn [skipn List.length Z.of_nat].
      rewrite Z.sub_0_r. repeat split; [lia|assumption|lia].
    + intros j Hj. now rewrite skipn_nil.
  - destruct (dnp3_p_link_frame (b :: rest)) as [[f bl]|] eqn:E.
    + exists 0%nat. cbn [skipn Z.of_nat].
      rewrite Z.sub_0_r. repeat split; [lia|assumption|lia].
    + destruct (dnp3_p_synced_frame rest) as [[f bl]|].
      * destruct IH as (k & Hk & Hf & Hno). exists (S k).
        cbn [skipn List.length]. split; [lia|]. split.
        -- rewrite Hf. f_equal. f_equal. lia.
        -- intros [|j] Hj; [assumption|]. apply Hno. lia.
      * intros [|j] Hj; [assumption|]. cbn [skipn]. apply IH.
        cbn [List.length] in Hj. lia.
Qed.

Lemma synced_frame_well_formed :
  link_well_formed ->
  forall input f bl,
    dnp3_p_synced_frame input = Some (f, bl) ->
    0 < bl <= 8 * Z.of_nat (List.length input) /\ bl mod 8 = 0.
Proof.
  intros Hl. induction input as [|b rest IH]; intros f bl;
    rewrite synced_frame_unfold.
  - destruct (dnp3_p_link_frame []) as [[f0 bl0]|] eqn:E; [|discriminate].
    intros [= <- <-]. now apply Hl in E.
  - destruct (dnp3_p_link_frame (b :: rest)) as [[f0 bl0]|] eqn:E.
    + intros [= <- <-]. now apply Hl in E.
    + destruct (dnp3_p_synced_frame rest) as [[f0 bl0]|]; [|discriminate].
      intros H. destruct (IH _ _ eq_refl) as [Hb Hm].
      assert (Hbl : bl = 8 + bl0) by congruence. clear H. subst bl.
      rewrite length_cons. split; [lia|].
      rewrite <- (Z.mul_1_l 8) at 1. now rewrite Z.add_comm, Z_mod_plus_full.
Qed.

Lemma link_sync_bounded : link_well_formed -> sync_bounded.
Proof.
  intros Hl input f bl E.
  apply (synced_frame_well_formed Hl) in E. lia.
Qed.

(** ** The plugin *)

Lemma memcpy_at_length dest a data :
  0 <= a ->
  a + Z.of_nat (List.length data) <= Z.of_nat (List.length dest) ->
  List.length (memcpy_at dest a data) = List.length dest.
Proof.
  intros Ha H. unfold memcpy_at.
  rewrite !length_app, length_firstn, length_skipn. lia.
Qed.

Lemma bytes_at_memcpy_at dest a data :
  0 <= a -> a <= Z.of_nat (List.length dest) ->
  bytes_at (memcpy_at dest a data) a (Z.of_nat (List.length data)) = data.
Proof.
  intros Ha H. unfold bytes_at, memcpy_at. rewrite Nat2Z.id.
  rewrite skipn_app.
  rewrite length_firstn, Nat.min_l by lia.
  rewrite Nat.sub_diag. cbn [skipn].
  rewrite (skipn_all2 (firstn (Z.to_nat a) dest))
    by (rewrite length_firstn; lia).
  cbn [app]. rewrite firstn_app, Nat.sub_diag, firstn_O, app_nil_r.
  apply firstn_all.
Qed.

(** What a call that returns has done, in terms of [m], the number of
    bytes the loop has consumed. *)
Lemma feed_unfold fuel ok p n p' tr :
  sync_bounded -> in_range BUFLEN -> plugin_inv p ->
  0 <= n <= base_bufsize p ->
  dnp3_dissect_feed fuel ok p n = Ok p' tr ->
  exists m arrivals,
    0 <= m <= n /\
    dnp3_p_synced_frame
      (bytes_at (plugin_buf p) (base_buf p + m) (n - m)) = None /\
    dissect (contexts p) arrivals = Ok (contexts p') tr /\
    List.concat (map arr_raw arrivals) =
      bytes_at (plugin_buf p) (base_buf p) m /\
    base_buf p' = n - m /\ base_bufsize p' = BUFLEN - (n - m) /\
    plugin_buf p' =
      memcpy_at (plugin_buf p) 0
        (bytes_at (plugin_buf p) (base_buf p + m) (n - m)).
Proof.
  intros Hsync HB (Hb & Hs & Hsum & Hlen) Hn H.
  unfold dnp3_dissect_feed in H. unfold in_range in HB.
  apply bind_Ok_inv in H as ([t m'] & tr1 & tr2 & Hl & H & ->).
  cbv beta iota zeta in H. unfold ret in H. injection H as <- <-.
  rewrite app_nil_r.
  assert (Hr : in_range n) by (unfold in_range; lia).
  assert (Hmem : base_buf p + n <= Z.of_nat (List.length (plugin_buf p))).
  { rewrite Hlen, Z2Nat.id by lia. lia. }
  destruct (feed_loop_spec ok (plugin_buf p) (base_buf p) n Hsync Hb
              Hmem Hr fuel 0%nat (contexts p) 0 t m' tr1)
    as (Hm' & Hnone & arrivals & Hd & Hraw); [lia|assumption|].
  assert (Hn' : size_t (n - m') = n - m').
  { apply size_t_small. unfold in_range. lia. }
  exists m', arrivals.
  cbn [contexts base_buf plugin_buf base_bufsize]. rewrite Hn'.
  rewrite Z.sub_0_r, Z.add_0_r in Hraw.
  rewrite (size_t_small (BUFLEN - (n - m'))) by (unfold in_range; lia).
  repeat (split; try assumption; try reflexivity; try lia).
Qed.

Lemma feed_keeps_inv fuel ok p n p' tr :
  sync_bounded -> in_range BUFLEN -> plugin_inv p ->
  0 <= n <= base_bufsize p ->
  dnp3_dissect_feed fuel ok p n = Ok p' tr ->
  plugin_inv p' /\
  exists arrivals, dissect (contexts p) arrivals = Ok (contexts p') tr.
Proof.
  intros Hsync HB Hinv Hn H.
  destruct (feed_unfold _ _ _ _ _ _ Hsync HB Hinv Hn H)
    as (m & arrivals & Hm & _ & Hd & _ & Hb' & Hs' & Hbuf).
  destruct Hinv as (Hb & Hs & Hsum & Hlen). unfold in_range in HB.
  split; [|now exists arrivals].
  unfold plugin_inv. rewrite Hb', Hs', Hbuf.
  repeat split; try lia.
  rewrite memcpy_at_length; [assumption|lia|].
  rewrite bytes_at_length by lia. rewrite Hlen, !Z2Nat.id by lia. lia.
Qed.

(** X16: one call of [dnp3_dissect_feed], for a synchronizer that
    reports no more input than it was given and [n] bytes within
    [bufsize]: the input is cut, in order, into the raw frames handed to
    [process_link_frame] and a rest in which the synchronizer finds no
    frame; the rest is moved to the start of the array, [base.buf] is
    set behind it and [base.bufsize] to what is left of [BUFLEN]; the
    table and the events are those of the frames. *)
Theorem feed_splits_input fuel ok p n p' tr :
  sync_bounded -> in_range BUFLEN -> plugin_inv p ->
  0 <= n <= base_bufsize p ->
  dnp3_dissect_feed fuel ok p n = Ok p' tr ->
  exists arrivals,
    dissect (contexts p) arrivals = Ok (contexts p') tr /\
    List.concat (map arr_raw arrivals) ++
      bytes_at (plugin_buf p') 0 (base_buf p') =
    bytes_at (plugin_buf p) (base_buf p) n /\
    dnp3_p_synced_frame (bytes_at (plugin_buf p') 0 (base_buf p')) = None /\
    plugin_inv p'.
Proof.
  intros Hsync HB Hinv Hn H.
  destruct (feed_unfold _ _ _ _ _ _ Hsync HB Hinv Hn H)
    as (m & arrivals & Hm & Hnone & Hd & Hraw & Hb' & Hs' & Hbuf).
  destruct Hinv as (Hb & Hs & Hsum & Hlen). unfold in_range in HB.
  assert (Htail : List.length
            (bytes_at (plugin_buf p) (base_buf p + m) (n - m)) =
          Z.to_nat (n - m)).
  { apply bytes_at_length; lia. }
  assert (Hkeep : bytes_at (plugin_buf p') 0 (base_buf p') =
                  bytes_at (plugin_buf p) (base_buf p + m) (n - m)).
  { rewrite Hb', Hbuf.
    rewrite <- (Z2Nat.id (n - m)) at 2 by lia. rewrite <- Htail.
    apply bytes_at_memcpy_at; lia. }
  exists arrivals. split; [assumption|]. rewrite Hkeep.
  split; [|split; [assumption|]].
  - rewrite Hraw. replace n with (m + (n - m)) at 2 by lia.
    apply bytes_at_app; lia.
  - unfold plugin_inv. rewrite Hb', Hs', Hbuf.
    repeat split; try lia.
    rewrite memcpy_at_length; [assumption|lia|].
    rewrite Htail, Hlen, !Z2Nat.id by lia. lia.
Qed.

Lemma host_write_inv p data :
  plugin_inv p -> Z.of_nat (List.length data) <= base_bufsize p ->
  plugin_inv (host_write p data).
Proof.
  intros (Hb & Hs & Hsum & Hlen) Hd. unfold plugin_inv, host_write.
  cbn [contexts base_buf plugin_buf base_bufsize].
  repeat split; try assumption.
  rewrite memcpy_at_length; [assumption|assumption|].
  rewrite Hlen, Z2Nat.id by lia. lia.
Qed.

Lemma reachable_inv p :
  sync_bounded -> in_range BUFLEN -> reachable p ->
  plugin_inv p /\
  exists arrivals tr, dissect [] arrivals = Ok (contexts p) tr.
Proof.
  intros Hsync HB H.
  induction H as [mem p Hm Hnew|p data fuel ok p' tr Hr IH Hd Hf].
  - cbn [dnp3_dissect] in Hnew. injection Hnew as <-. split.
    + unfold plugin_inv, in_range in *. cbn.
      repeat split; try lia; assumption.
    + exists [], []. reflexivity.
  - destruct IH as [Hinv (a1 & tr1 & Hd1)].
    destruct (feed_keeps_inv fuel ok (host_write p data)
                (Z.of_nat (List.length data)) p' tr Hsync HB
                (host_write_inv _ _ Hinv Hd)) as (Hinv' & a2 & Hd2);
      [cbn [host_write base_bufsize]; lia|assumption|].
    split; [assumption|].
    exists (a1 ++ a2), (tr1 ++ tr). rewrite dissect_app, Hd1.
    cbn [bind host_write contexts] in *. now rewrite Hd2.
Qed.

(** X17: whatever the host feeds, in calls of at most [bufsize] bytes,
    to a plugin made by [dnp3_dissect]: [base.buf] and [base.bufsize]
    always describe the free end of the array of [BUFLEN] bytes, and the
    table is one that the frames of the stream, given to
    [process_link_frame] one after the other from the empty table, lead
    to; so it holds at most [CTXMAX] contexts, no pair twice, and every
    context has [0 <= n <= BUFLEN]. *)
Theorem reachable_plugin p :
  sync_bounded -> in_range BUFLEN -> reachable p ->
  plugin_inv p /\
  (exists arrivals tr, dissect [] arrivals = Ok (contexts p) tr) /\
  ((1 <= CTXMAX)%nat ->
   (List.length (contexts p) <= CTXMAX)%nat /\ NoDup (keys (contexts p))) /\
  Forall (fun c => 0 <= n c <= BUFLEN) (contexts p).
Proof.
  intros Hsync HB H.
  destruct (reachable_inv p Hsync HB H) as [Hinv (arrivals & tr & Hd)].
  split; [assumption|]. split; [now exists arrivals, tr|]. split.
  - intros HC.
    assert (Hshape : NoDup (keys (contexts p)) /\
                     (List.length (contexts p) <= CTXMAX)%nat).
    { apply (dissect_invariant
               (fun t => NoDup (keys t) /\ (List.length t <= CTXMAX)%nat))
        with (arrivals := arrivals) (t := []) (tr := tr).
      - intros ok t0 f raw t1 tr1 Ht H1.
        eapply table_shape_step; eassumption.
      - split; [constructor|cbn; lia].
      - assumption. }
    tauto.
  - eapply dissect_n_bound; [|constructor|eassumption].
    unfold in_range in HB. lia.
Qed.

Lemma reachable_ctx_inv p :
  sync_bounded -> in_range BUFLEN -> reachable p ->
  Forall ctx_inv (contexts p).
Proof.
  intros Hsync HB H.
  destruct (reachable_inv p Hsync HB H) as [_ (arrivals & tr & Hd)].
  eapply dissect_ctx_inv; [|eassumption]. constructor.
Qed.

(** X18: the loop of [dnp3_dissect_feed] ends.  For a synchronizer that
    reports no more input than it was given, every round takes at least
    one of the [n] bytes, so that the loop makes at most [n] rounds: in
    the model, any iteration bound above [n] gives the same outcome, and
    the bound is not what stops the run. *)
Theorem feed_iteration_bound p data ok fuel :
  sync_bounded -> in_range BUFLEN -> reachable p ->
  Z.of_nat (List.length data) <= base_bufsize p ->
  (List.length data < fuel)%nat ->
  out_of_fuel (dnp3_dissect_feed fuel ok (host_write p data)
                 (Z.of_nat (List.length data))) = false /\
  dnp3_dissect_feed fuel ok (host_write p data)
    (Z.of_nat (List.length data)) =
  dnp3_dissect_feed (S (List.length data)) ok (host_write p data)
    (Z.of_nat (List.length data)).
Proof.
  intros Hsync HB Hr Hd Hfuel.
  pose proof (reachable_ctx_inv p Hsync HB Hr) as Hc.
  destruct (reachable_inv p Hsync HB Hr) as [Hinv _].
  destruct (host_write_inv _ _ Hinv Hd) as (Hb & Hs & Hsum & Hlen).
  unfold in_range in HB.
  assert (Hrange : in_range (Z.of_nat (List.length data))).
  { unfold in_range. cbn [host_write base_bufsize] in *. lia. }
  assert (Hmem : base_buf (host_write p data) + Z.of_nat (List.length data)
                 <= Z.of_nat (List.length (plugin_buf (host_write p data)))).
  { rewrite Hlen, Z2Nat.id by lia. cbn [host_write base_bufsize] in *. lia. }
  unfold dnp3_dissect_feed. split.
  - pose proof (feed_loop_in_bound ok _ _ _ Hsync Hb Hmem Hrange fuel 0%nat
                  (contexts (host_write p data)) 0 Hc) as Hi.
    destruct (feed_loop fuel ok 0 (contexts (host_write p data))
                (plugin_buf (host_write p data))
                (base_buf (host_write p data)) 0
                (Z.of_nat (List.length data))) as [[t m'] tr|f tr].
    + reflexivity.
    + cbn [bind out_of_fuel] in *. apply Hi; lia.
  - rewrite (feed_loop_any_fuel ok _ _ _ Hsync Hb Hmem Hrange fuel
               (S (List.length data))); [reflexivity|lia|lia|lia].
Qed.

Lemma feed_loop_ext ok mem1 p1 mem2 p2 n :
  sync_bounded -> 0 <= p1 -> 0 <= p2 ->
  p1 + n <= Z.of_nat (List.length mem1) ->
  p2 + n <= Z.of_nat (List.length mem2) ->
  in_range n ->
  bytes_at mem1 p1 n = bytes_at mem2 p2 n ->
  (forall a l, 0 <= a -> 0 <= l -> a + l <= n ->
     bytes_at mem1 (p1 + a) l = bytes_at mem2 (p2 + a) l) /\
  forall fuel k ctxs m,
    0 <= m <= n ->
    feed_loop fuel ok k ctxs mem1 p1 m n =
    feed_loop fuel ok k ctxs mem2 p2 m n.
Proof.
  intros Hsync Hp1 Hp2 Hm1 Hm2 Hr E.
  assert (Hext : forall a l, 0 <= a -> 0 <= l -> a + l <= n ->
            bytes_at mem1 (p1 + a) l = bytes_at mem2 (p2 + a) l).
  { intros a l Ha Hl Hal.
    rewrite <- (bytes_at_sub mem1 p1 n a l) by assumption.
    rewrite <- (bytes_at_sub mem2 p2 n a l) by assumption.
    now rewrite E. }
  split; [exact Hext|].
  induction fuel as [|fuel IH]; intros k ctxs m Hm; cbn [feed_loop];
    assert (Hs : size_t (n - m) = n - m)
      by (apply size_t_small; unfold in_range in *; lia);
    pose proof (Hext m (n - m)) as Hin;
    rewrite Hs in *; rewrite Hin by lia;
    destruct (dnp3_p_synced_frame (bytes_at mem2 (p2 + m) (n - m)))
      as [[f bl]|] eqn:Ef; try reflexivity.
  cbv zeta.
  destruct (bl mod 8 =? 0) eqn:H8; [|reflexivity].
  rewrite !assert_true_bind.
  destruct (0 <? size_t (bl / 8)) eqn:Hc; [|reflexivity].
  rewrite !assert_true_bind.
  rewrite <- Hs in Ef.
  destruct (feed_round mem2 p2 n Hsync Hp2 Hm2 Hr m f bl Hm Ef H8 Hc)
    as (Hs0 & Hpos & Hle & Hs1).
  rewrite Hs0, Hs1. rewrite (Hext m (bl / 8)) by lia.
  destruct (process_link_frame (ok k) ctxs f
              (bytes_at mem2 (p2 + m) (bl / 8))) as [t1 tr1|f1 tr1];
    [|reflexivity].
  cbn [bind]. rewrite IH by lia. reflexivity.
Qed.

(** X19: a call of [dnp3_dissect_feed] parses the bytes the host has
    put at [base.buf] and no others: the bytes kept at the start of the
    array by the call before are not part of its input.  With the same
    table and the same new bytes, the events, the resulting table, the
    new [base.buf], [base.bufsize] and the bytes kept are those of a
    plugin that had kept nothing. *)
Theorem retained_bytes_not_parsed fuel ok p data :
  sync_bounded -> in_range BUFLEN -> plugin_inv p ->
  Z.of_nat (List.length data) <= base_bufsize p ->
  same_outcome
    (dnp3_dissect_feed fuel ok (host_write p data)
       (Z.of_nat (List.length data)))
    (dnp3_dissect_feed fuel ok
       (host_write (mkPlugin 0 BUFLEN (plugin_buf p) (contexts p)) data)
       (Z.of_nat (List.length data))).
Proof.
  intros Hsync HB (Hb & Hs & Hsum & Hlen) Hd. unfold in_range in HB.
  set (n0 := Z.of_nat (List.length data)) in *.
  set (mem1 := memcpy_at (plugin_buf p) (base_buf p) data).
  set (mem2 := memcpy_at (plugin_buf p) 0 data).
  assert (Hl1 : List.length mem1 = Z.to_nat BUFLEN).
  { unfold mem1. rewrite memcpy_at_length; [assumption|assumption|].
    rewrite Hlen, Z2Nat.id by lia. fold n0. lia. }
  assert (Hl2 : List.length mem2 = Z.to_nat BUFLEN).
  { unfold mem2. rewrite memcpy_at_length; [assumption|lia|].
    rewrite Hlen, Z2Nat.id by lia. fold n0. lia. }
  assert (E : bytes_at mem1 (base_buf p) n0 = bytes_at mem2 0 n0).
  { unfold mem1, mem2, n0.
    rewrite !bytes_at_memcpy_at; try reflexivity; try lia;
      rewrite Hlen, Z2Nat.id; lia. }
  assert (Hr : in_range n0) by (unfold in_range, n0 in *; lia).
  destruct (feed_loop_ext ok mem1 (base_buf p) mem2 0 n0 Hsync Hb
              (Z.le_refl 0)) as [Hext Hloop]; try assumption.
  { rewrite Hl1, Z2Nat.id by lia. lia. }
  { rewrite Hl2, Z2Nat.id by lia. lia. }
  unfold dnp3_dissect_feed, host_write.
  cbn [contexts base_buf plugin_buf base_bufsize].
  fold mem1 mem2. rewrite (Hloop fuel 0%nat (contexts p) 0) by lia.
  destruct (feed_loop fuel ok 0 (contexts p) mem2 0 0 n0)
    as [[t m'] tr|f tr] eqn:El; [|now split].
  cbn [bind ret same_outcome contexts base_buf plugin_buf base_bufsize].
  assert (Hmem2 : 0 + n0 <= Z.of_nat (List.length mem2)).
  { rewrite Hl2, Z2Nat.id by lia. lia. }
  destruct (feed_loop_spec ok mem2 0 n0 Hsync (Z.le_refl 0) Hmem2 Hr
              fuel 0%nat (contexts p) 0 t m' tr) as (Hm' & _);
    [lia|assumption|].
  assert (Hn' : size_t (n0 - m') = n0 - m').
  { apply size_t_small. unfold in_range. lia. }
  rewrite Hn'. repeat (split; [reflexivity|]).
  rewrite (Hext m' (n0 - m')) by lia.
  set (tail := bytes_at mem2 (0 + m') (n0 - m')).
  assert (Ht : Z.of_nat (List.length tail) = n0 - m').
  { unfold tail. rewrite bytes_at_length; lia. }
  rewrite <- Ht.
  rewrite !bytes_at_memcpy_at; try reflexivity; lia.
Qed.

Lemma synced_frame_at k : forall input f bl,
  (k <= List.length input)%nat ->
  dnp3_p_link_frame (skipn k input) = Some (f, bl) ->
  (forall j, (j < k)%nat -> dnp3_p_link_frame (skipn j input) = None) ->
  dnp3_p_synced_frame input = Some (f, 8 * Z.of_nat k + bl).
Proof.
  induction k as [|k IH]; intros input f bl Hk Hf Hno;
    rewrite synced_frame_unfold.
  - cbn [skipn] in Hf. rewrite Hf. reflexivity.
  - pose proof (Hno 0%nat) as H0. cbn [skipn] in H0. rewrite H0 by lia.
    destruct input as [|b rest]; [cbn in Hk; lia|].
    cbn [skipn List.length] in *.
    rewrite (IH rest f bl); [| lia | assumption |].
    + f_equal. f_equal. lia.
    + intros j Hj. apply (Hno (S j)). lia.
Qed.

Lemma hd_trace_bind {A B} (m : M A) (k : A -> M B) e :
  hd_error (trace m) = Some e -> hd_error (trace (bind m k)) = Some e.
Proof.
  destruct m as [a t|f t]; cbn [trace bind]; [|auto].
  destruct t as [|e0 t]; [discriminate|]. intros H.
  destruct (k a); exact H.
Qed.

(** X22: the first frame of the input is announced.  If the link-layer
    parser accepts a frame at offset [k] of the [n] bytes the host has
    put at [base.buf], and rejects every earlier offset, the first event
    of the call is the [link_frame] event of that frame; its raw bytes
    are the frame with the [k] skipped bytes in front of it. *)
Theorem first_frame_announced fuel ok p n k f bl :
  link_well_formed -> in_range BUFLEN -> plugin_inv p ->
  0 <= n <= base_bufsize p ->
  (k <= Z.to_nat n)%nat ->
  dnp3_p_link_frame (skipn k (bytes_at (plugin_buf p) (base_buf p) n))
    = Some (f, bl) ->
  (forall j, (j < k)%nat ->
     dnp3_p_link_frame (skipn j (bytes_at (plugin_buf p) (base_buf p) n))
       = None) ->
  hd_error (trace (dnp3_dissect_feed (S fuel) ok p n)) =
  Some (link_frame f
          (firstn (k + Z.to_nat (bl / 8))
                  (bytes_at (plugin_buf p) (base_buf p) n))).
Proof.
  intros Hl HB (Hb & Hs & Hsum & Hlen) Hn Hk Hf Hno.
  unfold in_range in HB.
  assert (Hin : List.length (bytes_at (plugin_buf p) (base_buf p) n) =
                Z.to_nat n).
  { apply bytes_at_length; lia. }
  pose proof (synced_frame_at k
                (bytes_at (plugin_buf p) (base_buf p) n) f bl) as Hsync.
  rewrite Hin in Hsync. specialize (Hsync Hk Hf Hno).
  destruct (Hl _ _ _ Hf) as [Hbl H8].
  rewrite length_skipn, Hin in Hbl.
  assert (Hq : 0 < bl / 8 <= n - Z.of_nat k).
  { split.
    - apply Z.div_str_pos. split; [lia|].
      pose proof (Z.div_mod bl 8). lia.
    - apply Z.div_le_upper_bound; lia. }
  assert (Hc : (8 * Z.of_nat k + bl) / 8 = Z.of_nat k + bl / 8).
  { rewrite Z.mul_comm, Z.add_comm. rewrite Z.div_add by lia. lia. }
  unfold dnp3_dissect_feed. apply hd_trace_bind.
  cbn [feed_loop]. rewrite Z.sub_0_r, Z.add_0_r.
  rewrite (size_t_small n) by (unfold in_range; lia).
  rewrite Hsync. cbv zeta.
  assert (H8' : ((8 * Z.of_nat k + bl) mod 8 =? 0) = true).
  { apply Z.eqb_eq. rewrite Z.mul_comm, Z.add_comm, Z_mod_plus_full.
    assumption. }
  rewrite H8', assert_true_bind, Hc.
  rewrite (size_t_small (Z.of_nat k + bl / 8)) by (unfold in_range; lia).
  assert (Hpos : (0 <? Z.of_nat k + bl / 8) = true) by (apply Z.ltb_lt; lia).
  rewrite Hpos, assert_true_bind.
  apply hd_trace_bind. unfold process_link_frame.
  assert (Hraw : bytes_at (plugin_buf p) (base_buf p) (Z.of_nat k + bl / 8) =
                 firstn (k + Z.to_nat (bl / 8))
                        (bytes_at (plugin_buf p) (base_buf p) n)).
  { unfold bytes_at. rewrite firstn_firstn.
    rewrite Z2Nat.inj_add, Nat2Z.id by lia.
    f_equal. lia. }
  rewrite Hraw. apply hd_trace_bind. reflexivity.
Qed.

Lemma feed_loop_faults ok mem p n :
  link_well_formed -> 0 <= p ->
  p + n <= Z.of_nat (List.length mem) -> in_range n ->
  forall fuel k ctxs m f tr,
    Forall ctx_inv ctxs -> 0 <= m <= n ->
    (Z.to_nat (n - m) < fuel)%nat ->
    feed_loop fuel ok k ctxs mem p m n = Crash f tr -> data_fault f.
Proof.
  intros Hl Hp Hmem Hr.
  pose proof (link_sync_bounded Hl) as Hsync.
  induction fuel as [|fuel IH]; intros k ctxs m f tr Ht Hm Hf; [lia|].
  cbn [feed_loop].
  destruct (dnp3_p_synced_frame (bytes_at mem (p + m) (size_t (n - m))))
    as [[fr bl]|] eqn:E; [|discriminate].
  cbv zeta.
  destruct (synced_frame_well_formed Hl _ _ _ E) as [Hb H8].
  apply Z.eqb_eq in H8. rewrite H8, assert_true_bind.
  assert (Hc : (0 <? size_t (bl / 8)) = true).
  { apply Z.eqb_eq in H8.
    assert (0 < bl / 8).
    { apply Z.div_str_pos. split; [lia|].
      destruct (Z.eq_dec bl 0); [lia|].
      assert (8 <= bl); [|lia].
      pose proof (Z.div_mod bl 8). lia. }
    assert (bl / 8 <= n - m).
    { apply Z.div_le_upper_bound; [lia|].
      rewrite size_t_small in Hb by (unfold in_range in *; lia).
      rewrite bytes_at_length in Hb by lia.
      rewrite Z2Nat.id in Hb by lia. lia. }
    rewrite size_t_small by (unfold in_range in *; lia).
    now apply Z.ltb_lt. }
  rewrite Hc, assert_true_bind.
  destruct (feed_round mem p n Hsync Hp Hmem Hr m fr bl Hm E H8 Hc)
    as (Hs & Hpos & Hle & Hs1).
  rewrite Hs, Hs1. intros H.
  apply bind_Crash_inv in H as [H|(t1 & tr1 & tr2 & H1 & H & _)].
  - eapply process_link_frame_faults; eassumption.
  - eapply IH; [| | |exact H]; try lia.
    eapply process_link_frame_inv; eassumption.
Qed.

(** X21: for a link-layer parser that takes whole bytes, at least one
    and no more than it was given, a call of [dnp3_dissect_feed] on a
    plugin the host has used as intended never fails its own checks
    [bit_length%8 == 0] and [consumed > 0], nor any of the checks of X7.
    The assertions on results of the parser library, [r->ast != NULL] of
    [dnp3_dissect_feed] among them, are not part of this statement. *)
Theorem feed_checks_hold p data ok fuel f tr :
  link_well_formed -> in_range BUFLEN -> reachable p ->
  Z.of_nat (List.length data) <= base_bufsize p ->
  (List.length data < fuel)%nat ->
  dnp3_dissect_feed fuel ok (host_write p data)
    (Z.of_nat (List.length data)) = Crash f tr ->
  f <> assert_ttok_index /\ f <> ttok_values_out_of_range /\
  f <> null_segment_deref /\ f <> assert_tfun_null /\
  f <> assert_no_stuck_results /\ f <> assert_bit_length /\
  f <> assert_consumed /\ f <> loop_fuel.
Proof.
  intros Hl HB Hr Hd Hfuel H. apply data_fault_others.
  pose proof (link_sync_bounded Hl) as Hsync.
  pose proof (reachable_ctx_inv p Hsync HB Hr) as Hc.
  destruct (reachable_inv p Hsync HB Hr) as [Hinv _].
  destruct (host_write_inv _ _ Hinv Hd) as (Hb & Hs & Hsum & Hlen).
  unfold in_range in HB.
  assert (Hrange : in_range (Z.of_nat (List.length data))).
  { unfold in_range. cbn [host_write base_bufsize] in *. lia. }
  assert (Hmem : base_buf (host_write p data) + Z.of_nat (List.length data)
                 <= Z.of_nat (List.length (plugin_buf (host_write p data)))).
  { rewrite Hlen, Z2Nat.id by lia. cbn [host_write base_bufsize] in *. lia. }
  unfold dnp3_dissect_feed in H.
  apply bind_Crash_inv in H as [H|([t m'] & tr1 & tr2 & _ & H & _)];
    [|discriminate].
  eapply (feed_loop_faults ok _ _ _ Hl Hb Hmem Hrange fuel 0%nat
            (contexts (host_write p data)) 0 f tr Hc); [lia|lia|exact H].
Qed.

End Dissect.

Arguments Ok {DNP3_Fragment A} a tr.
Arguments Crash {DNP3_Fragment A} f tr.
Arguments trace {DNP3_Fragment A} m.
Arguments payloads {DNP3_Fragment} tr.
Arguments link_frame {DNP3_Fragment} f raw.
Arguments transport_reject {DNP3_Fragment}.
Arguments transport_segment {DNP3_Fragment} s.
Arguments transport_payload {DNP3_Fragment} t.
Arguments app_reject {DNP3_Fragment}.
Arguments log_error {DNP3_Fragment} msg.

(** * Concrete runs *)

(** Modelled from the spec: the segment parser is not part of the
    sources.  Section 6 gives the wire format: one header byte, bit 7
    [FIR], bit 6 [FIN], bits 5..0 [SEQ], and the payload is the rest; an
    empty input is rejected. *)
Definition segment_of_bytes (bs : list byte) : option DNP3_Segment :=
  match bs with
  | [] => None
  | h :: rest =>
      let v := Byte.to_N h in
      Some (mkSegment (N.testbit v 7) (N.testbit v 6)
                      (Z.of_N (N.land v 63)) rest)
  end.

(** An application parser that rejects everything. *)
Definition no_app : list byte -> option (AppAst unit) := fun _ => None.

Definition user_data (s d : Z) (bs : list byte) : Arrival :=
  mkArrival (mkFrame DNP3_UNCONFIRMED_USER_DATA s d (Some bs))
            ([x05; x64] ++ bs) true.

Definition table_after (m : M unit (list Context)) : list Context :=
  match m with
  | Ok t _ => t
  | Crash _ _ => []
  end.

Definition context_after (m : M unit Context) : option Context :=
  match m with
  | Ok c _ => Some c
  | Crash _ _ => None
  end.

(** A fresh context and the segments of the scenarios. *)
Definition fresh : Context := calloc_Context 16.

Definition seg_he : DNP3_Segment := mkSegment true false 5 [x68; x65].
Definition seg_y : DNP3_Segment := mkSegment false false 6 [x79].
Definition seg_l : DNP3_Segment := mkSegment false true 7 [x6c].
Definition seg_gap : DNP3_Segment := mkSegment false false 9 [x3f; x3f].
Definition seg_xx : DNP3_Segment := mkSegment true true 7 [x78; x78].
Definition seg_orphan : DNP3_Segment := mkSegment false false 1 [].

(** The context after [seg_he]: a series is open. *)
Definition ctx_open : Context :=
  mkContext 1 2 seg_he (Some (mkSuspended (lr_A1 (Some seg_he)) 1)) 1 [] 0.

Example scenario_S2 :
  payloads (trace (feed_segments unit no_app 249 fresh
                     [seg_he; mkSegment false true 6 [x6c; x6c; x6f]]))
  = [[x68; x65; x6c; x6c; x6f]].
Proof. reflexivity. Qed.

Example scenario_S5 :
  payloads (trace (feed_segments unit no_app 249 fresh [seg_he; seg_xx]))
  = [[x78; x78]].
Proof. reflexivity. Qed.

Lemma C3_witness :
  exists ctx' tr,
    process_transport_segment unit no_app 249 ctx_open seg_gap = Ok ctx' tr /\
    payloads tr = [] /\ n ctx' = 0 /\ tfun ctx' = None.
Proof.
  apply (C3_invalid_series_discarded unit no_app 249 ctx_open
           (in_A1 seg_he) seg_gap).
  - apply ts_A1; [reflexivity|]. vm_compute. split; [discriminate|reflexivity].
  - discriminate.
  - vm_compute. discriminate.
  - reflexivity.
Defined.

Lemma C4_witness :
  payloads (trace (feed_segments unit no_app 249 fresh
                     [seg_he; seg_y; seg_y; seg_y; seg_l])) =
  payloads (trace (feed_segments unit no_app 249 fresh
                     [seg_he; seg_y; seg_l])) /\
  (forall s d, fir s = false -> segment_equal d s = true ->
     fst (transport_tokens d (Some s)) =
     tok_equ :: (if fin d then [tok_Z] else [])).
Proof.
  apply (C4_retransmit_idempotent unit no_app 249 fresh
           [seg_he; seg_y; seg_l] [seg_he; seg_y; seg_y; seg_y; seg_l]).
  - exists idle. apply ts_idle. reflexivity.
  - apply rt_keep.
    apply rt_dup; [reflexivity|reflexivity|].
    apply rt_dup; [reflexivity|reflexivity|].
    apply rt_keep, rt_keep, rt_nil.
Defined.

(** Three pairs, one single-segment fragment each, with room for two
    contexts (scenario S6 in small). *)
Definition three_pairs : list Arrival :=
  [user_data 1 10 [xc0; x01]; user_data 2 10 [xc0; x02];
   user_data 3 10 [xc0; x03]].

Definition lru_run : M unit (list Context) :=
  dissect unit no_app segment_of_bytes 2 16 249 [] three_pairs.

Example scenario_S6 : keys (table_after lru_run) = [(3, 10); (2, 10)].
Proof. reflexivity. Qed.

Lemma C5_witness :
  (List.length (table_after lru_run) <= 2)%nat /\
  NoDup (keys (table_after lru_run)) /\
  (Forall (fun a => arr_calloc_ok a = true) three_pairs ->
   keys (table_after lru_run) = firstn 2 (mru (contacts three_pairs)) /\
   ((2 < List.length (nodup key_eq_dec (contacts three_pairs)))%nat ->
    List.length (table_after lru_run) = 2%nat)).
Proof.
  apply (C5_lru_table unit no_app segment_of_bytes 2 16 249 three_pairs
           (table_after lru_run) (trace lru_run)).
  - apply le_S, le_n.
  - vm_compute. reflexivity.
Defined.

(** One frame that opens a series and leaves the recognizer of its
    context in progress. *)
Definition open_run : M unit (list Context) :=
  dissect unit no_app segment_of_bytes 2 16 249 []
    [user_data 1 10 [x85; x68; x65]].

Definition open_parser : HSuspendedParser :=
  mkSuspended (lr_A1 (Some seg_he)) 1.

Lemma C7_witness :
  (forall s, tfun (hd fresh (table_after open_run)) = Some s ->
     tfun_pos (hd fresh (table_after open_run)) = pos s /\
     in_range (tfun_pos (hd fresh (table_after open_run)))) /\
  (forall raw c1 (tr1 : list (Event unit)) seg c' (tr' : list (Event unit)),
     append_raw unit 16 (hd fresh (table_after open_run)) raw = Ok c1 tr1 ->
     process_transport_segment unit no_app 249 c1 seg = Ok c' tr' ->
     let k := Z.of_nat (List.length
                          (fst (transport_tokens seg
                                  (Some (last_segment
                                           (hd fresh
                                              (table_after open_run))))))) in
     tfun_pos c' =
       size_t ((if restarts (hd fresh (table_after open_run)) seg
                then 0 else tfun_pos (hd fresh (table_after open_run))) + k) /\
     (restarts (hd fresh (table_after open_run)) seg = false ->
      tfun_pos (hd fresh (table_after open_run)) + k < 2 ^ SIZE_WIDTH ->
      tfun_pos c' = tfun_pos (hd fresh (table_after open_run)) + k)).
Proof.
  apply (C7_tfun_pos_counts_tokens unit no_app segment_of_bytes 2 16 249
           [user_data 1 10 [x85; x68; x65]]
           (table_after open_run) (trace open_run)).
  - vm_compute. reflexivity.
  - vm_compute. left. reflexivity.
Defined.

(** C7, as stated, fails: on a fresh context a one-segment fragment
    (tokens [A], [Z]) leaves [tfun_pos = 2]; a following first segment
    (token [A]) starts a new recognizer and leaves [tfun_pos = 1], though
    three tokens have been fed to the context by then. *)
Lemma C7_counterexample :
  option_map tfun_pos
    (context_after (feed_segments unit no_app 249 fresh [seg_xx])) = Some 2 /\
  option_map tfun_pos
    (context_after (feed_segments unit no_app 249 fresh [seg_xx; seg_he]))
    = Some 1.
Proof. split; reflexivity. Qed.

Definition small_run : M unit (list Context) :=
  dissect unit no_app segment_of_bytes 2 4 249 []
    [user_data 1 10 [x85; x68; x65]].

Lemma C9_witness :
  Forall (fun c => 0 <= n c <= 4) (table_after small_run) /\
  (forall ok f raw pl seg c others (tr1 : list (Event unit)),
     func f = DNP3_UNCONFIRMED_USER_DATA ->
     frame_payload f = Some pl ->
     segment_of_bytes pl = Some seg ->
     lookup_context unit 2 4 ok (table_after small_run)
       (source f) (destination f) = Ok (Some c, others) tr1 ->
     4 < size_t (n c + Z.of_nat (List.length raw)) ->
     process_link_frame unit no_app segment_of_bytes 2 4 249 ok
       (table_after small_run) f raw =
       bind unit
         (Ok tt (link_frame f raw :: tr1 ++
                 [log_error
                    (log_buf_overflow (n c) (Z.of_nat (List.length raw)))]))
         (fun _ =>
            bind unit (process_transport_segment unit no_app 249 c seg)
              (fun c' => ret unit (c' :: others))) /\
     (forall t' tr',
        process_link_frame unit no_app segment_of_bytes 2 4 249 ok
          (table_after small_run) f raw = Ok t' tr' ->
        exists c', t' = c' :: others /\ key c' = (source f, destination f) /\
                   buf c' = buf c /\ (n c' = n c \/ n c' = 0))).
Proof.
  apply (C9_buffer_bound unit no_app segment_of_bytes 2 4 249
           [user_data 1 10 [x85; x68; x65]]
           (table_after small_run) (trace small_run)).
  - discriminate.
  - vm_compute. reflexivity.
Defined.

(** The five-byte frame of [small_run] did not fit the four-byte buffer:
    the overflow was logged and the segment was processed all the same. *)
Example overflow_logged :
  trace small_run =
  [link_frame (mkFrame DNP3_UNCONFIRMED_USER_DATA 1 10 (Some [x85; x68; x65]))
              [x05; x64; x85; x68; x65];
   log_error (log_buf_overflow 0 5);
   transport_segment seg_he] /\
  map n (table_after small_run) = [0].
Proof. split; reflexivity. Qed.

Definition ctx_a : Context :=
  mkContext 1 10 seg_xx None 2 [x05; x64] 0.

Definition ctx_b : Context :=
  mkContext 2 10 seg_he (Some open_parser) 1 [x05; x64; x85] 3.

Lemma C10_witness :
  exists pre c post,
    [ctx_a; ctx_b] = pre ++ c :: post /\ src c = 2 /\ dst c = 10 /\
    ~ In (2, 10) (keys pre) /\
    lookup_context unit 2 16 true [ctx_a; ctx_b] 2 10 =
    Ok (Some c, pre ++ post) [].
Proof.
  apply (C10_lookup_hit_only_moves unit 2 16 true [ctx_a; ctx_b] 2 10).
  - apply le_n.
  - right. left. reflexivity.
Defined.

(** The hit of [C10_witness], spelled out. *)
Example lookup_hit_moves_to_front :
  lookup_context unit 2 16 true [ctx_a; ctx_b] 2 10 =
  Ok (Some ctx_b, [ctx_a]) [].
Proof. reflexivity. Qed.

(** * More concrete runs *)

(** A stand-in for the link-layer parser in the runs below: a frame is
    the magic [05 64], one byte of source, one of destination, and one
    byte of payload; it is unconfirmed user data. *)
Definition link_demo (input : list byte) : option (DNP3_Frame * Z) :=
  match input with
  | b0 :: b1 :: s :: d :: h :: _ =>
      if Byte.eqb b0 x05 && Byte.eqb b1 x64
      then Some (mkFrame DNP3_UNCONFIRMED_USER_DATA
                   (Z.of_N (Byte.to_N s)) (Z.of_N (Byte.to_N d)) (Some [h]),
                 40)
      else None
  | _ => None
  end.

Lemma link_demo_well_formed : link_well_formed link_demo.
Proof.
  intros input f bl. unfold link_demo.
  destruct input as [|b0 [|b1 [|s [|d [|h rest]]]]]; try discriminate.
  destruct (Byte.eqb b0 x05 && Byte.eqb b1 x64); [|discriminate].
  intros [= <- <-]. cbn [List.length]. split; [lia|reflexivity].
Qed.

Definition every_calloc : nat -> bool := fun _ => true.

Definition new_plugin : DissectPlugin := mkPlugin 0 16 (repeat x00 16) [].

Definition plugin_after (m : M unit DissectPlugin) : DissectPlugin :=
  match m with
  | Ok p _ => p
  | Crash _ _ => new_plugin
  end.

(** A stray byte, the frame from 1 to 10 with the segment [c5] (first
    and final, sequence number 5, no payload), and the first two bytes
    of another frame. *)
Definition stream_1 : list byte := [xff; x05; x64; x01; x0a; xc5; x05; x64].

Definition feed_1 : M unit DissectPlugin :=
  dnp3_dissect_feed unit no_app segment_of_bytes 2 16 249 link_demo 9
    every_calloc (host_write new_plugin stream_1) 8.

Example feed_1_outcome :
  base_buf (plugin_after feed_1) = 2 /\
  base_bufsize (plugin_after feed_1) = 14 /\
  firstn 2 (plugin_buf (plugin_after feed_1)) = [x05; x64] /\
  keys (contexts (plugin_after feed_1)) = [(1, 10)] /\
  trace feed_1 =
  [link_frame (mkFrame DNP3_UNCONFIRMED_USER_DATA 1 10 (Some [xc5]))
              [xff; x05; x64; x01; x0a; xc5];
   transport_segment (mkSegment true true 5 []);
   transport_payload [];
   app_reject].
Proof. repeat split; reflexivity. Qed.

Definition seg_llo : DNP3_Segment := mkSegment false true 6 [x6c; x6c; x6f].

Definition closing_run : M unit Context :=
  process_transport_segment unit no_app 249 ctx_open seg_llo.

Definition context_of (m : M unit Context) : Context :=
  match m with
  | Ok c _ => c
  | Crash _ _ => fresh
  end.

Lemma process_transport_segment_returns_iff_witness :
  ((exists ctx' tr,
      process_transport_segment unit no_app 249 ctx_open seg_gap = Ok ctx' tr)
   <-> len seg_gap <= 249 /\
       ~ (fir seg_gap = true /\ after_continuation ctx_open)) /\
  (process_transport_segment unit no_app 249 ctx_open seg_gap =
     Crash assert_segment_len [transport_segment seg_gap] <->
   249 < len seg_gap) /\
  (process_transport_segment unit no_app 249 ctx_open seg_gap =
     Crash assert_tfun_accepts [transport_segment seg_gap] <->
   len seg_gap <= 249 /\ fir seg_gap = true /\
   after_continuation ctx_open).
Proof.
  apply (process_transport_segment_returns_iff unit no_app 249 ctx_open
           seg_gap).
  exists (in_A1 seg_he). apply ts_A1; [reflexivity|].
  vm_compute. split; [discriminate|reflexivity].
Defined.

Lemma segment_events_witness :
  exists a,
    trace closing_run =
    transport_segment seg_llo ::
    delivery unit no_app (n ctx_open) (buf ctx_open) a /\
    (fin seg_llo = false -> a = None).
Proof.
  apply (segment_events unit no_app 249 ctx_open seg_llo).
  exists (in_A1 seg_he). apply ts_A1; [reflexivity|].
  vm_compute. split; [discriminate|reflexivity].
Defined.

Lemma fin_closes_witness :
  tfun (context_of closing_run) = None /\ n (context_of closing_run) = 0.
Proof.
  apply (fin_closes unit no_app 249 ctx_open seg_llo
           (context_of closing_run) (trace closing_run)).
  - exists (in_A1 seg_he). apply ts_A1; [reflexivity|].
    vm_compute. split; [discriminate|reflexivity].
  - reflexivity.
  - vm_compute. reflexivity.
Defined.

Lemma process_transport_segment_frame_witness :
  src (context_of closing_run) = src ctx_open /\
  dst (context_of closing_run) = dst ctx_open /\
  buf (context_of closing_run) = buf ctx_open /\
  (n (context_of closing_run) = n ctx_open \/
   n (context_of closing_run) = 0) /\
  last_segment (context_of closing_run) = seg_llo.
Proof.
  apply (process_transport_segment_frame unit no_app 249 ctx_open seg_llo
           (context_of closing_run) (trace closing_run)).
  vm_compute. reflexivity.
Defined.

(** The run of the dissector that stops when it reuses the context of an
    open series. *)
Definition stopping_run : M unit (list Context) :=
  dissect unit no_app segment_of_bytes 1 16 249 []
    [user_data 1 10 [x85; x68; x65]; user_data 2 10 [xc0; x01]].

Lemma dissector_checks_hold_witness :
  assert_finish_result <> assert_ttok_index /\
  assert_finish_result <> ttok_values_out_of_range /\
  assert_finish_result <> null_segment_deref /\
  assert_finish_result <> assert_tfun_null /\
  assert_finish_result <> assert_no_stuck_results /\
  assert_finish_result <> assert_bit_length /\
  assert_finish_result <> assert_consumed /\
  assert_finish_result <> loop_fuel.
Proof.
  apply (dissector_checks_hold unit no_app segment_of_bytes 1 16 249
           [user_data 1 10 [x85; x68; x65]; user_data 2 10 [xc0; x01]]
           assert_finish_result (trace stopping_run)).
  vm_compute. reflexivity.
Defined.

Lemma lookup_context_again_witness :
  lookup_context unit 2 16 false [ctx_b; ctx_a] 2 10 =
  Ok (Some ctx_b, [ctx_a]) [].
Proof.
  apply (lookup_context_again unit 2 16 true false [ctx_a; ctx_b] 2 10
           ctx_b [ctx_a] []).
  reflexivity.
Defined.

Definition frame_3_4 : DNP3_Frame :=
  mkFrame DNP3_UNCONFIRMED_USER_DATA 3 4 (Some [xc0]).

Lemma lookup_context_miss_with_room_witness :
  lookup_context unit 2 16 false [ctx_a] 3 4 = Ok (None, [ctx_a]) [] /\
  (forall f raw pl,
     func f = DNP3_UNCONFIRMED_USER_DATA -> frame_payload f = Some pl ->
     source f = 3 -> destination f = 4 -> false = false ->
     process_link_frame unit no_app segment_of_bytes 2 16 249 false [ctx_a]
       f raw =
     Ok [ctx_a] [link_frame f raw; log_error log_alloc_failed]).
Proof.
  apply (lookup_context_miss_with_room unit no_app segment_of_bytes 2 16 249
           false [ctx_a] 3 4).
  - intros [H|[]]. discriminate.
  - right. apply le_n.
Defined.

Lemma lookup_context_reuses_last_witness :
  (tfun ctx_a = None ->
   lookup_context unit 2 16 true ([ctx_b] ++ [ctx_a]) 3 4 =
   Ok (Some (mkContext 3 4 (last_segment ctx_a) None (tfun_pos ctx_a)
               (buf ctx_a) 0), [ctx_b]) (drop_log unit ctx_a)) /\
  (ctx_inv ctx_a -> tfun ctx_a <> None ->
   lookup_context unit 2 16 true ([ctx_b] ++ [ctx_a]) 3 4 =
   Crash assert_finish_result (drop_log unit ctx_a)).
Proof.
  apply (lookup_context_reuses_last unit 2 16 true [ctx_b] ctx_a 3 4).
  - intros [H|[H|[]]]; discriminate.
  - reflexivity.
Defined.

(** Reusing [ctx_a], which has no recognizer in progress, and [ctx_b],
    whose recognizer is in progress and which has buffered 3 bytes. *)
Example reuse_outcomes :
  lookup_context unit 2 16 true [ctx_b; ctx_a] 3 4 =
    Ok (Some (mkContext 3 4 seg_xx None 2 [x05; x64] 0), [ctx_b]) [] /\
  lookup_context unit 2 16 true [ctx_a; ctx_b] 3 4 =
    Crash assert_finish_result [log_error (log_context_overflow 2 10 3)].
Proof. split; reflexivity. Qed.

Definition touch_run : M unit (list Context) :=
  process_link_frame unit no_app segment_of_bytes 2 16 249 true [ctx_a]
    frame_3_4 [x05; x64; xc0].

Lemma process_link_frame_touches_one_witness :
  table_after touch_run = [ctx_a] \/
  (exists c', table_after touch_run = c' :: [ctx_a] /\
              key c' = (source frame_3_4, destination frame_3_4)) \/
  (exists c' pre c post,
     [ctx_a] = pre ++ c :: post /\
     table_after touch_run = c' :: pre ++ post /\
     key c' = (source frame_3_4, destination frame_3_4)).
Proof.
  apply (process_link_frame_touches_one unit no_app segment_of_bytes 2 16 249
           true [ctx_a] frame_3_4 [x05; x64; xc0] (table_after touch_run)
           (trace touch_run)).
  vm_compute. reflexivity.
Defined.

Definition quiet_frames : list Arrival :=
  [mkArrival (mkFrame DNP3_CONFIRMED_USER_DATA 1 2 (Some [xc0])) [x05; x64]
             true;
   mkArrival (mkFrame (DNP3_OTHER_FUNC 9) 1 2 None) [x05] true;
   mkArrival (mkFrame DNP3_UNCONFIRMED_USER_DATA 1 2 None) [] false].

Lemma frames_without_user_data_witness :
  dissect unit no_app segment_of_bytes 2 16 249 [ctx_b] quiet_frames =
  Ok [ctx_b] (flat_map (announce unit) quiet_frames).
Proof.
  apply (frames_without_user_data unit no_app segment_of_bytes 2 16 249
           quiet_frames [ctx_b]).
  reflexivity.
Defined.

Lemma buffered_only_while_open_witness :
  Forall (fun c => tfun c = None -> n c = 0) (table_after lru_run).
Proof.
  apply (buffered_only_while_open unit no_app segment_of_bytes 2 16 249
           three_pairs (table_after lru_run) (trace lru_run)).
  vm_compute. reflexivity.
Defined.

Lemma events_frame_by_frame_witness :
  exists trs,
    trace lru_run = List.concat trs /\
    Forall2 (fun a e => frame_events unit no_app (arr_frame a) (arr_raw a) e)
            three_pairs trs.
Proof.
  apply (events_frame_by_frame unit no_app segment_of_bytes 2 16 249
           three_pairs (table_after lru_run) (trace lru_run)).
  vm_compute. reflexivity.
Defined.

(** The fragment "hello" in two frames from 1 to 10. *)
Definition hello_1 : Arrival := user_data 1 10 [x85; x68; x65].
Definition hello_2 : Arrival := user_data 1 10 [x46; x6c; x6c; x6f].

Definition ctx_1_10 : Context :=
  mkContext 1 10 (mkSegment false false 0 []) None 0 (repeat x00 16) 0.

Lemma fragment_with_its_frames_witness :
  exists c' tr0,
    dissect unit no_app segment_of_bytes 2 16 249 [] (hello_1 :: [hello_2]) =
      Ok (c' :: [])
         (tr0 ++
          [transport_payload (List.concat (map payload [seg_he; seg_llo]));
           sink_event unit no_app
             (List.concat (map arr_raw (hello_1 :: [hello_2])))
             (List.concat (map payload [seg_he; seg_llo]))]) /\
    payloads tr0 = [] /\ tfun c' = None /\ n c' = 0.
Proof.
  apply (fragment_with_its_frames unit no_app segment_of_bytes 2 16 249
           [] hello_1 [hello_2] [seg_he; seg_llo] 1 10 ctx_1_10 [] []).
  - reflexivity.
  - reflexivity.
  - reflexivity.
  - repeat constructor; eexists; split; reflexivity.
  - reflexivity.
  - repeat constructor; vm_compute; discriminate.
  - vm_compute. discriminate.
  - vm_compute. split; [discriminate|reflexivity].
Defined.

(** The same run, spelled out: the fragment comes with the eleven raw
    bytes of its two frames. *)
Example hello_delivered :
  trace (dissect unit (fun _ => Some (app_ast_fragment unit tt))
           segment_of_bytes 2 16 249 [] [hello_1; hello_2]) =
  [link_frame (arr_frame hello_1) (arr_raw hello_1);
   transport_segment seg_he;
   link_frame (arr_frame hello_2) (arr_raw hello_2);
   transport_segment seg_llo;
   transport_payload [x68; x65; x6c; x6c; x6f];
   app_fragment unit tt
     [x05; x64; x85; x68; x65; x05; x64; x46; x6c; x6c; x6f]].
Proof. reflexivity. Qed.

Lemma feed_splits_input_witness :
  exists arrivals,
    dissect unit no_app segment_of_bytes 2 16 249
      (contexts (host_write new_plugin stream_1)) arrivals =
      Ok (contexts (plugin_after feed_1)) (trace feed_1) /\
    List.concat (map arr_raw arrivals) ++
      bytes_at (plugin_buf (plugin_after feed_1)) 0
               (base_buf (plugin_after feed_1)) =
    bytes_at (plugin_buf (host_write new_plugin stream_1))
             (base_buf (host_write new_plugin stream_1)) 8 /\
    dnp3_p_synced_frame link_demo
      (bytes_at (plugin_buf (plugin_after feed_1)) 0
                (base_buf (plugin_after feed_1))) = None /\
    plugin_inv 16 (plugin_after feed_1).
Proof.
  apply (feed_splits_input unit no_app segment_of_bytes 2 16 249 link_demo 9
           every_calloc (host_write new_plugin stream_1) 8
           (plugin_after feed_1) (trace feed_1)).
  - apply link_sync_bounded, link_demo_well_formed.
  - vm_compute. split; [discriminate|reflexivity].
  - vm_compute. repeat split; try discriminate; reflexivity.
  - vm_compute. split; discriminate.
  - vm_compute. reflexivity.
Defined.

Lemma reachable_plugin_witness :
  plugin_inv 16 (plugin_after feed_1) /\
  (exists arrivals tr,
     dissect unit no_app segment_of_bytes 2 16 249 [] arrivals =
     Ok (contexts (plugin_after feed_1)) tr) /\
  ((1 <= 2)%nat ->
   (List.length (contexts (plugin_after feed_1)) <= 2)%nat /\
   NoDup (keys (contexts (plugin_after feed_1)))) /\
  Forall (fun c => 0 <= n c <= 16) (contexts (plugin_after feed_1)).
Proof.
  apply (reachable_plugin unit no_app segment_of_bytes 2 16 249 link_demo
           (plugin_after feed_1)).
  - apply link_sync_bounded, link_demo_well_formed.
  - vm_compute. split; [discriminate|reflexivity].
  - apply (reach_feed unit no_app segment_of_bytes 2 16 249 link_demo
             new_plugin stream_1 9 every_calloc (plugin_after feed_1)
             (trace feed_1)).
    + apply (reach_new unit no_app segment_of_bytes 2 16 249 link_demo
               (repeat x00 16)); reflexivity.
    + vm_compute. discriminate.
    + vm_compute. reflexivity.
Defined.

Lemma feed_iteration_bound_witness :
  out_of_fuel unit
    (dnp3_dissect_feed unit no_app segment_of_bytes 2 16 249 link_demo 20
       every_calloc (host_write new_plugin stream_1)
       (Z.of_nat (List.length stream_1))) = false /\
  dnp3_dissect_feed unit no_app segment_of_bytes 2 16 249 link_demo 20
    every_calloc (host_write new_plugin stream_1)
    (Z.of_nat (List.length stream_1)) =
  dnp3_dissect_feed unit no_app segment_of_bytes 2 16 249 link_demo
    (S (List.length stream_1))
    every_calloc (host_write new_plugin stream_1)
    (Z.of_nat (List.length stream_1)).
Proof.
  apply (feed_iteration_bound unit no_app segment_of_bytes 2 16 249 link_demo
           new_plugin stream_1 every_calloc 20).
  - apply link_sync_bounded, link_demo_well_formed.
  - vm_compute. split; [discriminate|reflexivity].
  - apply (reach_new unit no_app segment_of_bytes 2 16 249 link_demo
             (repeat x00 16)); reflexivity.
  - vm_compute. discriminate.
  - vm_compute. repeat constructor.
Defined.

(** The rest of the frame whose first two bytes [feed_1] kept. *)
Definition stream_2 : list byte := [x02; x0a; xc7].

Lemma retained_bytes_not_parsed_witness :
  same_outcome unit
    (dnp3_dissect_feed unit no_app segment_of_bytes 2 16 249 link_demo 9
       every_calloc (host_write (plugin_after feed_1) stream_2)
       (Z.of_nat (List.length stream_2)))
    (dnp3_dissect_feed unit no_app segment_of_bytes 2 16 249 link_demo 9
       every_calloc
       (host_write
          (mkPlugin 0 16 (plugin_buf (plugin_after feed_1))
             (contexts (plugin_after feed_1))) stream_2)
       (Z.of_nat (List.length stream_2))).
Proof.
  apply (retained_bytes_not_parsed unit no_app segment_of_bytes 2 16 249
           link_demo 9 every_calloc (plugin_after feed_1) stream_2).
  - apply link_sync_bounded, link_demo_well_formed.
  - vm_compute. split; [discriminate|reflexivity].
  - vm_compute. repeat split; try discriminate; reflexivity.
  - vm_compute. discriminate.
Defined.

(** The frame [05 64 02 0a c7] arrives in two calls, cut after its
    magic: the second call sees [02 0a c7] only, finds no frame in it and
    emits nothing, and the two bytes kept by the first call are
    overwritten. *)
Example frame_cut_in_two :
  trace (dnp3_dissect_feed unit no_app segment_of_bytes 2 16 249 link_demo 9
           every_calloc (host_write (plugin_after feed_1) stream_2) 3) = [] /\
  bytes_at
    (plugin_buf
       (plugin_after
          (dnp3_dissect_feed unit no_app segment_of_bytes 2 16 249 link_demo
             9 every_calloc (host_write (plugin_after feed_1) stream_2) 3)))
    0 3 = stream_2 /\
  trace (dnp3_dissect_feed unit no_app segment_of_bytes 2 16 249 link_demo 9
           every_calloc
           (host_write new_plugin [x05; x64; x02; x0a; xc7]) 5) =
  [link_frame (mkFrame DNP3_UNCONFIRMED_USER_DATA 2 10 (Some [xc7]))
              [x05; x64; x02; x0a; xc7];
   transport_segment (mkSegment true true 7 []);
   transport_payload [];
   app_reject].
Proof. repeat split; reflexivity. Qed.

(** Two frames in one call, with room for one context: the first opens
    a series for the pair (1,10), the second makes [lookup_context]
    reuse that context. *)
Definition stream_3 : list byte :=
  [x05; x64; x01; x0a; x85; x05; x64; x02; x0a; xc5].

Definition feed_3 : M unit DissectPlugin :=
  dnp3_dissect_feed unit no_app segment_of_bytes 1 16 249 link_demo 11
    every_calloc (host_write new_plugin stream_3)
    (Z.of_nat (List.length stream_3)).

Lemma feed_checks_hold_witness :
  assert_finish_result <> assert_ttok_index /\
  assert_finish_result <> ttok_values_out_of_range /\
  assert_finish_result <> null_segment_deref /\
  assert_finish_result <> assert_tfun_null /\
  assert_finish_result <> assert_no_stuck_results /\
  assert_finish_result <> assert_bit_length /\
  assert_finish_result <> assert_consumed /\
  assert_finish_result <> loop_fuel.
Proof.
  apply (feed_checks_hold unit no_app segment_of_bytes 1 16 249 link_demo
           new_plugin stream_3 every_calloc 11 assert_finish_result
           (trace feed_3)).
  - apply link_demo_well_formed.
  - vm_compute. split; [discriminate|reflexivity].
  - apply (reach_new unit no_app segment_of_bytes 1 16 249 link_demo
             (repeat x00 16)); reflexivity.
  - vm_compute. discriminate.
  - vm_compute. repeat constructor.
  - vm_compute. reflexivity.
Defined.

Lemma first_frame_announced_witness :
  hd_error
    (trace (dnp3_dissect_feed unit no_app segment_of_bytes 2 16 249
              link_demo 9 every_calloc (host_write new_plugin stream_1) 8)) =
  Some (link_frame
          (mkFrame DNP3_UNCONFIRMED_USER_DATA 1 10 (Some [xc5]))
          (firstn (1 + Z.to_nat (40 / 8))
             (bytes_at (plugin_buf (host_write new_plugin stream_1))
                (base_buf (host_write new_plugin stream_1)) 8))).
Proof.
  apply (first_frame_announced unit no_app segment_of_bytes 2 16 249
           link_demo 8 every_calloc (host_write new_plugin stream_1) 8 1
           (mkFrame DNP3_UNCONFIRMED_USER_DATA 1 10 (Some [xc5])) 40).
  - apply link_demo_well_formed.
  - vm_compute. split; [discriminate|reflexivity].
  - vm_compute. repeat split; try discriminate; reflexivity.
  - vm_compute. split; discriminate.
  - vm_compute. repeat constructor.
  - reflexivity.
  - intros [|j] Hj; [reflexivity|lia].
Defined.

(** A context that has buffered the five bytes of the frame of
    [seg_he]. *)
Definition ctx_started : Context :=
  mkContext 1 10 seg_he (Some open_parser) 1
            ([x05; x64; x85; x68; x65] ++ repeat x00 11) 5.

Lemma restarted_series_keeps_old_frames_witness :
  exists c2,
    bind unit (append_raw unit 16 ctx_started [x05; x64; xc7; x78; x78])
      (fun c1 => process_transport_segment unit no_app 249 c1 seg_xx) =
      Ok c2 (transport_segment seg_xx ::
             if fin seg_xx
             then [transport_payload (payload seg_xx);
                   sink_event unit no_app
                     ([x05; x64; x85; x68; x65] ++
                      [x05; x64; xc7; x78; x78])
                     (payload seg_xx)]
             else []) /\
    (if fin seg_xx
     then tfun c2 = None /\ n c2 = 0
     else tfun_state c2 (in_A1 seg_xx) /\
          holds c2 ([x05; x64; x85; x68; x65] ++
                    [x05; x64; xc7; x78; x78])).
Proof.
  apply (restarted_series_keeps_old_frames unit no_app 16 249 ctx_started
           seg_he [x05; x64; x85; x68; x65] [x05; x64; xc7; x78; x78]
           seg_xx).
  - apply ts_A1; [reflexivity|].
    vm_compute. split; [discriminate|reflexivity].
  - split; reflexivity.
  - vm_compute. discriminate.
  - vm_compute. split; [discriminate|reflexivity].
  - vm_compute. discriminate.
  - reflexivity.
Defined.

Definition empty_payload : DNP3_Frame :=
  mkFrame DNP3_UNCONFIRMED_USER_DATA 3 4 (Some []).

Lemma rejected_payload_claims_context_witness :
  process_link_frame unit no_app segment_of_bytes 2 16 249 true
    [ctx_b; ctx_a] empty_payload [x05; x64] =
    Ok (mkContext 3 4 seg_xx None 2 [x05; x64] 0 :: [ctx_b])
       (link_frame empty_payload [x05; x64] :: [] ++ [transport_reject]) /\
  key (mkContext 3 4 seg_xx None 2 [x05; x64] 0) =
  (source empty_payload, destination empty_payload).
Proof.
  apply (rejected_payload_claims_context unit no_app segment_of_bytes 2 16
           249 true [ctx_b; ctx_a] empty_payload [x05; x64] []
           (mkContext 3 4 seg_xx None 2 [x05; x64] 0) [ctx_b] []);
    reflexivity.
Defined.

(** A context whose series has the continuation [seg_y] and that has
    buffered the frames of both segments. *)
Definition ctx_continued : Context :=
  mkContext 1 10 seg_y
            (Some (mkSuspended (lr_pe (Some seg_he) [Some seg_y]) 2)) 2
            ([x05; x64; x85; x68; x65; x05; x64; x06; x79] ++ repeat x00 7) 9.

Lemma retransmission_is_buffered_witness :
  exists c2,
    bind unit (append_raw unit 16 ctx_continued [x05; x64; x06; x79])
      (fun c1 => process_transport_segment unit no_app 249 c1 seg_y) =
      Ok c2 [transport_segment seg_y] /\
    tfun_state c2 (in_pe seg_he [seg_y]) /\
    holds c2 ([x05; x64; x85; x68; x65; x05; x64; x06; x79] ++
              [x05; x64; x06; x79]).
Proof.
  apply (retransmission_is_buffered unit no_app 16 249 ctx_continued
           (in_pe seg_he [seg_y]) seg_he [seg_y]
           [x05; x64; x85; x68; x65; x05; x64; x06; x79]
           [x05; x64; x06; x79] seg_y).
  - apply ts_pe; [reflexivity|].
    vm_compute. split; [discriminate|reflexivity].
  - right. reflexivity.
  - split; reflexivity.
  - vm_compute. discriminate.
  - vm_compute. split; [discriminate|reflexivity].
  - vm_compute. discriminate.
  - reflexivity.
  - reflexivity.
  - reflexivity.
Defined.

(** * Where the code departs from its description *)

(** C1: a complete series does not reach the sink when it follows an
    open series that already holds a continuation.  [seg_xx] alone is a
    complete series; fed after [seg_he] and [seg_y] (tokens [A], [+]), its
    token [A] has no action in the recognizer, and the run stops at the
    assertion of [feed_tfun] before any payload is announced. *)
Theorem C1_series_after_continuation_is_lost :
  complete_series [seg_xx] = true /\
  feed_segments unit no_app 249 fresh [seg_he; seg_y; seg_xx] =
  Crash assert_tfun_accepts
    [transport_segment seg_he; transport_segment seg_y;
     transport_segment seg_xx].
Proof. split; reflexivity. Qed.

Definition seg_a1 : DNP3_Segment := mkSegment true false 1 [x01].
Definition seg_a2 : DNP3_Segment := mkSegment false false 2 [x02].
Definition seg_a3 : DNP3_Segment := mkSegment true false 3 [x03].

(** C2: the recognizer does not always accept.  The tokens [A], [+], [A]
    of three segments make [h_parse_finish] return NULL in [feed_tfun];
    ending a recognizer that is in progress returns NULL as well, so that
    recycling the context of an open series (here with room for one
    context) stops at the assertion of [reset_tfun]. *)
Theorem C2_recognizer_rejects :
  fst (transport_tokens seg_a1 (Some (last_segment fresh))) = [tok_A] /\
  fst (transport_tokens seg_a2 (Some seg_a1)) = [tok_pls] /\
  fst (transport_tokens seg_a3 (Some seg_a2)) = [tok_A] /\
  feed_segments unit no_app 249 fresh [seg_a1; seg_a2; seg_a3] =
  Crash assert_tfun_accepts
    [transport_segment seg_a1; transport_segment seg_a2;
     transport_segment seg_a3] /\
  h_parse_finish open_parser = None /\
  reset_tfun unit ctx_open = Crash assert_finish_result [] /\
  dissect unit no_app segment_of_bytes 1 16 249 []
    [user_data 1 10 [x85; x68; x65]; user_data 2 10 [xc0; x01]] =
  Crash assert_finish_result
    [link_frame (mkFrame DNP3_UNCONFIRMED_USER_DATA 1 10
                   (Some [x85; x68; x65]))
                [x05; x64; x85; x68; x65];
     transport_segment seg_he;
     link_frame (mkFrame DNP3_UNCONFIRMED_USER_DATA 2 10 (Some [xc0; x01]))
                [x05; x64; xc0; x01];
     log_error (log_context_overflow 1 10 5)].
Proof. repeat split; reflexivity. Qed.

(** The table after one complete fragment from the pair (1,10), with
    room for one context. *)
Definition one_slot : list Context :=
  table_after (dissect unit no_app segment_of_bytes 1 16 249 []
                 [user_data 1 10 [xc5; x78]]).

Definition seg_stale : DNP3_Segment := mkSegment true true 5 [x78].
Definition seg_next : DNP3_Segment := mkSegment false false 6 [x79].

(** C6: the context recycled for the pair (3,4) still holds the last
    segment of the pair (1,10); a first segment of the new pair with
    [fir] unset and the next sequence number is tokenized as [+], not as
    an orphan. *)
Theorem C6_recycled_context_keeps_last_segment :
  match lookup_context unit 1 16 true one_slot 3 4 with
  | Ok (Some c, _) _ =>
      key c = (3, 4) /\ n c = 0 /\ tfun c = None /\
      last_segment c = seg_stale /\
      fst (transport_tokens seg_next (Some (last_segment c))) = [tok_pls]
  | _ => False
  end.
Proof. vm_compute. repeat split; reflexivity. Qed.

(** C8: in a fresh context the first segment with [fir] unset is
    tokenized against the zeroed [last_segment]: sequence number 1 gives
    [+], not the orphan token.  The segment is announced and no payload
    follows. *)
Theorem C8_fresh_context_has_no_orphan :
  fst (transport_tokens seg_orphan (Some (last_segment fresh))) = [tok_pls] /\
  fst (transport_tokens seg_orphan None) = [tok_orphan] /\
  trace (process_transport_segment unit no_app 249 fresh seg_orphan) =
  [transport_segment seg_orphan].
Proof. repeat split; reflexivity. Qed.
